(** * generate_langs: language tallies, top-N selection and pie geometry

    A shallow embedding of [scripts/generate_langs.py].  Python integers
    are [Z]; strings are [string] (a sequence of one-byte characters, which
    is what an HTTP header decoded as latin-1 is); a [dict] is an
    association list in insertion order, because [sorted] is stable and
    the order of [dict.items()] therefore shows in the output; exceptions
    and [sys.exit] are the [Raise] results of an error monad; the network
    and the file system are oracles threaded through a world state. *)

From Stdlib Require Import ZArith List String Ascii Bool Lia.
From Stdlib Require Import Permutation Sorted.
From Stdlib Require Import Floats Reals Lra DecimalString.
Import ListNotations.

Set Warnings "-register-all".

Local Open Scope string_scope.
Local Open Scope list_scope.
Local Open Scope Z_scope.

(** ** Exceptions and results *)

Inductive exn : Type :=
| SystemExit (code : Z)
| RequestException
| ValueError
| TypeError
| KeyError
| ZeroDivisionError
| OverflowError
| OSError.

Inductive outcome (A : Type) : Type :=
| Ret (a : A)
| Raise (e : exn).

Arguments Ret {A} a.
Arguments Raise {A} e.

Definition bind {A B : Type} (m : outcome A) (k : A -> outcome B) : outcome B :=
  match m with
  | Ret a => k a
  | Raise e => Raise e
  end.

Notation "x <- m ;; k" := (bind m (fun x => k))
  (at level 61, m at next level, right associativity).

(** [try: ... except Exception: return d].  [SystemExit] derives from
    [BaseException] and passes through an [except Exception] clause. *)
Definition try_except {A : Type} (m : outcome A) (d : A) : outcome A :=
  match m with
  | Ret a => Ret a
  | Raise (SystemExit c) => Raise (SystemExit c)
  | Raise _ => Ret d
  end.

(** The exit status of the interpreter: 0 after a normal return, the
    argument of [sys.exit], and 1 after an uncaught exception. *)
Definition exit_status {A : Type} (m : outcome A) : Z :=
  match m with
  | Ret _ => 0
  | Raise (SystemExit c) => c
  | Raise _ => 1
  end.

(** ** Configuration constants *)

Definition TOP_N : nat := 5.
Definition EXCLUDED_LANGUAGES : list string := [].
Definition OTHER_COLOR : string := "#6b7280".
Definition REPO_COLORS : list string :=
  ["#f97316"; "#eab308"; "#22c55e"; "#fb7185"; "#a78bfa"].
Definition ACTIVITY_COLORS : list string :=
  ["#06b6d4"; "#6366f1"; "#00c2a8"; "#ff6b6b"; "#ffd166"].
Definition OUTPUT_FILE : string := "languages-overview.svg".

(** ** Dictionaries from language to weight *)

Module Dict.

(** A tally: the items of a [dict], in insertion order. *)
Definition t : Type := list (string * Z).

(** [d.get(k, dflt)] *)
Fixpoint get (d : t) (k : string) (dflt : Z) : Z :=
  match d with
  | [] => dflt
  | (k', v) :: d' => if String.eqb k' k then v else get d' k dflt
  end.

(** [d[k] = v]: an existing key keeps its position, a new key goes last. *)
Fixpoint set (d : t) (k : string) (v : Z) : t :=
  match d with
  | [] => [(k, v)]
  | (k', v') :: d' =>
      if String.eqb k' k then (k', v) :: d' else (k', v') :: set d' k v
  end.

(** [d.keys()] *)
Definition keys (d : t) : list string := map fst d.

End Dict.

(** [sum(v for _, v in items)] *)
Definition sum_values (items : list (string * Z)) : Z :=
  fold_right (fun kv acc => snd kv + acc) 0 items.

(** ** Top-N selection *)

(** [sorted(items, key=lambda x: x[1], reverse=True)].  Python's sort is
    stable, and stays so under [reverse=True]: the result is in descending
    order of value and entries of equal value keep their input order.
    [insert_desc] puts an entry in front of the first entry that is not
    larger, so an entry inserted from further left ends up before its
    equals. *)
Fixpoint insert_desc (x : string * Z) (l : list (string * Z)) : list (string * Z) :=
  match l with
  | [] => [x]
  | y :: l' => if snd y <=? snd x then x :: y :: l' else y :: insert_desc x l'
  end.

Definition sorted_desc (items : list (string * Z)) : list (string * Z) :=
  fold_right insert_desc [] items.

Definition top_n_with_other (data : Dict.t) : list (string * Z) :=
  let items := sorted_desc data in
  let top := firstn TOP_N items in
  let other := sum_values (skipn TOP_N items) in
  if 0 <? other then top ++ [("Other", other)] else top.

(** The entries beyond rank N and their sum, as [top_n_with_other]
    computes them. *)
Definition remainder (data : Dict.t) : list (string * Z) :=
  skipn TOP_N (sorted_desc data).

Definition is_other (kv : string * Z) : bool := String.eqb (fst kv) "Other".

(** The ordering rule of the specification, applied to an output list:
    the entries that are not labelled "Other" in descending order of value
    by a stable sort, then the entries labelled "Other". *)
Definition resort (out : list (string * Z)) : list (string * Z) :=
  sorted_desc (filter (fun kv => negb (is_other kv)) out) ++ filter is_other out.

(** Descending order of value, and the entries of one value. *)
Definition desc (a b : string * Z) : Prop := snd b <= snd a.

Definition has_value (v : Z) (kv : string * Z) : bool := snd kv =? v.

(** ** Strings *)

Module Str.

(** [sub in s] *)
Fixpoint contains (sub s : string) : bool :=
  String.prefix sub s ||
  match s with
  | EmptyString => false
  | String _ s' => contains sub s'
  end.

(** [s.split(sep)] for a non-empty separator: the pieces between the
    non-overlapping occurrences of [sep], found left to right.  [skip]
    counts the characters of a matched separator still to be passed over,
    [cur] is the piece being collected. *)
Fixpoint split_go (sep : string) (skip : nat) (cur : string) (s : string)
  : list string :=
  match s with
  | EmptyString => [cur]
  | String c s' =>
      match skip with
      | S k => split_go sep k cur s'
      | O =>
          if String.prefix sep s
          then cur :: split_go sep (String.length sep - 1) EmptyString s'
          else split_go sep O (String.append cur (String c EmptyString)) s'
      end
  end.

Definition split (sep s : string) : list string := split_go sep O EmptyString s.

(** The characters [int()] skips around a number: the C-locale white
    space, and the two latin-1 characters Unicode counts as spaces. *)
Definition is_space (c : ascii) : bool :=
  let n := nat_of_ascii c in
  ((9 <=? n) && (n <=? 13) || (n =? 32) || (n =? 133) || (n =? 160))%nat.

Fixpoint lstrip (s : string) : string :=
  match s with
  | EmptyString => EmptyString
  | String c s' => if is_space c then lstrip s' else s
  end.

Definition digit_of (c : ascii) : option Z :=
  let n := Z.of_nat (nat_of_ascii c) in
  if (48 <=? n) && (n <=? 57) then Some (n - 48) else None.

Definition underscore : ascii := "_"%char.

(** The digits of a decimal literal, single underscores allowed between
    digits: the value, the number of digits, and the text left over. *)
Fixpoint scan_digits (s : string) (prev_us : bool) (acc : Z) (count : nat)
  : option (Z * nat * string) :=
  match s with
  | EmptyString => if prev_us then None else Some (acc, count, EmptyString)
  | String c s' =>
      if Ascii.eqb c underscore
      then (if prev_us then None else scan_digits s' true acc count)
      else match digit_of c with
           | Some d => scan_digits s' false (10 * acc + d) (S count)
           | None => if prev_us then None else Some (acc, count, s)
           end
  end.

(** [sys.int_info.default_max_str_digits] *)
Definition max_str_digits : nat := 4300.

Definition unsigned_int (s : string) : outcome Z :=
  match s with
  | String c _ =>
      if Ascii.eqb c underscore then Raise ValueError
      else match scan_digits s false 0 O with
           | Some (v, count, rest) =>
               match count with
               | O => Raise ValueError
               | _ =>
                   match lstrip rest with
                   | EmptyString =>
                       if (max_str_digits <? count)%nat then Raise ValueError
                       else Ret v
                   | _ => Raise ValueError
                   end
               end
           | None => Raise ValueError
           end
  | EmptyString => Raise ValueError
  end.

(** [int(s)] *)
Definition int (s : string) : outcome Z :=
  match lstrip s with
  | String "+"%char s' => unsigned_int s'
  | String "-"%char s' => v <- unsigned_int s' ;; Ret (- v)
  | s' => unsigned_int s'
  end.

Definition dquote : string := String (ascii_of_nat 34) EmptyString.

End Str.

(** ** JSON values, as far as [len] looks at them *)

Inductive json : Type :=
| JNull
| JBool (b : bool)
| JNumber
| JString (s : string)
| JArray (l : list json)
| JObject (l : list (string * json)).

(** [len(j)] *)
Definition py_len (j : json) : outcome Z :=
  match j with
  | JArray l => Ret (Z.of_nat (List.length l))
  | JObject l => Ret (Z.of_nat (List.length l))
  | JString s => Ret (Z.of_nat (String.length s))
  | JNull | JBool _ | JNumber => Raise TypeError
  end.

(** ** The commit endpoint *)

(** What [fetch_commit_count] reads of a response: the status, the [Link]
    header when there is one, and the decoded body ([None] when [r.json()]
    raises a decoding error). *)
Record response : Type := {
  status_code : Z;
  link_header : option string;
  json_body : option json
}.

(** [requests.get] either returns a response or raises. *)
Inductive get_result : Type :=
| GetRaised
| GetResponse (r : response).

Definition rel_last : string :=
  Eval cbv in ("rel=" ++ Str.dquote ++ "last" ++ Str.dquote)%string.

(** [int(part.split("page=")[-1].split(">")[0])] *)
Definition page_number (part : string) : outcome Z :=
  Str.int (hd EmptyString (Str.split ">" (last (Str.split "page=" part) EmptyString))).

(** The loop over the comma-separated parts of the [Link] header, with the
    [return 1] that follows it. *)
Fixpoint last_page (parts : list string) : outcome Z :=
  match parts with
  | [] => Ret 1
  | part :: parts' =>
      if Str.contains rel_last part
      then try_except (page_number part) 1
      else last_page parts'
  end.

(** [fetch_commit_count] after the HTTP call has returned [r]. *)
Definition commit_count_of_response (r : response) : outcome Z :=
  if negb (status_code r =? 200) then Ret 1
  else match link_header r with
       | None =>
           try_except
             (match json_body r with
              | Some j => py_len j
              | None => Raise ValueError
              end) 1
       | Some link => last_page (Str.split "," link)
       end.

Definition quoted (s : string) : string :=
  (Str.dquote ++ s ++ Str.dquote)%string.

(** The header GitHub sends with the first of 37 one-commit pages. *)
Definition github_link : string :=
  ("<https://api.github.com/repositories/1300192/commits?per_page=1&page=2>; rel="
   ++ quoted "next"
   ++ ", <https://api.github.com/repositories/1300192/commits?per_page=1&page=37>; rel="
   ++ quoted "last")%string.

(** ** Repository records *)

(** A node of the GraphQL answer.  [primaryLanguage] is [None] when the
    field is null or missing, [Some None] when the object carries no name;
    [languages] are the names at [languages.edges[i].node.name], the empty
    list when the key or its edges are missing. *)
Record repo : Type := {
  name : string;
  primaryLanguage : option (option string);
  languages : list (option string)
}.

Definition language_for_repo (r : repo) : option string :=
  let fallback :=
    match languages r with
    | [] => None
    | first :: _ => first
    end in
  match primaryLanguage r with
  | Some (Some s) => if String.eqb s EmptyString then fallback else Some s
  | Some None | None => fallback
  end.

(** [not lang or lang in EXCLUDED_LANGUAGES], with the language when the
    test fails. *)
Definition counted_language (r : repo) : option string :=
  match language_for_repo r with
  | None => None
  | Some lang =>
      if String.eqb lang EmptyString then None
      else if existsb (String.eqb lang) EXCLUDED_LANGUAGES then None
      else Some lang
  end.

(** One turn of the loop of [languages_by_repo_count]. *)
Definition count_step (counts : Dict.t) (r : repo) : Dict.t :=
  match counted_language r with
  | None => counts
  | Some lang => Dict.set counts lang (Dict.get counts lang 0 + 1)
  end.

Definition languages_by_repo_count (repos : list repo) : Dict.t :=
  fold_left count_step repos [].

(** ** Pie geometry *)

(** The float operations [pie_paths] uses.  The program runs on the
    binary64 instance below. *)
Class PyFloat (F : Type) : Type := {
  (** [math.pi] *)
  pi : F;
  (** an [int] operand of a float operation *)
  of_int : Z -> F;
  fneg : F -> F;
  fadd : F -> F -> F;
  fmul : F -> F -> F;
  fdiv : F -> F -> F;
  (** [a / b] on two [int]s *)
  truediv : Z -> Z -> outcome F;
  (** [x > y] *)
  fgt : F -> F -> bool;
  (** [math.cos] and [math.sin] raise [ValueError] at an infinity *)
  trig_defined : F -> bool;
  (** [round(x)] *)
  pyround : F -> outcome Z
}.

(** The path data [d]: the f-string prints the points [pt(r_outer, a1)],
    [pt(r_outer, a2)], [pt(r_inner, a2)], [pt(r_inner, a1)], the two radii
    and the large-arc flag; the record keeps what they are computed from. *)
Record arc (F : Type) : Type := {
  arc_cx : Z;
  arc_cy : Z;
  arc_r_outer : Z;
  arc_r_inner : Z;
  arc_a1 : F;
  arc_a2 : F;
  arc_large : Z
}.

Arguments arc_cx {F} a.
Arguments arc_cy {F} a.
Arguments arc_r_outer {F} a.
Arguments arc_r_inner {F} a.
Arguments arc_a1 {F} a.
Arguments arc_a2 {F} a.
Arguments arc_large {F} a.

(** An element [(d, color, label, pct)] of the result of [pie_paths]. *)
Record slice (F : Type) : Type := {
  slice_d : arc F;
  slice_color : string;
  slice_label : string;
  slice_pct : Z
}.

Arguments slice_d {F} s.
Arguments slice_color {F} s.
Arguments slice_label {F} s.
Arguments slice_pct {F} s.

(** [colors[i % len(colors)]] *)
Definition palette_color (colors : list string) (i : nat) : outcome string :=
  match colors with
  | [] => Raise ZeroDivisionError
  | _ => Ret (nth (i mod List.length colors) colors EmptyString)
  end.

Section PiePaths.

Context {F : Type} `{PyFloat F}.

(** [sum(v for _, v in data) or 1] *)
Definition pie_total (data : list (string * Z)) : Z :=
  let s := sum_values data in if s =? 0 then 1 else s.

(** [frac * 2 * math.pi] *)
Definition span (frac : F) : F := fmul (fmul frac (of_int 2)) pi.

(** [-math.pi / 2] *)
Definition start_angle : F := fdiv (fneg pi) (of_int 2).

(** The four calls of [pt] evaluate [math.cos] and [math.sin] at [a1]
    and [a2].  They also convert the [int]s [cx], [cy] and [r] to floats;
    the centre and radii of the two calls in [render_combined] (280, 680,
    160, 88 and 56) convert exactly, and the [OverflowError] of an [int]
    beyond the range of floats is left out here: see [Binary64.fits]. *)
Definition points (a1 a2 : F) : outcome unit :=
  if trig_defined a1 && trig_defined a2 then Ret tt else Raise ValueError.

(** The loop of [pie_paths] from index [i] and angle [angle] on. *)
Fixpoint pie_loop (total cx cy r_outer r_inner : Z) (colors : list string)
         (i : nat) (angle : F) (data : list (string * Z))
  : outcome (list (slice F)) :=
  match data with
  | [] => Ret []
  | (label, value) :: rest =>
      frac <- truediv value total ;;
      let delta := span frac in
      let a1 := angle in
      let a2 := fadd angle delta in
      let large := if fgt delta pi then 1 else 0 in
      color <- (if String.eqb label "Other" then Ret OTHER_COLOR
                else palette_color colors i) ;;
      _ <- points a1 a2 ;;
      pct <- pyround (fmul frac (of_int 100)) ;;
      let d := {| arc_cx := cx; arc_cy := cy;
                  arc_r_outer := r_outer; arc_r_inner := r_inner;
                  arc_a1 := a1; arc_a2 := a2; arc_large := large |} in
      result <- pie_loop total cx cy r_outer r_inner colors (S i) a2 rest ;;
      Ret ({| slice_d := d; slice_color := color;
              slice_label := label; slice_pct := pct |} :: result)
  end.

Definition pie_paths (data : list (string * Z)) (cx cy r_outer r_inner : Z)
           (colors : list string) : outcome (list (slice F)) :=
  pie_loop (pie_total data) cx cy r_outer r_inner colors O start_angle data.

(** What one slice is computed from: its own value, the total and its
    own index and start angle. *)
Definition slice_of (total : Z) (colors : list string) (i : nat) (angle : F)
           (label : string) (value : Z) (s : slice F) : Prop :=
  exists frac,
    truediv value total = Ret frac /\
    slice_label s = label /\
    arc_a1 (slice_d s) = angle /\
    arc_a2 (slice_d s) = fadd angle (span frac) /\
    arc_large (slice_d s) = (if fgt (span frac) pi then 1 else 0) /\
    (if String.eqb label "Other" then Ret OTHER_COLOR else palette_color colors i)
    = Ret (slice_color s) /\
    pyround (fmul frac (of_int 100)) = Ret (slice_pct s).

(** The values [delta] takes in the loop of [pie_paths], one per entry:
    [frac = value / total] and [delta = frac * 2 * math.pi]. *)
Fixpoint pie_deltas (total : Z) (data : list (string * Z)) : outcome (list F) :=
  match data with
  | [] => Ret []
  | (_, value) :: rest =>
      frac <- truediv value total ;;
      deltas <- pie_deltas total rest ;;
      Ret (span frac :: deltas)
  end.

(** A slice that goes from its start angle by [delta]. *)
Definition spans (s : slice F) (delta : F) : Prop :=
  arc_a2 (slice_d s) = fadd (arc_a1 (slice_d s)) delta /\
  arc_large (slice_d s) = (if fgt delta pi then 1 else 0).

End PiePaths.

(** *** Binary64 *)

Module Binary64.

(** The nearest float to [m * 2^e], ties to even. *)
Definition nearest (m e : Z) : spec_float := binary_normalize prec emax m e false.

(** [a / b] on two [int]s is the correctly rounded quotient.  The
    quotient is taken with at least 55 bits and a sticky bit for the
    rest, which rounds as the exact value does. *)
Definition truediv (a b : Z) : outcome float :=
  if b =? 0 then Raise ZeroDivisionError
  else
    let negative := xorb (a <? 0) (b <? 0) in
    let n := Z.abs a in
    let d := Z.abs b in
    if n =? 0 then Ret (if negative then neg_zero else zero)
    else
      let k := Z.max 0 (55 + Z.log2 d - Z.log2 n) in
      let q := (n * 2 ^ k) / d in
      let sticky := if (n * 2 ^ k) mod d =? 0 then 0 else 1 in
      let m := 2 * q + sticky in
      match nearest (if negative then - m else m) (- k - 1) with
      | S754_infinity _ => Raise OverflowError
      | sf => Ret (SF2Prim sf)
      end.

(** The nearest integer to [m * 2^e] for [0 <= m], ties to even. *)
Definition round_half_even (m e : Z) : Z :=
  if 0 <=? e then m * 2 ^ e
  else
    let d := 2 ^ (- e) in
    let q := m / d in
    let r := m mod d in
    match 2 * r ?= d with
    | Lt => q
    | Gt => q + 1
    | Eq => if Z.even q then q else q + 1
    end.

(** [round(x)]: [ValueError] at a NaN, [OverflowError] at an infinity. *)
Definition round (x : float) : outcome Z :=
  match Prim2SF x with
  | S754_nan => Raise ValueError
  | S754_infinity _ => Raise OverflowError
  | S754_zero _ => Ret 0
  | S754_finite s m e =>
      let n := round_half_even (Zpos m) e in Ret (if s then - n else n)
  end.

Definition finite_or_nan (x : float) : bool :=
  match Prim2SF x with
  | S754_infinity _ => false
  | _ => true
  end.

Definition math_pi : float := 0x1.921fb54442d18p+1%float.

(** An [int] that converts to a float: [float(n)] raises [OverflowError]
    when the nearest float is an infinity. *)
Definition fits (n : Z) : bool :=
  match nearest n 0 with
  | S754_infinity _ => false
  | _ => true
  end.

End Binary64.

#[export] Instance binary64 : PyFloat float := {|
  pi := Binary64.math_pi;
  of_int := fun z => SF2Prim (Binary64.nearest z 0);
  fneg := PrimFloat.opp;
  fadd := PrimFloat.add;
  fmul := PrimFloat.mul;
  fdiv := PrimFloat.div;
  truediv := Binary64.truediv;
  fgt := fun x y => PrimFloat.ltb y x;
  trig_defined := Binary64.finite_or_nan;
  pyround := Binary64.round
|}.

(** *** Readings of the slices *)

(** The value of a finite float as [m * 2^e]. *)
Definition dyadic (x : float) : option (Z * Z) :=
  match Prim2SF x with
  | S754_zero _ => Some (0, 0)
  | S754_finite s m e => Some (if s then Zneg m else Zpos m, e)
  | S754_infinity _ | S754_nan => None
  end.

(** [n] is an integer nearest to [x]: [|n - x| <= 1/2]. *)
Definition nearest_integer (x : float) (n : Z) : Prop :=
  exists m e,
    dyadic x = Some (m, e) /\
    if 0 <=? e then n = m * 2 ^ e
    else 2 * Z.abs (n * 2 ^ (- e) - m) <= 2 ^ (- e).

(** The labels the percentages are displayed with. *)
Definition sum_pct {F : Type} (slices : list (slice F)) : Z :=
  fold_right (fun s acc => slice_pct s + acc) 0 slices.


(** *** Rounding *)

(** [m / 2^k] rounded to the nearest integer, ties to even: the mantissa
    [binary_round_aux] keeps of [m] when it shifts [k] digits out. *)
Definition rne (m k : Z) : Z :=
  if k =? 0 then m else Binary64.round_half_even m (- k).

(** The number of digits [shr_fexp] shifts out of [m * 2^e]. *)
Definition shift_of (m e : Z) : Z := Z.max 0 (fexp prec emax (Zdigits2 m + e) - e).

(** The float [binary_round_aux] makes of the rounded mantissa [m2] at
    the exponent [e2]. *)
Definition result_of (s : bool) (m2 e2 : Z) : spec_float :=
  match m2 with
  | Z0 => S754_zero s
  | Zpos p => if e2 <=? emax - prec then S754_finite s p e2 else S754_infinity s
  | Zneg _ => S754_nan
  end.

(** *** The values of floats *)

Definition bpow (e : Z) : R := powerRZ 2 e.

(** The real number a float stands for; 0 for an infinity or a NaN. *)
Definition SF2R (x : spec_float) : R :=
  match x with
  | S754_finite s m e => (IZR (cond_Zopp s (Zpos m)) * bpow e)%R
  | _ => 0%R
  end.

Definition SF_finite (x : spec_float) : bool :=
  match x with
  | S754_zero _ | S754_finite _ _ _ => true
  | _ => false
  end.

Definition signed (s : bool) (a : R) : R := if s then (- a)%R else a.

Definition val (x : float) : R := SF2R (Prim2SF x).

Definition finite (x : float) : bool := SF_finite (Prim2SF x).

(** The sum of the [delta] values, as real numbers. *)
Definition spans_sum (deltas : list float) : R :=
  fold_right (fun d acc => (val d + acc)%R) 0%R deltas.

(** ** The run *)

(** The repository listing, decoded at the API boundary. *)
Record page_info : Type := {
  hasNextPage : bool;
  endCursor : option string
}.

Record repositories_page : Type := {
  pageInfo : page_info;
  nodes : list repo
}.

(** [resp.json()]: whether [data.get("errors")] is true, and
    [data["data"]["user"]["repositories"]], or what the subscripts raise. *)
Record graphql_data : Type := {
  errors : bool;
  repositories : outcome repositories_page
}.

Record graphql_response : Type := {
  post_status_code : Z;
  post_json : outcome graphql_data
}.

Inductive post_result : Type :=
| PostRaised
| PostResponse (resp : graphql_response).

(** The two charts written to the output file. *)
Record svg : Type := {
  svg_repo_paths : list (slice float);
  svg_act_paths : list (slice float)
}.

Section Run.

(** The state of everything outside the process, and the calls that
    read or change it: [os.environ.get], [requests.post] with the cursor
    of the query, [requests.get] on the commit URL of a repository, and
    writing the output file. *)
Variable World : Type.
Variable getenv : string -> option string.
Variable http_post : option string -> World -> post_result * World.
Variable http_get : string -> World -> get_result * World.
Variable file_write : string -> svg -> World -> outcome unit * World.

(** [fetch_repositories]; the number of requests is bounded by [fuel],
    and [None] is a listing that has not ended within it. *)
Fixpoint fetch_repositories_from (fuel : nat) (repos : list repo)
         (cursor : option string) (w : World)
  : option (outcome (list repo) * World) :=
  match fuel with
  | O => None
  | S fuel' =>
      let (res, w1) := http_post cursor w in
      match res with
      | PostRaised => Some (Raise RequestException, w1)
      | PostResponse resp =>
          if negb (post_status_code resp =? 200)
          then Some (Raise (SystemExit 1), w1)
          else
            match post_json resp with
            | Raise e => Some (Raise e, w1)
            | Ret data =>
                if errors data then Some (Raise (SystemExit 1), w1)
                else
                  match repositories data with
                  | Raise e => Some (Raise e, w1)
                  | Ret page =>
                      let repos' := repos ++ nodes page in
                      if negb (hasNextPage (pageInfo page))
                      then Some (Ret repos', w1)
                      else fetch_repositories_from fuel' repos'
                             (endCursor (pageInfo page)) w1
                  end
            end
      end
  end.

Definition fetch_repositories (fuel : nat) (w : World)
  : option (outcome (list repo) * World) :=
  fetch_repositories_from fuel [] None w.

Definition fetch_commit_count (repo_name : string) (w : World)
  : outcome Z * World :=
  let (res, w1) := http_get repo_name w in
  match res with
  | GetRaised => (Raise RequestException, w1)
  | GetResponse r => (commit_count_of_response r, w1)
  end.

(** The loop of [commit_weighted_languages]. *)
Fixpoint commit_weighted_from (weighted : Dict.t) (repos : list repo)
         (w : World) : outcome Dict.t * World :=
  match repos with
  | [] => (Ret weighted, w)
  | r :: rest =>
      match counted_language r with
      | None => commit_weighted_from weighted rest w
      | Some lang =>
          let (res, w1) := fetch_commit_count (name r) w in
          match res with
          | Raise e => (Raise e, w1)
          | Ret commits =>
              commit_weighted_from
                (Dict.set weighted lang (Dict.get weighted lang 0 + commits))
                rest w1
          end
      end
  end.

Definition commit_weighted_languages (repos : list repo) (w : World)
  : outcome Dict.t * World :=
  commit_weighted_from [] repos w.

Definition render_combined (repo_data activity_data : Dict.t) (w : World)
  : outcome unit * World :=
  let repo_top := top_n_with_other repo_data in
  let act_top := top_n_with_other activity_data in
  match pie_paths repo_top 280 160 88 56 REPO_COLORS with
  | Raise e => (Raise e, w)
  | Ret repo_paths =>
      match pie_paths act_top 680 160 88 56 ACTIVITY_COLORS with
      | Raise e => (Raise e, w)
      | Ret act_paths =>
          file_write OUTPUT_FILE
            {| svg_repo_paths := repo_paths; svg_act_paths := act_paths |} w
      end
  end.

Definition main (fuel : nat) (w : World) : option (outcome unit * World) :=
  match fetch_repositories fuel w with
  | None => None
  | Some (Raise e, w1) => Some (Raise e, w1)
  | Some (Ret repos, w1) =>
      let repo_data := languages_by_repo_count repos in
      match commit_weighted_languages repos w1 with
      | (Raise e, w2) => Some (Raise e, w2)
      | (Ret activity_data, w2) =>
          Some (render_combined repo_data activity_data w2)
      end
  end.

(** [os.environ.get("GITHUB_TOKEN")] *)
Definition TOKEN : option string := getenv "GITHUB_TOKEN".

(** [os.environ.get("GH_USERNAME",
     os.environ.get("GITHUB_REPOSITORY", "").split("/")[0])] *)
Definition USERNAME : string :=
  match getenv "GH_USERNAME" with
  | Some u => u
  | None =>
      hd EmptyString
         (Str.split "/"
            (match getenv "GITHUB_REPOSITORY" with
             | Some slug => slug
             | None => EmptyString
             end))
  end.

Definition is_empty (s : string) : bool := String.eqb s EmptyString.

(** The script from its first line: the two checks of the environment,
    then [main]. *)
Definition script (fuel : nat) (w : World) : option (outcome unit * World) :=
  match TOKEN with
  | None => Some (Raise (SystemExit 1), w)
  | Some token =>
      if is_empty token then Some (Raise (SystemExit 1), w)
      else if is_empty USERNAME then Some (Raise (SystemExit 1), w)
      else main fuel w
  end.

End Run.

(** ** Scripted environments *)

(** Scripted environments.  In all of them the listing answers with one
    page of repositories and the state counts the calls made.  With
    [failing_get] every commit request is answered with status 404; with
    [unreachable_get] the commit request itself raises; with [huge_get]
    every commit request is answered with status 200 and a last-page link
    whose page number is out of any real range. *)
Module Scripted.

Definition World : Type := nat.

Definition getenv (var : string) : option string :=
  if String.eqb var "GITHUB_TOKEN" then Some "ghp_token"
  else if String.eqb var "GH_USERNAME" then Some "iuliavisan"
  else None.

Definition repos : list repo :=
  [ {| name := "iuliavisan"; primaryLanguage := Some (Some "Python");
       languages := [Some "Python"] |};
    {| name := "notes"; primaryLanguage := None; languages := [] |};
    {| name := "site"; primaryLanguage := None;
       languages := [Some "HTML"; Some "CSS"] |} ].

Definition http_post (cursor : option string) (w : World) : post_result * World :=
  (PostResponse
     {| post_status_code := 200;
        post_json :=
          Ret {| errors := false;
                 repositories :=
                   Ret {| pageInfo := {| hasNextPage := false; endCursor := None |};
                          nodes := repos |} |} |},
   S w).

Definition file_write (path : string) (content : svg) (w : World)
  : outcome unit * World := (Ret tt, S w).

Definition not_found : response :=
  {| status_code := 404; link_header := None; json_body := Some (JObject []) |}.

Definition failing_get (repo_name : string) (w : World) : get_result * World :=
  (GetResponse not_found, S w).

Definition unreachable_get (repo_name : string) (w : World) : get_result * World :=
  (GetRaised, S w).

(** A successful answer whose last-page link names the page [page]. *)
Definition paged (page : string) : response :=
  {| status_code := 200;
     link_header :=
       Some ("<https://api.github.com/repositories/1300192/commits?per_page=1&page="
             ++ page ++ ">; rel=" ++ quoted "last")%string;
     json_body := Some (JArray [JObject []]) |}.

Fixpoint repeated (c : ascii) (n : nat) : string :=
  match n with
  | O => EmptyString
  | S n' => String c (repeated c n')
  end.

(** Every commit request is answered with status 200 and a last-page
    link: the page [10^310] for the repository [site], the page
    [-(10^310 - 1)] for any other. *)
Definition huge_get (repo_name : string) (w : World) : get_result * World :=
  (GetResponse
     (paged (if String.eqb repo_name "site"
             then String "1" (repeated "0" 310)
             else String "-" (repeated "9" 310))),
   S w).

End Scripted.

(** ** The legend *)

Definition TEXT_COLOR : string := "#e5e7eb".

(** [str(z)] *)
Definition str_int (z : Z) : string := NilZero.string_of_int (Z.to_int z).

Definition newline : string := String (ascii_of_nat 10) EmptyString.

(** The separator between label and percentage, as the bytes the source
    file has between the two spaces and [f.write] puts in the output. *)
Definition legend_dash : string :=
  Eval cbv in
    fold_right (fun n s => String (ascii_of_nat n) s) EmptyString
               [195; 162; 226; 130; 172; 226; 128; 157]%nat.

(** The two lines a turn of the loop of [legend_svg] appends, for the
    row at height [yy].  Strings here are the UTF-8 text of the file. *)
Definition legend_rect (x yy : Z) (color : string) : string :=
  ("<rect x=" ++ quoted (str_int x) ++ " y=" ++ quoted (str_int (yy - 12))
   ++ " width=" ++ quoted "12" ++ " height=" ++ quoted "12"
   ++ " fill=" ++ quoted color ++ " rx=" ++ quoted "2" ++ "/>" ++ newline)%string.

Definition legend_text (x yy : Z) (label : string) (pct : Z) : string :=
  ("<text x=" ++ quoted (str_int (x + 18)) ++ " y=" ++ quoted (str_int (yy - 2))
   ++ " font-size=" ++ quoted "12" ++ " fill=" ++ quoted TEXT_COLOR ++ ">"
   ++ label ++ " " ++ legend_dash ++ " " ++ str_int pct ++ "%</text>"
   ++ newline)%string.

(** The loop of [legend_svg] from index [i] on, [out] being the text
    collected so far. *)
Fixpoint legend_loop {F : Type} (x y : Z) (i : nat) (out : string)
         (items : list (slice F)) : string :=
  match items with
  | [] => out
  | item :: rest =>
      let yy := y + Z.of_nat i * 20 in
      let out := (out ++ legend_rect x yy (slice_color item))%string in
      let out :=
        (out ++ legend_text x yy (slice_label item) (slice_pct item))%string in
      legend_loop x y (S i) out rest
  end.

Definition legend_svg {F : Type} (x y : Z) (items : list (slice F)) : string :=
  legend_loop x y O EmptyString items.

(** ** Readings of strings, repositories and listings *)

(** A string of decimal digits and the number it writes. *)
Fixpoint all_digits (s : string) : bool :=
  match s with
  | EmptyString => true
  | String c s' =>
      match Str.digit_of c with
      | Some _ => all_digits s'
      | None => false
      end
  end.

Fixpoint decimal_value (acc : Z) (s : string) : Z :=
  match s with
  | EmptyString => acc
  | String c s' =>
      match Str.digit_of c with
      | Some d => decimal_value (10 * acc + d) s'
      | None => acc
      end
  end.

(** The character [c] occurs in [s]. *)
Fixpoint has_char (c : ascii) (s : string) : bool :=
  match s with
  | EmptyString => false
  | String b s' => Ascii.eqb c b || has_char c s'
  end.

(** The repository is counted under the language [lang]. *)
Definition counted_as (lang : string) (r : repo) : bool :=
  match counted_language r with
  | Some l => String.eqb l lang
  | None => false
  end.

Definition is_counted (r : repo) : bool :=
  match counted_language r with
  | Some _ => true
  | None => false
  end.

(** A server that answers the requests of the listing from a script, and
    keeps the cursors it was sent.  A request beyond the script raises. *)
Module Paged.

Record state : Type := {
  pending : list post_result;
  cursors : list (option string)
}.

Definition http_post (cursor : option string) (st : state) : post_result * state :=
  match pending st with
  | [] => (PostRaised, {| pending := []; cursors := cursors st ++ [cursor] |})
  | answer :: rest =>
      (answer, {| pending := rest; cursors := cursors st ++ [cursor] |})
  end.

(** A successful answer carrying the page [p]. *)
Definition page (p : repositories_page) : post_result :=
  PostResponse
    {| post_status_code := 200;
       post_json := Ret {| errors := false; repositories := Ret p |} |}.

(** An answer the listing treats as fatal: a status other than 200, or a
    body with protocol errors. *)
Definition fatal (answer : post_result) : Prop :=
  exists resp,
    answer = PostResponse resp /\
    (post_status_code resp <> 200 \/
     exists data, post_status_code resp = 200 /\ post_json resp = Ret data /\
                  errors data = true).

End Paged.

(** * Properties *)

(** ** Results *)

Lemma try_except_returns {A : Type} (m : outcome A) (d : A) :
  (forall c, m <> Raise (SystemExit c)) -> exists a, try_except m d = Ret a.
Proof.
  intros Hexit. destruct m as [a | e]; simpl.
  - now exists a.
  - destruct e; try (now exists d). now destruct (Hexit code).
Qed.


(** ** The stable descending sort *)

Lemma sum_values_app (l1 l2 : list (string * Z)) :
  sum_values (l1 ++ l2) = sum_values l1 + sum_values l2.
Proof.
  induction l1 as [| kv l1 IH]; simpl; [reflexivity |].
  fold (sum_values (l1 ++ l2)). fold (sum_values l1). lia.
Qed.

Lemma sum_values_cons (kv : string * Z) (l : list (string * Z)) :
  sum_values (kv :: l) = snd kv + sum_values l.
Proof. reflexivity. Qed.

Lemma sum_values_firstn_skipn (n : nat) (l : list (string * Z)) :
  sum_values l = sum_values (firstn n l) + sum_values (skipn n l).
Proof. now rewrite <- sum_values_app, firstn_skipn. Qed.

Lemma insert_desc_perm (x : string * Z) (l : list (string * Z)) :
  Permutation (insert_desc x l) (x :: l).
Proof.
  induction l as [| y l IH]; simpl; [apply Permutation_refl |].
  destruct (snd y <=? snd x); [apply Permutation_refl |].
  eapply perm_trans; [apply perm_skip, IH | apply perm_swap].
Qed.

Lemma sorted_desc_perm (l : list (string * Z)) : Permutation (sorted_desc l) l.
Proof.
  induction l as [| x l IH]; simpl; [constructor |].
  eapply perm_trans; [apply insert_desc_perm | now apply perm_skip].
Qed.

Lemma sum_values_perm (l1 l2 : list (string * Z)) :
  Permutation l1 l2 -> sum_values l1 = sum_values l2.
Proof.
  induction 1; rewrite ?sum_values_cons in *; lia.
Qed.

Lemma sum_values_sorted_desc (l : list (string * Z)) :
  sum_values (sorted_desc l) = sum_values l.
Proof. apply sum_values_perm, sorted_desc_perm. Qed.

Lemma insert_desc_sorted (x : string * Z) (l : list (string * Z)) :
  StronglySorted desc l -> StronglySorted desc (insert_desc x l).
Proof.
  induction 1 as [| y l Hl IH Hy]; simpl.
  - repeat constructor.
  - destruct (snd y <=? snd x) eqn:E.
    + apply Z.leb_le in E. constructor; [now constructor |].
      constructor; [exact E |].
      eapply Forall_impl; [| exact Hy]. unfold desc. intros; lia.
    + apply Z.leb_gt in E. constructor; [exact IH |].
      eapply Permutation_Forall;
        [apply Permutation_sym, insert_desc_perm |].
      constructor; [unfold desc; lia | exact Hy].
Qed.

Lemma sorted_desc_sorted (l : list (string * Z)) :
  StronglySorted desc (sorted_desc l).
Proof.
  induction l as [| x l IH]; simpl; [constructor | now apply insert_desc_sorted].
Qed.

(** Entries of equal value keep their input order. *)
Lemma insert_desc_stable (v : Z) (x : string * Z) (l : list (string * Z)) :
  filter (has_value v) (insert_desc x l) = filter (has_value v) (x :: l).
Proof.
  induction l as [| y l IH]; [reflexivity |].
  cbn [insert_desc]. destruct (snd y <=? snd x) eqn:E; [reflexivity |].
  apply Z.leb_gt in E. cbn [filter] in *. rewrite IH. unfold has_value.
  destruct (snd x =? v) eqn:Ex; [| reflexivity].
  apply Z.eqb_eq in Ex.
  destruct (snd y =? v) eqn:Ey; [apply Z.eqb_eq in Ey; lia | reflexivity].
Qed.

Lemma sorted_desc_stable (v : Z) (l : list (string * Z)) :
  filter (has_value v) (sorted_desc l) = filter (has_value v) l.
Proof.
  induction l as [| x l IH]; [reflexivity |].
  cbn [sorted_desc fold_right]. fold (sorted_desc l).
  rewrite insert_desc_stable. cbn [filter]. now rewrite IH.
Qed.

(** Sorting a list that is in descending order returns it. *)
Lemma sorted_desc_fixed (l : list (string * Z)) :
  StronglySorted desc l -> sorted_desc l = l.
Proof.
  induction 1 as [| x l Hl IH Hx]; [reflexivity |].
  cbn [sorted_desc fold_right]. fold (sorted_desc l). rewrite IH.
  destruct l as [| y l]; [reflexivity |]. cbn [insert_desc].
  inversion Hx as [| ? ? Hxy _]; subst. unfold desc in Hxy.
  apply Z.leb_le in Hxy. now rewrite Hxy.
Qed.

Lemma firstn_sorted (n : nat) (l : list (string * Z)) :
  StronglySorted desc l -> StronglySorted desc (firstn n l).
Proof.
  intros Hl. revert n.
  induction Hl as [| x l Hl IH Hx]; intros [| n]; simpl; try constructor.
  - apply IH.
  - rewrite Forall_forall in *. intros y Hy. apply Hx.
    rewrite <- (firstn_skipn n l). apply in_or_app. now left.
Qed.

Lemma filter_firstn {A : Type} (p : A -> bool) (n : nat) (l : list A) :
  exists m, filter p (firstn n l) = firstn m (filter p l).
Proof.
  revert n. induction l as [| x l IH]; intros [| n]; simpl;
    try (now exists O).
  destruct (IH n) as [m Hm]. rewrite Hm.
  destruct (p x); [now exists (S m) | now exists m].
Qed.

Example top_n_spec_example :
  top_n_with_other
    [("Go", 12); ("Rust", 7); ("Python", 3); ("TS", 2); ("C", 1); ("Ruby", 1)]
  = [("Go", 12); ("Rust", 7); ("Python", 3); ("TS", 2); ("C", 1); ("Other", 1)].
Proof. reflexivity. Qed.

Example sorted_desc_keeps_ties_in_order :
  sorted_desc [("a", 1); ("b", 3); ("c", 1); ("d", 3)]
  = [("b", 3); ("d", 3); ("a", 1); ("c", 1)].
Proof. reflexivity. Qed.

Example top_n_negative_remainder :
  top_n_with_other
    [("a", 9); ("b", 8); ("c", 7); ("d", 6); ("e", 5); ("f", 2); ("g", -3)]
  = [("a", 9); ("b", 8); ("c", 7); ("d", 6); ("e", 5)].
Proof. reflexivity. Qed.

(** ** Labels *)

Lemma in_keys (k : string) (v : Z) (d : Dict.t) :
  In (k, v) d -> In k (Dict.keys d).
Proof. intros Hin. apply (in_map fst) in Hin. exact Hin. Qed.

Lemma top_in_data (data : Dict.t) (kv : string * Z) :
  In kv (firstn TOP_N (sorted_desc data)) -> In kv data.
Proof.
  intros Hin.
  apply (Permutation_in _ (sorted_desc_perm data)).
  rewrite <- (firstn_skipn TOP_N (sorted_desc data)).
  apply in_or_app. now left.
Qed.

Lemma top_no_other (data : Dict.t) :
  ~ In "Other" (Dict.keys data) ->
  forall kv, In kv (firstn TOP_N (sorted_desc data)) -> is_other kv = false.
Proof.
  intros Hno [k v] Hin. unfold is_other. simpl.
  destruct (String.eqb k "Other") eqn:E; [| reflexivity].
  apply String.eqb_eq in E. subst k.
  destruct Hno. eapply in_keys, top_in_data, Hin.
Qed.

Lemma filter_all {A : Type} (p : A -> bool) (l : list A) :
  (forall x, In x l -> p x = true) -> filter p l = l.
Proof.
  induction l as [| x l IH]; intros Hp; simpl; [reflexivity |].
  rewrite (Hp x (or_introl eq_refl)). f_equal. apply IH.
  intros y Hy. apply Hp. now right.
Qed.

Lemma filter_none {A : Type} (p : A -> bool) (l : list A) :
  (forall x, In x l -> p x = false) -> filter p l = [].
Proof.
  induction l as [| x l IH]; intros Hp; simpl; [reflexivity |].
  rewrite (Hp x (or_introl eq_refl)). apply IH.
  intros y Hy. apply Hp. now right.
Qed.

(** The shape of the output: the first N entries of the sorted items, then
    the synthetic entry or nothing. *)
Lemma top_n_with_other_shape (data : Dict.t) :
  let top := firstn TOP_N (sorted_desc data) in
  let other := sum_values (remainder data) in
  (0 < other /\ top_n_with_other data = top ++ [("Other", other)]) \/
  (other <= 0 /\ top_n_with_other data = top).
Proof.
  unfold top_n_with_other, remainder. cbv zeta.
  destruct (0 <? sum_values (skipn TOP_N (sorted_desc data))) eqn:E.
  - left. apply Z.ltb_lt in E. now split.
  - right. apply Z.ltb_ge in E. now split.
Qed.

Lemma sum_values_nonneg (l : list (string * Z)) :
  (forall kv, In kv l -> 0 <= snd kv) -> 0 <= sum_values l.
Proof.
  induction l as [| kv l IH]; intros Hl; [simpl; lia |].
  rewrite sum_values_cons.
  assert (0 <= snd kv) by (apply Hl; now left).
  assert (0 <= sum_values l) by (apply IH; intros; apply Hl; now right).
  lia.
Qed.

Lemma remainder_in_data (data : Dict.t) (kv : string * Z) :
  In kv (remainder data) -> In kv data.
Proof.
  intros Hin. apply (Permutation_in _ (sorted_desc_perm data)).
  rewrite <- (firstn_skipn TOP_N (sorted_desc data)).
  apply in_or_app. now right.
Qed.

Lemma top_length (data : Dict.t) :
  (List.length (firstn TOP_N (sorted_desc data)) <= TOP_N)%nat.
Proof. apply firstn_le_length. Qed.

(** ** Top-N selection *)

(** C1, as the code has it: for a tally in which no language is itself
    named "Other", the output of [top_n_with_other] has at most N+1
    entries; an entry labelled "Other" is present exactly when the values
    beyond rank N sum to more than zero; its value is that sum; and when
    the sum is zero there is no such entry. *)
Theorem top_n_with_other_other_entry (data : Dict.t) :
  ~ In "Other" (Dict.keys data) ->
  let out := top_n_with_other data in
  let rest := sum_values (remainder data) in
  (List.length out <= TOP_N + 1)%nat /\
  ((exists v, In ("Other", v) out) <-> 0 < rest) /\
  (forall v, In ("Other", v) out -> v = rest) /\
  (rest = 0 -> forall v, ~ In ("Other", v) out).
Proof.
  intros Hno out rest.
  assert (Htop : forall v, ~ In ("Other", v) (firstn TOP_N (sorted_desc data))).
  { intros v Hin. apply (top_no_other data Hno) in Hin. discriminate Hin. }
  pose proof (top_length data) as Hlen.
  destruct (top_n_with_other_shape data) as [[Hpos Hout] | [Hle Hout]];
    fold rest in Hpos || fold rest in Hle; subst out; rewrite Hout.
  - repeat split.
    + rewrite length_app. cbn [List.length]. lia.
    + intros _. exact Hpos.
    + intros _. exists rest. apply in_or_app. right. now left.
    + intros v Hin. apply in_app_or in Hin as [Hin | [Heq | []]].
      * now destruct (Htop v).
      * now inversion Heq.
    + intros Hz. lia.
  - repeat split.
    + lia.
    + intros [v Hin]. now destruct (Htop v).
    + intros Hpos. lia.
    + intros v Hin. now destruct (Htop v).
    + intros _ v Hin. now destruct (Htop v).
Qed.

Lemma top_n_with_other_other_entry_witness :
  let data := [("Go", 12); ("Rust", 7); ("Python", 3); ("TS", 2); ("C", 1); ("Ruby", 1)] in
  ~ In "Other" (Dict.keys data) /\
  let out := top_n_with_other data in
  let rest := sum_values (remainder data) in
  (List.length out <= TOP_N + 1)%nat /\
  ((exists v, In ("Other", v) out) <-> 0 < rest) /\
  (forall v, In ("Other", v) out -> v = rest) /\
  (rest = 0 -> forall v, ~ In ("Other", v) out).
Proof.
  assert (Hno : ~ In "Other"
                  (Dict.keys [("Go", 12); ("Rust", 7); ("Python", 3);
                              ("TS", 2); ("C", 1); ("Ruby", 1)])).
  { simpl. intros H.
    repeat (destruct H as [H | H]; [discriminate H |]). exact H. }
  split; [exact Hno |].
  exact (top_n_with_other_other_entry _ Hno).
Defined.

(** A tally with a language named "Other": nothing lies beyond rank N,
    the remainder sums to zero, and the output has an entry labelled
    "Other" all the same. *)
Lemma top_n_with_other_language_named_other :
  let data := [("Python", 4); ("Other", 3)] in
  sum_values (remainder data) = 0 /\
  In ("Other", 3) (top_n_with_other data) /\
  ~ ((exists v, In ("Other", v) (top_n_with_other data)) <-> 0 < sum_values (remainder data)).
Proof.
  cbv zeta. split; [reflexivity |]. split; [simpl; tauto |].
  intros [Hpresent _].
  assert (H : 0 < sum_values (remainder [("Python", 4); ("Other", 3)])).
  { apply Hpresent. exists 3. simpl. tauto. }
  vm_compute in H. discriminate H.
Qed.

(** C5, as the code has it: for a tally in which no language is itself
    named "Other" (non-empty or not), the output is in its final order.
    The language entries are in descending order of value, entries of equal
    value in the order the tally has them, an "Other" entry is the last
    one, and sorting the output again by that rule returns it unchanged. *)
Theorem top_n_with_other_final_order (data : Dict.t) :
  ~ In "Other" (Dict.keys data) ->
  let out := top_n_with_other data in
  let langs := filter (fun kv => negb (is_other kv)) out in
  StronglySorted desc langs /\
  (forall v, exists n,
      filter (has_value v) langs = firstn n (filter (has_value v) data)) /\
  (forall v, In ("Other", v) out ->
             exists top, out = top ++ [("Other", v)] /\
                         forall kv, In kv top -> is_other kv = false) /\
  resort out = out.
Proof.
  intros Hno out langs.
  pose proof (top_no_other data Hno) as Htop.
  set (top := firstn TOP_N (sorted_desc data)) in *.
  assert (Hsorted : StronglySorted desc top)
    by apply firstn_sorted, sorted_desc_sorted.
  assert (Hkeep : filter (fun kv => negb (is_other kv)) top = top).
  { apply filter_all. intros kv Hin. now rewrite (Htop kv Hin). }
  assert (Hdrop : filter is_other top = []) by now apply filter_none.
  assert (Hstable : forall v, exists n,
             filter (has_value v) top = firstn n (filter (has_value v) data)).
  { intros v. destruct (filter_firstn (has_value v) TOP_N (sorted_desc data))
      as [n Hn]. exists n. subst top. now rewrite Hn, sorted_desc_stable. }
  assert (Hlangs : langs = top).
  { subst langs out.
    destruct (top_n_with_other_shape data) as [[_ Hout] | [_ Hout]];
      rewrite Hout; fold top.
    - rewrite filter_app, Hkeep. simpl. apply app_nil_r.
    - exact Hkeep. }
  repeat split.
  - now rewrite Hlangs.
  - intros v. rewrite Hlangs. apply Hstable.
  - intros v Hin. subst out.
    destruct (top_n_with_other_shape data) as [[_ Hout] | [_ Hout]];
      rewrite Hout in *; fold top in Hin |- *.
    + apply in_app_or in Hin as [Hin | [Heq | []]].
      * apply Htop in Hin. discriminate Hin.
      * inversion Heq; subst. now exists top.
    + apply Htop in Hin. discriminate Hin.
  - unfold resort. fold langs. rewrite Hlangs, (sorted_desc_fixed top Hsorted).
    subst out.
    destruct (top_n_with_other_shape data) as [[_ Hout] | [_ Hout]];
      rewrite Hout; fold top.
    + now rewrite filter_app, Hdrop.
    + now rewrite Hdrop, app_nil_r.
Qed.

Lemma top_n_with_other_final_order_witness :
  let data := [("Go", 12); ("C", 1); ("Rust", 7); ("Ruby", 1); ("TS", 2); ("Python", 3)] in
  ~ In "Other" (Dict.keys data) /\
  let out := top_n_with_other data in
  let langs := filter (fun kv => negb (is_other kv)) out in
  StronglySorted desc langs /\
  (forall v, exists n,
      filter (has_value v) langs = firstn n (filter (has_value v) data)) /\
  (forall v, In ("Other", v) out ->
             exists top, out = top ++ [("Other", v)] /\
                         forall kv, In kv top -> is_other kv = false) /\
  resort out = out.
Proof.
  assert (Hno : ~ In "Other"
                  (Dict.keys [("Go", 12); ("C", 1); ("Rust", 7);
                              ("Ruby", 1); ("TS", 2); ("Python", 3)])).
  { simpl. intros H.
    repeat (destruct H as [H | H]; [discriminate H |]). exact H. }
  split; [exact Hno |].
  exact (top_n_with_other_final_order _ Hno).
Defined.

(** A tally whose largest entry is a language named "Other": the output
    keeps it first, and sorting by the rule moves it to the end. *)
Lemma top_n_with_other_resort_moves_language :
  let data := [("Other", 7); ("Go", 5)] in
  top_n_with_other data = [("Other", 7); ("Go", 5)] /\
  resort (top_n_with_other data) = [("Go", 5); ("Other", 7)] /\
  resort (top_n_with_other data) <> top_n_with_other data.
Proof.
  cbv zeta. split; [reflexivity |]. split; [reflexivity |].
  vm_compute. discriminate.
Qed.

(** C10: for a tally whose values are all non-negative, the values of the
    output of [top_n_with_other], the "Other" entry included, sum to the
    sum of the values of the tally. *)
Theorem top_n_with_other_total (data : Dict.t) :
  (forall kv, In kv data -> 0 <= snd kv) ->
  sum_values (top_n_with_other data) = sum_values data.
Proof.
  intros Hnonneg.
  assert (Hrest : 0 <= sum_values (remainder data)).
  { apply sum_values_nonneg. intros kv Hin.
    apply Hnonneg. now apply remainder_in_data. }
  rewrite <- (sum_values_sorted_desc data).
  rewrite (sum_values_firstn_skipn TOP_N (sorted_desc data)).
  fold (remainder data).
  destruct (top_n_with_other_shape data) as [[_ Hout] | [Hle Hout]];
    rewrite Hout.
  - rewrite sum_values_app. simpl. lia.
  - lia.
Qed.

Lemma top_n_with_other_total_witness :
  let data := [("Go", 12); ("Rust", 7); ("Python", 3); ("TS", 2); ("C", 1); ("Ruby", 1)] in
  (forall kv, In kv data -> 0 <= snd kv) /\
  sum_values (top_n_with_other data) = sum_values data /\
  sum_values data = 26.
Proof.
  assert (Hnonneg : forall kv,
             In kv [("Go", 12); ("Rust", 7); ("Python", 3);
                    ("TS", 2); ("C", 1); ("Ruby", 1)] -> 0 <= snd kv).
  { intros kv H. simpl in H.
    repeat (destruct H as [H | H]; [subst kv; simpl; lia |]). destruct H. }
  split; [exact Hnonneg |].
  split; [exact (top_n_with_other_total _ Hnonneg) | reflexivity].
Defined.

(** ** Repositories without a language *)

Lemma fold_left_count_step_app (before after : list repo) (counts : Dict.t) :
  fold_left count_step (before ++ after) counts
  = fold_left count_step after (fold_left count_step before counts).
Proof. apply fold_left_app. Qed.

Section Aggregation.

Variable World : Type.
Variable http_get : string -> World -> get_result * World.

Lemma commit_weighted_from_app (before after : list repo) (r : repo) :
  counted_language r = None ->
  forall weighted w,
    commit_weighted_from World http_get weighted (before ++ r :: after) w
    = commit_weighted_from World http_get weighted (before ++ after) w.
Proof.
  intros Hr.
  induction before as [| b before IH]; intros weighted w; simpl.
  - now rewrite Hr.
  - destruct (counted_language b); [| apply IH].
    destruct (fetch_commit_count World http_get (name b) w) as [[commits | e] w1];
      [apply IH | reflexivity].
Qed.

(** C2: a repository whose primary language is absent, or present
    without a name, and whose language breakdown is empty has no
    language; a turn of either loop on it leaves the tally as it was, and
    both tallies are what they are without it in the list: no value
    changes and no key is created.  The commit-weighted tally also makes
    no request for it. *)
Theorem repo_without_language_not_counted (r : repo) :
  primaryLanguage r = None \/ primaryLanguage r = Some None
  \/ primaryLanguage r = Some (Some EmptyString) ->
  languages r = [] ->
  language_for_repo r = None /\
  (forall counts, count_step counts r = counts) /\
  (forall before after,
      languages_by_repo_count (before ++ r :: after)
      = languages_by_repo_count (before ++ after)) /\
  (forall weighted rest w,
      commit_weighted_from World http_get weighted (r :: rest) w
      = commit_weighted_from World http_get weighted rest w) /\
  (forall before after w,
      commit_weighted_languages World http_get (before ++ r :: after) w
      = commit_weighted_languages World http_get (before ++ after) w).
Proof.
  intros Hprimary Hlangs.
  assert (Hlang : language_for_repo r = None).
  { unfold language_for_repo. rewrite Hlangs.
    destruct Hprimary as [-> | [-> | ->]]; reflexivity. }
  assert (Hcounted : counted_language r = None).
  { unfold counted_language. now rewrite Hlang. }
  assert (Hstep : forall counts, count_step counts r = counts).
  { intros counts. unfold count_step. now rewrite Hcounted. }
  repeat split.
  - exact Hlang.
  - exact Hstep.
  - intros before after. unfold languages_by_repo_count.
    rewrite !fold_left_count_step_app. simpl. now rewrite Hstep.
  - intros weighted rest w. simpl.
    now rewrite Hcounted.
  - intros before after w. unfold commit_weighted_languages.
    now apply commit_weighted_from_app.
Qed.

End Aggregation.

Lemma repo_without_language_not_counted_witness :
  let r := {| name := "notes"; primaryLanguage := None; languages := [] |} in
  (primaryLanguage r = None \/ primaryLanguage r = Some None
   \/ primaryLanguage r = Some (Some EmptyString)) /\
  languages r = [] /\
  languages_by_repo_count Scripted.repos = [("Python", 1); ("HTML", 1)] /\
  language_for_repo r = None /\
  (forall counts, count_step counts r = counts) /\
  (forall before after,
      languages_by_repo_count (before ++ r :: after)
      = languages_by_repo_count (before ++ after)) /\
  (forall weighted rest w,
      commit_weighted_from Scripted.World Scripted.failing_get weighted (r :: rest) w
      = commit_weighted_from Scripted.World Scripted.failing_get weighted rest w) /\
  (forall before after w,
      commit_weighted_languages Scripted.World Scripted.failing_get
        (before ++ r :: after) w
      = commit_weighted_languages Scripted.World Scripted.failing_get
          (before ++ after) w).
Proof.
  split; [left; reflexivity |]. split; [reflexivity |]. split; [reflexivity |].
  exact (repo_without_language_not_counted
           Scripted.World Scripted.failing_get
           {| name := "notes"; primaryLanguage := None; languages := [] |}
           (or_introl eq_refl) eq_refl).
Defined.

(** ** The commit count of a response *)

Lemma unsigned_int_raises (s : string) (e : exn) :
  Str.unsigned_int s = Raise e -> e = ValueError.
Proof.
  unfold Str.unsigned_int.
  repeat match goal with
         | |- context [match ?x with _ => _ end] => destruct x
         end; congruence.
Qed.

Lemma int_raises (s : string) (e : exn) : Str.int s = Raise e -> e = ValueError.
Proof.
  unfold Str.int.
  assert (Hneg : forall t, (v <- Str.unsigned_int t ;; Ret (- v)) = Raise e ->
                           e = ValueError).
  { intros t. destruct (Str.unsigned_int t) eqn:E; simpl; [discriminate |].
    intros [= <-]. now apply unsigned_int_raises in E. }
  destruct (Str.lstrip s) as [| c t]; [apply unsigned_int_raises |].
  destruct c as [[] [] [] [] [] [] [] []];
    first [apply unsigned_int_raises | apply Hneg].
Qed.

Lemma page_number_raises (part : string) (e : exn) :
  page_number part = Raise e -> e = ValueError.
Proof. apply int_raises. Qed.

Lemma py_len_raises (j : json) (e : exn) : py_len j = Raise e -> e = TypeError.
Proof. destruct j; simpl; congruence. Qed.

Lemma last_page_found (parts : list string) (part : string) :
  find (Str.contains rel_last) parts = Some part ->
  last_page parts = try_except (page_number part) 1.
Proof.
  induction parts as [| p parts IH]; simpl; [discriminate |].
  destruct (Str.contains rel_last p); [now intros [= ->] | exact IH].
Qed.

Lemma last_page_not_found (parts : list string) :
  find (Str.contains rel_last) parts = None -> last_page parts = Ret 1.
Proof.
  induction parts as [| p parts IH]; simpl; [reflexivity |].
  destruct (Str.contains rel_last p); [discriminate | exact IH].
Qed.

Lemma last_page_returns (parts : list string) : exists n, last_page parts = Ret n.
Proof.
  destruct (find (Str.contains rel_last) parts) as [part |] eqn:E.
  - rewrite (last_page_found _ _ E). apply try_except_returns.
    intros c Hc. apply page_number_raises in Hc. discriminate Hc.
  - exists 1. now apply last_page_not_found.
Qed.

(** Once the HTTP call has returned, a count comes back whatever the
    response is. *)
Lemma commit_count_of_response_returns (r : response) :
  exists n, commit_count_of_response r = Ret n.
Proof.
  unfold commit_count_of_response.
  destruct (negb (status_code r =? 200)); [now exists 1 |].
  destruct (link_header r) as [link |]; [apply last_page_returns |].
  apply try_except_returns. intros c.
  destruct (json_body r) as [j |]; [| discriminate].
  intros Hc. apply py_len_raises in Hc. discriminate Hc.
Qed.

Lemma commit_count_of_failure (r : response) :
  status_code r <> 200 -> commit_count_of_response r = Ret 1.
Proof.
  intros Hs. unfold commit_count_of_response.
  apply Z.eqb_neq in Hs. now rewrite Hs.
Qed.

Lemma commit_count_of_link (r : response) (link : string) :
  status_code r = 200 -> link_header r = Some link ->
  commit_count_of_response r = last_page (Str.split "," link).
Proof.
  intros Hs Hl. unfold commit_count_of_response.
  apply Z.eqb_eq in Hs. now rewrite Hs, Hl.
Qed.

Example commit_count_github :
  commit_count_of_response
    {| status_code := 200; link_header := Some github_link;
       json_body := Some (JArray [JObject []]) |} = Ret 37.
Proof. reflexivity. Qed.

Example commit_count_small_repo :
  commit_count_of_response
    {| status_code := 200; link_header := None;
       json_body := Some (JArray [JObject []]) |} = Ret 1.
Proof. reflexivity. Qed.


(** ** Failures of the commit endpoint *)

Section RunFacts.

Variable World : Type.
Variable getenv : string -> option string.
Variable http_post : option string -> World -> post_result * World.
Variable http_get : string -> World -> get_result * World.
Variable file_write : string -> svg -> World -> outcome unit * World.

Lemma fetch_commit_count_of_response (repo_name : string) (w w1 : World)
      (r : response) :
  http_get repo_name w = (GetResponse r, w1) ->
  fetch_commit_count World http_get repo_name w = (commit_count_of_response r, w1).
Proof. intros Hget. unfold fetch_commit_count. now rewrite Hget. Qed.

Lemma fetch_commit_count_raises (repo_name : string) (w w1 : World) :
  http_get repo_name w = (GetRaised, w1) ->
  fetch_commit_count World http_get repo_name w = (Raise RequestException, w1).
Proof. intros Hget. unfold fetch_commit_count. now rewrite Hget. Qed.

(** When every commit request is answered, the commit-weighted tally is
    computed to the end. *)
Lemma commit_weighted_from_returns :
  (forall repo_name w, exists r w1, http_get repo_name w = (GetResponse r, w1)) ->
  forall repos weighted w,
  exists activity w2,
    commit_weighted_from World http_get weighted repos w = (Ret activity, w2).
Proof.
  intros Hanswered repos.
  induction repos as [| r repos IH]; intros weighted w; simpl.
  - now exists weighted, w.
  - destruct (counted_language r) as [lang |]; [| apply IH].
    destruct (Hanswered (name r) w) as (resp & w1 & Hget).
    rewrite (fetch_commit_count_of_response _ _ _ _ Hget).
    destruct (commit_count_of_response_returns resp) as [n ->].
    apply IH.
Qed.

End RunFacts.


(** ** Pie slices *)

Lemma bind_ret {A B : Type} (m : outcome A) (k : A -> outcome B) (b : B) :
  bind m k = Ret b -> exists a, m = Ret a /\ k a = Ret b.
Proof. destruct m as [a | e]; simpl; [now exists a | discriminate]. Qed.


Section PieFacts.

Context {F : Type} `{PyFloat F}.

Variables (total cx cy r_outer r_inner : Z) (colors : list string).

Lemma pie_loop_cons (i : nat) (angle : F) (label : string) (value : Z)
      (rest : list (string * Z)) (slices : list (slice F)) :
  pie_loop total cx cy r_outer r_inner colors i angle ((label, value) :: rest)
  = Ret slices ->
  exists s result,
    slices = s :: result /\
    slice_of total colors i angle label value s /\
    pie_loop total cx cy r_outer r_inner colors (S i) (arc_a2 (slice_d s)) rest
    = Ret result.
Proof.
  cbn [pie_loop]. intros Hloop.
  apply bind_ret in Hloop as (frac & Hfrac & Hloop).
  apply bind_ret in Hloop as (color & Hcolor & Hloop).
  apply bind_ret in Hloop as (u & Hpoints & Hloop).
  apply bind_ret in Hloop as (pct & Hpct & Hloop).
  apply bind_ret in Hloop as (result & Hrest & Hloop).
  injection Hloop as <-.
  eexists. exists result. split; [reflexivity |]. split; [| exact Hrest].
  exists frac. cbn. repeat split; assumption.
Qed.

Lemma pie_loop_length (data : list (string * Z)) :
  forall i angle slices,
    pie_loop total cx cy r_outer r_inner colors i angle data = Ret slices ->
    List.length slices = List.length data.
Proof.
  induction data as [| [label value] rest IH]; intros i angle slices Hloop.
  - injection Hloop as <-. reflexivity.
  - apply pie_loop_cons in Hloop as (s & result & -> & _ & Hrest).
    simpl. f_equal. eapply IH, Hrest.
Qed.

(** The slice at position [k] comes from the entry at position [k]. *)
Lemma pie_loop_nth (data : list (string * Z)) :
  forall i angle slices,
    pie_loop total cx cy r_outer r_inner colors i angle data = Ret slices ->
    forall k s,
      nth_error slices k = Some s ->
      exists label value,
        nth_error data k = Some (label, value) /\
        slice_of total colors (i + k) (arc_a1 (slice_d s)) label value s.
Proof.
  induction data as [| [label value] rest IH]; intros i angle slices Hloop k s Hk.
  - injection Hloop as <-. destruct k; discriminate Hk.
  - apply pie_loop_cons in Hloop as (s0 & result & -> & Hs0 & Hrest).
    destruct k as [| k]; simpl in Hk.
    + injection Hk as ->. exists label, value. split; [reflexivity |].
      rewrite Nat.add_0_r.
      destruct Hs0 as (frac & Hfrac & Hlabel & Ha1 & Hrem).
      exists frac. rewrite Ha1. repeat split; tauto.
    + destruct (IH _ _ _ Hrest k s Hk) as (l & v & Hdata & Hs).
      exists l, v. split; [exact Hdata |].
      now replace (i + S k)%nat with (S i + k)%nat by lia.
Qed.

End PieFacts.

(** *** Rounding *)

Lemma round_half_even_nearest (m e : Z) :
  0 <= m -> e < 0 ->
  2 * Z.abs (Binary64.round_half_even m e * 2 ^ (- e) - m) <= 2 ^ (- e).
Proof.
  intros Hm He. unfold Binary64.round_half_even.
  destruct (0 <=? e) eqn:E; [apply Z.leb_le in E; lia |].
  set (d := 2 ^ (- e)).
  assert (Hd : 0 < d) by (apply Z.pow_pos_nonneg; lia).
  pose proof (Z.div_mod m d ltac:(lia)) as Hdiv.
  pose proof (Z.mod_pos_bound m d Hd) as Hmod.
  set (q := m / d) in *. set (r := m mod d) in *.
  destruct (Z.compare_spec (2 * r) d) as [Heq | Hlt | Hgt];
    [destruct (Z.even q) |..]; nia.
Qed.

Lemma round_nearest (x : float) (n : Z) :
  Binary64.round x = Ret n -> nearest_integer x n.
Proof.
  unfold Binary64.round, nearest_integer, dyadic.
  destruct (Prim2SF x) as [sg | sg | | sg m e]; try discriminate.
  - intros [= <-]. now exists 0, 0.
  - intros [= <-]. eexists. exists e. split; [reflexivity |].
    destruct (0 <=? e) eqn:E.
    + unfold Binary64.round_half_even. rewrite E. destruct sg; lia.
    + apply Z.leb_gt in E.
      pose proof (round_half_even_nearest (Zpos m) e ltac:(lia) E) as Hn.
      destruct sg; lia.
Qed.

Example round_ties_to_even :
  Binary64.round 0.5%float = Ret 0 /\ Binary64.round 1.5%float = Ret 2 /\
  Binary64.round 2.5%float = Ret 2 /\ Binary64.round (-2.5)%float = Ret (-2) /\
  Binary64.round 0x1.cbfffffffffffp+5%float = Ret 57.
Proof. repeat split. Qed.

(** *** The slices of the program *)

Lemma pie_paths_nth (data : list (string * Z)) (cx cy r_outer r_inner : Z)
      (colors : list string) (slices : list (slice float)) :
  pie_paths data cx cy r_outer r_inner colors = Ret slices ->
  forall k s,
    nth_error slices k = Some s ->
    exists label value,
      nth_error data k = Some (label, value) /\
      slice_of (pie_total data) colors k (arc_a1 (slice_d s)) label value s.
Proof.
  intros Hpaths k s Hk.
  exact (pie_loop_nth _ _ _ _ _ _ data O _ slices Hpaths k s Hk).
Qed.

(** C7: for every slice [pie_paths] produces, the large-arc flag of its
    arc command is 1 exactly when the angular span of the slice, the
    [delta] by which its end angle is past its start angle, is greater
    than [math.pi], and 0 otherwise; a span equal to [math.pi] has flag
    0. *)
Theorem large_arc_flag (data : list (string * Z)) (cx cy r_outer r_inner : Z)
        (colors : list string) (slices : list (slice float)) :
  pie_paths data cx cy r_outer r_inner colors = Ret slices ->
  forall k s,
    nth_error slices k = Some s ->
    exists label value frac,
      nth_error data k = Some (label, value) /\
      Binary64.truediv value (pie_total data) = Ret frac /\
      arc_a2 (slice_d s) = (arc_a1 (slice_d s) + span frac)%float /\
      (arc_large (slice_d s) = 1 <-> (Binary64.math_pi <? span frac)%float = true) /\
      (arc_large (slice_d s) = 0 <-> (Binary64.math_pi <? span frac)%float = false) /\
      (span frac = Binary64.math_pi -> arc_large (slice_d s) = 0).
Proof.
  intros Hpaths k s Hk.
  destruct (pie_paths_nth _ _ _ _ _ _ _ Hpaths k s Hk)
    as (label & value & Hdata & frac & Hfrac & _ & _ & Ha2 & Hlarge & _).
  exists label, value, frac.
  split; [exact Hdata |]. split; [exact Hfrac |]. split; [exact Ha2 |].
  cbn [fgt pi binary64] in Hlarge.
  assert (Hflag : (Binary64.math_pi <? span frac)%float = true
                  \/ (Binary64.math_pi <? span frac)%float = false)
    by (destruct (Binary64.math_pi <? span frac)%float; tauto).
  repeat split.
  - intros H1. rewrite H1 in Hlarge.
    destruct (Binary64.math_pi <? span frac)%float; [reflexivity | discriminate].
  - intros Hgt. rewrite Hlarge. change (@pi float binary64) with Binary64.math_pi.
    now rewrite Hgt.
  - intros H0. rewrite H0 in Hlarge.
    destruct (Binary64.math_pi <? span frac)%float; [discriminate | reflexivity].
  - intros Hle. rewrite Hlarge. change (@pi float binary64) with Binary64.math_pi.
    now rewrite Hle.
  - intros Heq. rewrite Hlarge, Heq. reflexivity.
Qed.

Lemma large_arc_flag_witness :
  exists (slices : list (slice float)) (s : slice float),
    pie_paths [("Python", 23); ("HTML", 17)] 280 160 88 56 REPO_COLORS = Ret slices /\
    nth_error slices 0 = Some s /\
    arc_large (slice_d s) = 1 /\
    exists label value frac,
      nth_error [("Python", 23); ("HTML", 17)] 0 = Some (label, value) /\
      Binary64.truediv value (pie_total [("Python", 23); ("HTML", 17)]) = Ret frac /\
      arc_a2 (slice_d s) = (arc_a1 (slice_d s) + span frac)%float /\
      (arc_large (slice_d s) = 1 <-> (Binary64.math_pi <? span frac)%float = true) /\
      (arc_large (slice_d s) = 0 <-> (Binary64.math_pi <? span frac)%float = false) /\
      (span frac = Binary64.math_pi -> arc_large (slice_d s) = 0).
Proof.
  do 2 eexists.
  split; [vm_compute; reflexivity |]. split; [reflexivity |].
  split; [reflexivity |].
  refine (large_arc_flag [("Python", 23); ("HTML", 17)] 280 160 88 56 REPO_COLORS
                         _ _ 0%nat _ _);
    [vm_compute; reflexivity | reflexivity].
Defined.

(** Two equal slices: each spans [math.pi] exactly, and neither is a
    large arc. *)
Example half_circle_is_not_large :
  exists s1 s2 : slice float,
    pie_paths [("Python", 1); ("HTML", 1)] 280 160 88 56 REPO_COLORS = Ret [s1; s2] /\
    Binary64.truediv 1 2 = Ret 0.5%float /\
    span 0.5%float = Binary64.math_pi /\
    arc_large (slice_d s1) = 0 /\ arc_large (slice_d s2) = 0.
Proof.
  do 2 eexists. split; [vm_compute; reflexivity |].
  repeat split; vm_compute; reflexivity.
Qed.

Lemma of_int_100 : @of_int float binary64 100 = 100%float.
Proof. reflexivity. Qed.

Lemma of_int_2 : @of_int float binary64 2 = 2%float.
Proof. reflexivity. Qed.

(** C9: the percentage displayed for a slice is [round(frac * 100)] for
    the fraction of that slice alone, an integer nearest to the product;
    no adjustment is made across slices, and there is a chart whose
    displayed percentages sum to 99. *)
Theorem displayed_percentage :
  (forall data cx cy r_outer r_inner colors (slices : list (slice float)),
      pie_paths data cx cy r_outer r_inner colors = Ret slices ->
      forall k s,
        nth_error slices k = Some s ->
        exists label value frac,
          nth_error data k = Some (label, value) /\
          Binary64.truediv value (pie_total data) = Ret frac /\
          Binary64.round (frac * 100)%float = Ret (slice_pct s) /\
          nearest_integer (frac * 100)%float (slice_pct s)) /\
  (exists data (slices : list (slice float)),
      pie_paths data 280 160 88 56 REPO_COLORS = Ret slices /\
      sum_pct slices = 99).
Proof.
  split.
  - intros data cx cy r_outer r_inner colors slices Hpaths k s Hk.
    destruct (pie_paths_nth _ _ _ _ _ _ _ Hpaths k s Hk)
      as (label & value & Hdata & frac & Hfrac & _ & _ & _ & _ & _ & Hpct).
    exists label, value, frac.
    cbn [pyround fmul binary64] in Hpct. rewrite of_int_100 in Hpct.
    repeat split; try assumption. now apply round_nearest.
  - exists [("Python", 1); ("HTML", 1); ("CSS", 1)]. eexists.
    split; [vm_compute; reflexivity | reflexivity].
Qed.

Lemma displayed_percentage_witness :
  exists (slices : list (slice float)) (s : slice float),
    pie_paths [("Python", 23); ("HTML", 17)] 280 160 88 56 REPO_COLORS = Ret slices /\
    nth_error slices 0 = Some s /\
    slice_pct s = 57 /\
    exists label value frac,
      nth_error [("Python", 23); ("HTML", 17)] 0 = Some (label, value) /\
      Binary64.truediv value (pie_total [("Python", 23); ("HTML", 17)]) = Ret frac /\
      Binary64.round (frac * 100)%float = Ret (slice_pct s) /\
      nearest_integer (frac * 100)%float (slice_pct s).
Proof.
  do 2 eexists.
  split; [vm_compute; reflexivity |]. split; [reflexivity |].
  split; [reflexivity |].
  refine (proj1 displayed_percentage
                [("Python", 23); ("HTML", 17)] 280 160 88 56 REPO_COLORS
                _ _ 0%nat _ _);
    [vm_compute; reflexivity | reflexivity].
Defined.

(** *** The divisor *)


Lemma pie_total_of_zero (data : list (string * Z)) :
  sum_values data = 0 -> pie_total data = 1.
Proof. intros Hz. unfold pie_total. now rewrite Hz. Qed.

Lemma pie_total_of_nonzero (data : list (string * Z)) :
  sum_values data <> 0 -> pie_total data = sum_values data.
Proof. intros Hz. unfold pie_total. apply Z.eqb_neq in Hz. now rewrite Hz. Qed.



Lemma palette_color_returns (colors : list string) (i : nat) :
  colors <> [] -> exists c, palette_color colors i = Ret c.
Proof. destruct colors; [congruence | intros _; eexists; reflexivity]. Qed.

Lemma color_returns (colors : list string) (i : nat) (label : string) :
  colors <> [] ->
  exists c, (if String.eqb label "Other" then Ret OTHER_COLOR
             else palette_color colors i) = Ret c.
Proof.
  intros Hc. destruct (String.eqb label "Other");
    [now exists OTHER_COLOR | now apply palette_color_returns].
Qed.


Lemma nonneg_sum_zero (l : list (string * Z)) :
  (forall kv, In kv l -> 0 <= snd kv) -> sum_values l = 0 ->
  forall kv, In kv l -> snd kv = 0.
Proof.
  induction l as [| x l IH]; intros Hnonneg Hsum kv Hin; [destruct Hin |].
  rewrite sum_values_cons in Hsum.
  assert (0 <= snd x) by (apply Hnonneg; now left).
  assert (0 <= sum_values l)
    by (apply sum_values_nonneg; intros; apply Hnonneg; now right).
  destruct Hin as [<- | Hin]; [lia |].
  apply IH; [intros; apply Hnonneg; now right | lia | exact Hin].
Qed.






(** * Further properties *)

(** ** Dictionaries *)

Lemma dict_get_set_same (d : Dict.t) (k : string) (v dflt : Z) :
  Dict.get (Dict.set d k v) k dflt = v.
Proof.
  induction d as [| [k' v'] d IH]; simpl.
  - now rewrite String.eqb_refl.
  - destruct (String.eqb k' k) eqn:E; simpl; rewrite E; [reflexivity | exact IH].
Qed.

Lemma dict_get_set_other (d : Dict.t) (k k' : string) (v dflt : Z) :
  k <> k' -> Dict.get (Dict.set d k v) k' dflt = Dict.get d k' dflt.
Proof.
  intros Hne. induction d as [| [k0 v0] d IH]; simpl.
  - apply String.eqb_neq in Hne. now rewrite Hne.
  - destruct (String.eqb k0 k) eqn:E; simpl.
    + apply String.eqb_eq in E. subst k0.
      apply String.eqb_neq in Hne. now rewrite Hne.
    + destruct (String.eqb k0 k'); [reflexivity | exact IH].
Qed.

Lemma dict_keys_set_present (d : Dict.t) (k : string) (v : Z) :
  In k (Dict.keys d) -> Dict.keys (Dict.set d k v) = Dict.keys d.
Proof.
  induction d as [| [k' v'] d IH]; simpl; [tauto |].
  intros Hin. destruct (String.eqb k' k) eqn:E; simpl; [reflexivity |].
  f_equal. apply IH. destruct Hin as [-> | Hin]; [| exact Hin].
  now rewrite String.eqb_refl in E.
Qed.

Lemma dict_keys_set_absent (d : Dict.t) (k : string) (v : Z) :
  ~ In k (Dict.keys d) -> Dict.keys (Dict.set d k v) = Dict.keys d ++ [k].
Proof.
  induction d as [| [k' v'] d IH]; simpl; [reflexivity |].
  intros Hnot. destruct (String.eqb k' k) eqn:E.
  - apply String.eqb_eq in E. tauto.
  - simpl. f_equal. apply IH. tauto.
Qed.

(** The keys after [d[k] = v] depend on the keys before and on [k] only. *)
Lemma dict_keys_set_congr (d1 d2 : Dict.t) (k : string) (v1 v2 : Z) :
  Dict.keys d1 = Dict.keys d2 ->
  Dict.keys (Dict.set d1 k v1) = Dict.keys (Dict.set d2 k v2).
Proof.
  intros Hkeys. destruct (in_dec string_dec k (Dict.keys d1)) as [Hin | Hnot].
  - rewrite dict_keys_set_present by exact Hin.
    rewrite dict_keys_set_present by (now rewrite <- Hkeys). exact Hkeys.
  - rewrite dict_keys_set_absent by exact Hnot.
    rewrite dict_keys_set_absent by (now rewrite <- Hkeys). now rewrite Hkeys.
Qed.

Lemma dict_set_nodup (d : Dict.t) (k : string) (v : Z) :
  NoDup (Dict.keys d) -> NoDup (Dict.keys (Dict.set d k v)).
Proof.
  intros Hd. destruct (in_dec string_dec k (Dict.keys d)) as [Hin | Hnot].
  - now rewrite dict_keys_set_present.
  - rewrite dict_keys_set_absent by exact Hnot.
    apply NoDup_app; [exact Hd | repeat constructor; simpl; tauto |].
    intros x Hx [<- | []]. contradiction.
Qed.

Lemma dict_set_sum (d : Dict.t) (k : string) (c : Z) :
  sum_values (Dict.set d k (Dict.get d k 0 + c)) = sum_values d + c.
Proof.
  induction d as [| [k' v'] d IH]; simpl; [lia |].
  destruct (String.eqb k' k); simpl.
  - fold (sum_values d). lia.
  - fold (sum_values d). fold (sum_values (Dict.set d k (Dict.get d k 0 + c))).
    rewrite IH. lia.
Qed.

Lemma dict_in_set (d : Dict.t) (k : string) (v : Z) (kv : string * Z) :
  In kv (Dict.set d k v) -> In kv d \/ kv = (k, v).
Proof.
  induction d as [| [k' v'] d IH]; simpl.
  - intros [<- | []]. now right.
  - destruct (String.eqb k' k) eqn:E; simpl.
    + apply String.eqb_eq in E. subst k'. intros [<- | Hin]; tauto.
    + intros [<- | Hin]; [tauto |]. destruct (IH Hin); tauto.
Qed.

Lemma dict_get_in (d : Dict.t) (k : string) (dflt : Z) :
  In k (Dict.keys d) -> In (k, Dict.get d k dflt) d.
Proof.
  induction d as [| [k' v'] d IH]; simpl; [tauto |].
  intros Hin. destruct (String.eqb k' k) eqn:E.
  - apply String.eqb_eq in E. subst k'. now left.
  - right. apply IH. destruct Hin as [-> | Hin]; [| exact Hin].
    now rewrite String.eqb_refl in E.
Qed.

Lemma dict_get_absent (d : Dict.t) (k : string) (dflt : Z) :
  ~ In k (Dict.keys d) -> Dict.get d k dflt = dflt.
Proof.
  induction d as [| [k' v'] d IH]; simpl; [reflexivity |].
  intros Hnot. destruct (String.eqb k' k) eqn:E.
  - apply String.eqb_eq in E. tauto.
  - apply IH. tauto.
Qed.

(** ** The tally of repositories *)

Lemma count_step_keys (counts : Dict.t) (r : repo) (lang : string) :
  In lang (Dict.keys (count_step counts r)) <->
  In lang (Dict.keys counts) \/ counted_language r = Some lang.
Proof.
  unfold count_step. destruct (counted_language r) as [l |].
  - destruct (in_dec string_dec l (Dict.keys counts)) as [Hin | Hnot].
    + rewrite dict_keys_set_present by exact Hin.
      split; [tauto |]. intros [H | [= <-]]; assumption.
    + rewrite dict_keys_set_absent by exact Hnot. rewrite in_app_iff. simpl.
      split.
      * intros [H | [<- | []]]; tauto.
      * intros [H | [= <-]]; tauto.
  - split; [tauto |]. intros [H | H]; [exact H | discriminate H].
Qed.

Lemma dict_get_nonneg (d : Dict.t) (k : string) :
  (forall kv, In kv d -> 1 <= snd kv) -> 0 <= Dict.get d k 0.
Proof.
  intros Hd. destruct (in_dec string_dec k (Dict.keys d)) as [Hin | Hnot].
  - apply (dict_get_in d k 0), Hd in Hin. simpl in Hin. lia.
  - rewrite dict_get_absent by exact Hnot. lia.
Qed.

Lemma fold_count_step_invariant (repos : list repo) :
  forall counts,
    NoDup (Dict.keys counts) -> (forall kv, In kv counts -> 1 <= snd kv) ->
    let tally := fold_left count_step repos counts in
    NoDup (Dict.keys tally) /\
    (forall lang,
        In lang (Dict.keys tally) <->
        In lang (Dict.keys counts)
        \/ exists r, In r repos /\ counted_language r = Some lang) /\
    (forall kv, In kv tally -> 1 <= snd kv).
Proof.
  induction repos as [| r repos IH]; intros counts Hnodup Hpos; cbn [fold_left].
  - repeat split; try assumption; [tauto |]. intros [H | (r & [] & _)]. exact H.
  - assert (Hnodup' : NoDup (Dict.keys (count_step counts r))).
    { unfold count_step. destruct (counted_language r);
        [now apply dict_set_nodup | exact Hnodup]. }
    assert (Hpos' : forall kv, In kv (count_step counts r) -> 1 <= snd kv).
    { unfold count_step. destruct (counted_language r) as [l |]; [| exact Hpos].
      intros kv Hin. apply dict_in_set in Hin as [Hin | ->]; [now apply Hpos |].
      pose proof (dict_get_nonneg counts l Hpos). simpl. lia. }
    destruct (IH _ Hnodup' Hpos') as (Hn & Hkeys & Hvals).
    repeat split; try assumption.
    + intros Hin. apply Hkeys in Hin as [Hin | (r' & Hr' & Hl)].
      * apply count_step_keys in Hin as [Hin | Hl]; [now left |].
        right. exists r. split; [now left | exact Hl].
      * right. exists r'. split; [now right | exact Hl].
    + intros Hin. apply Hkeys.
      destruct Hin as [Hin | (r' & [<- | Hr'] & Hl)].
      * left. apply count_step_keys. now left.
      * left. apply count_step_keys. now right.
      * right. now exists r'.
Qed.

(** X1: the languages of the by-count tally are distinct, they are the
    counted languages of the repositories, and every count is at least
    1. *)
Theorem languages_by_repo_count_keys (repos : list repo) :
  let tally := languages_by_repo_count repos in
  NoDup (Dict.keys tally) /\
  (forall lang,
      In lang (Dict.keys tally) <->
      exists r, In r repos /\ counted_language r = Some lang) /\
  (forall kv, In kv tally -> 1 <= snd kv).
Proof.
  destruct (fold_count_step_invariant repos [] (NoDup_nil _)
                                      (fun kv (H : In kv []) => match H with end))
    as (Hn & Hkeys & Hvals).
  repeat split; try assumption.
  - intros Hin. apply Hkeys in Hin as [[] | H]. exact H.
  - intros H. apply Hkeys. now right.
Qed.

Lemma count_step_get (counts : Dict.t) (r : repo) (lang : string) :
  Dict.get (count_step counts r) lang 0
  = Dict.get counts lang 0 + (if counted_as lang r then 1 else 0).
Proof.
  unfold count_step, counted_as. destruct (counted_language r) as [l |]; [| lia].
  destruct (String.eqb l lang) eqn:E.
  - apply String.eqb_eq in E. subst l. apply dict_get_set_same.
  - apply String.eqb_neq in E. rewrite dict_get_set_other by exact E. lia.
Qed.

Lemma fold_count_step_get (repos : list repo) (lang : string) :
  forall counts,
    Dict.get (fold_left count_step repos counts) lang 0
    = Dict.get counts lang 0
      + Z.of_nat (List.length (filter (counted_as lang) repos)).
Proof.
  induction repos as [| r repos IH]; intros counts; cbn [fold_left filter].
  - simpl. lia.
  - rewrite IH, count_step_get. destruct (counted_as lang r);
      cbn [List.length]; lia.
Qed.

(** X2: the count of a language is the number of repositories counted under
    it; a language no repository is counted under reads as the default
    0. *)
Theorem languages_by_repo_count_counts (repos : list repo) (lang : string) :
  Dict.get (languages_by_repo_count repos) lang 0
  = Z.of_nat (List.length (filter (counted_as lang) repos)).
Proof.
  unfold languages_by_repo_count. rewrite fold_count_step_get. reflexivity.
Qed.

Lemma count_step_sum (counts : Dict.t) (r : repo) :
  sum_values (count_step counts r)
  = sum_values counts + (if is_counted r then 1 else 0).
Proof.
  unfold count_step, is_counted. destruct (counted_language r) as [l |]; [| lia].
  apply dict_set_sum.
Qed.

Lemma fold_count_step_sum (repos : list repo) :
  forall counts,
    sum_values (fold_left count_step repos counts)
    = sum_values counts + Z.of_nat (List.length (filter is_counted repos)).
Proof.
  induction repos as [| r repos IH]; intros counts; cbn [fold_left filter].
  - simpl. lia.
  - rewrite IH, count_step_sum. destruct (is_counted r); cbn [List.length]; lia.
Qed.

(** X3: the counts of the by-count tally add up to the number of repositories
    that have a counted language, which is at most the number of
    repositories. *)
Theorem languages_by_repo_count_total (repos : list repo) :
  sum_values (languages_by_repo_count repos)
  = Z.of_nat (List.length (filter is_counted repos)) /\
  sum_values (languages_by_repo_count repos) <= Z.of_nat (List.length repos).
Proof.
  unfold languages_by_repo_count. rewrite fold_count_step_sum.
  split; [reflexivity |].
  pose proof (filter_length_le is_counted repos). simpl. lia.
Qed.

(** ** The commit-weighted tally *)

Section Weighted.

Variable World : Type.
Variable http_get : string -> World -> get_result * World.

Lemma commit_weighted_from_split (before after : list repo) :
  forall weighted w,
    commit_weighted_from World http_get weighted (before ++ after) w
    = match commit_weighted_from World http_get weighted before w with
      | (Ret weighted', w1) =>
          commit_weighted_from World http_get weighted' after w1
      | (Raise e, w1) => (Raise e, w1)
      end.
Proof.
  induction before as [| b before IH]; intros weighted w; [reflexivity |].
  cbn [app commit_weighted_from].
  destruct (counted_language b); [| apply IH].
  destruct (fetch_commit_count World http_get (name b) w) as [[commits | e] w1];
    [apply IH | reflexivity].
Qed.

Lemma commit_weighted_from_keys (repos : list repo) :
  forall weighted counts w activity w',
    Dict.keys weighted = Dict.keys counts ->
    commit_weighted_from World http_get weighted repos w = (Ret activity, w') ->
    Dict.keys activity = Dict.keys (fold_left count_step repos counts).
Proof.
  induction repos as [| r repos IH]; intros weighted counts w activity w' Hkeys;
    cbn [commit_weighted_from fold_left].
  - now intros [= <- _].
  - unfold count_step. destruct (counted_language r) as [lang |];
      [| now apply IH].
    destruct (fetch_commit_count World http_get (name r) w) as [[commits | e] w1];
      [| discriminate].
    apply IH. now apply dict_keys_set_congr.
Qed.

(** X4: when the commit-weighted tally is computed to the end, it has the
    languages of the by-count tally, in the same order. *)
Theorem commit_weighted_languages_keys (repos : list repo) (w w' : World)
        (activity : Dict.t) :
  commit_weighted_languages World http_get repos w = (Ret activity, w') ->
  Dict.keys activity = Dict.keys (languages_by_repo_count repos).
Proof.
  intros Hact. now apply (commit_weighted_from_keys repos [] [] w activity w').
Qed.

Lemma commit_weighted_from_fallback (repos : list repo) :
  (forall repo_name w, exists r w1,
        http_get repo_name w = (GetResponse r, w1) /\ status_code r <> 200) ->
  forall counts w,
  exists w',
    commit_weighted_from World http_get counts repos w
    = (Ret (fold_left count_step repos counts), w').
Proof.
  intros Hfail.
  induction repos as [| r repos IH]; intros counts w;
    cbn [commit_weighted_from fold_left].
  - now exists w.
  - unfold count_step. destruct (counted_language r) as [lang |]; [| apply IH].
    destruct (Hfail (name r) w) as (resp & w1 & Hget & Hstatus).
    unfold fetch_commit_count. rewrite Hget.
    rewrite (commit_count_of_failure resp Hstatus). apply IH.
Qed.

(** X5: when every commit request is answered with a status other than 200,
    every repository weighs 1 and the commit-weighted tally is the
    by-count tally. *)
Theorem commit_weighted_languages_all_fallback (repos : list repo) (w : World) :
  (forall repo_name w0, exists r w1,
        http_get repo_name w0 = (GetResponse r, w1) /\ status_code r <> 200) ->
  exists w',
    commit_weighted_languages World http_get repos w
    = (Ret (languages_by_repo_count repos), w').
Proof.
  intros Hfail. exact (commit_weighted_from_fallback repos Hfail [] w).
Qed.

(** X6: a commit request that raises ends the loop: the exception is the
    result, the weights collected so far are dropped, and no request is
    made for the repositories after it. *)
Theorem commit_weighted_languages_aborts (before after : list repo) (r : repo)
        (lang : string) (collected : Dict.t) (w w1 w2 : World) :
  commit_weighted_languages World http_get before w = (Ret collected, w1) ->
  counted_language r = Some lang ->
  http_get (name r) w1 = (GetRaised, w2) ->
  commit_weighted_languages World http_get (before ++ r :: after) w
  = (Raise RequestException, w2).
Proof.
  unfold commit_weighted_languages. intros Hbefore Hlang Hget.
  rewrite commit_weighted_from_split, Hbefore.
  cbn [commit_weighted_from]. rewrite Hlang.
  unfold fetch_commit_count. now rewrite Hget.
Qed.

End Weighted.

Lemma commit_weighted_languages_keys_witness :
  commit_weighted_languages Scripted.World Scripted.failing_get Scripted.repos 1%nat
  = (Ret [("Python", 1); ("HTML", 1)], 3%nat) /\
  Dict.keys [("Python", 1); ("HTML", 1)]
  = Dict.keys (languages_by_repo_count Scripted.repos).
Proof.
  split; [reflexivity |].
  exact (commit_weighted_languages_keys
           Scripted.World Scripted.failing_get Scripted.repos 1%nat 3%nat
           [("Python", 1); ("HTML", 1)] eq_refl).
Defined.

Lemma commit_weighted_languages_all_fallback_witness :
  (forall repo_name w0, exists r w1,
        Scripted.failing_get repo_name w0 = (GetResponse r, w1)
        /\ status_code r <> 200) /\
  exists w',
    commit_weighted_languages Scripted.World Scripted.failing_get Scripted.repos 1%nat
    = (Ret (languages_by_repo_count Scripted.repos), w').
Proof.
  assert (Hfail : forall repo_name w0, exists r w1,
             Scripted.failing_get repo_name w0 = (GetResponse r, w1)
             /\ status_code r <> 200).
  { intros repo_name w0. exists Scripted.not_found, (S w0).
    split; [reflexivity | discriminate]. }
  split; [exact Hfail |].
  exact (commit_weighted_languages_all_fallback
           Scripted.World Scripted.failing_get Scripted.repos 1%nat Hfail).
Defined.

Lemma commit_weighted_languages_aborts_witness :
  let first := {| name := "iuliavisan"; primaryLanguage := Some (Some "Python");
                  languages := [Some "Python"] |} in
  let later := {| name := "site"; primaryLanguage := None;
                  languages := [Some "HTML"; Some "CSS"] |} in
  commit_weighted_languages Scripted.World Scripted.unreachable_get [] 1%nat
  = (Ret [], 1%nat) /\
  counted_language first = Some "Python" /\
  Scripted.unreachable_get (name first) 1%nat = (GetRaised, 2%nat) /\
  commit_weighted_languages Scripted.World Scripted.unreachable_get
    ([] ++ first :: [later]) 1%nat
  = (Raise RequestException, 2%nat).
Proof.
  cbv zeta. split; [reflexivity |]. split; [reflexivity |].
  split; [reflexivity |].
  exact (commit_weighted_languages_aborts
           Scripted.World Scripted.unreachable_get []
           [{| name := "site"; primaryLanguage := None;
               languages := [Some "HTML"; Some "CSS"] |}]
           {| name := "iuliavisan"; primaryLanguage := Some (Some "Python");
              languages := [Some "Python"] |}
           "Python" [] 1%nat 1%nat 2%nat eq_refl eq_refl eq_refl).
Defined.

(** ** More on top-N selection *)

Lemma sorted_desc_length (l : list (string * Z)) :
  List.length (sorted_desc l) = List.length l.
Proof. apply Permutation_length, sorted_desc_perm. Qed.

Lemma sorted_app_dominates (l1 l2 : list (string * Z)) :
  StronglySorted desc (l1 ++ l2) ->
  forall a b, In a l1 -> In b l2 -> snd b <= snd a.
Proof.
  induction l1 as [| x l1 IH]; intros Hs a b Ha Hb; [destruct Ha |].
  inversion Hs as [| ? ? Hrest Hx]; subst.
  destruct Ha as [<- | Ha]; [| now apply IH].
  rewrite Forall_forall in Hx. apply Hx, in_or_app. now right.
Qed.

Lemma sum_values_ge_length (l : list (string * Z)) :
  (forall kv, In kv l -> 1 <= snd kv) -> Z.of_nat (List.length l) <= sum_values l.
Proof.
  induction l as [| kv l IH]; intros Hl; [simpl; lia |].
  rewrite sum_values_cons. cbn [List.length].
  assert (1 <= snd kv) by (apply Hl; now left).
  assert (Z.of_nat (List.length l) <= sum_values l)
    by (apply IH; intros; apply Hl; now right).
  lia.
Qed.

(** X7: a tally of at most N entries comes back sorted, whole, and with no
    entry added. *)
Theorem top_n_with_other_small (data : Dict.t) :
  (List.length data <= TOP_N)%nat -> top_n_with_other data = sorted_desc data.
Proof.
  intros Hlen. unfold top_n_with_other.
  rewrite skipn_all2 by (rewrite sorted_desc_length; exact Hlen).
  rewrite firstn_all2 by (rewrite sorted_desc_length; exact Hlen).
  reflexivity.
Qed.

Lemma top_n_with_other_small_witness :
  let data := [("HTML", 1); ("Python", 4)] in
  (List.length data <= TOP_N)%nat /\
  top_n_with_other data = [("Python", 4); ("HTML", 1)].
Proof.
  assert (Hlen : (List.length [("HTML", 1); ("Python", 4)] <= TOP_N)%nat)
    by (unfold TOP_N; simpl; lia).
  split; [exact Hlen |].
  exact (top_n_with_other_small [("HTML", 1); ("Python", 4)] Hlen).
Defined.

(** X8: [top_n_with_other] returns the first N entries of the sorted
    tally, followed by an entry "Other" holding the sum of the entries
    beyond rank N when that sum is positive; the entries returned as they
    are and the entries summed are together the entries of the tally, each
    once, and no entry summed into "Other" has a larger value than an entry
    kept. *)
Theorem top_n_partition (data : Dict.t) :
  exists kept summed,
    top_n_with_other data
    = kept ++ (if 0 <? sum_values summed then [("Other", sum_values summed)]
               else []) /\
    kept = firstn TOP_N (sorted_desc data) /\
    summed = skipn TOP_N (sorted_desc data) /\
    Permutation (kept ++ summed) data /\
    forall k s, In k kept -> In s summed -> snd s <= snd k.
Proof.
  exists (firstn TOP_N (sorted_desc data)), (skipn TOP_N (sorted_desc data)).
  split; [| split; [reflexivity | split; [reflexivity | split]]].
  - unfold top_n_with_other.
    destruct (0 <? sum_values (skipn TOP_N (sorted_desc data)));
      [reflexivity | now rewrite app_nil_r].
  - rewrite firstn_skipn. apply sorted_desc_perm.
  - apply sorted_app_dominates. rewrite firstn_skipn. apply sorted_desc_sorted.
Qed.

(** X9: with more than N languages counted, the chart of repositories always
    has the N+1 entries: every count is at least 1, so the remainder is
    positive, at least the number of languages beyond rank N, and the
    "Other" entry is appended. *)
Theorem top_n_of_repo_counts (repos : list repo) :
  let tally := languages_by_repo_count repos in
  (TOP_N < List.length tally)%nat ->
  top_n_with_other tally
  = firstn TOP_N (sorted_desc tally) ++ [("Other", sum_values (remainder tally))] /\
  Z.of_nat (List.length tally - TOP_N) <= sum_values (remainder tally) /\
  List.length (top_n_with_other tally) = S TOP_N.
Proof.
  intros tally Hlen.
  destruct (fold_count_step_invariant repos [] (NoDup_nil _)
                                      (fun kv (H : In kv []) => match H with end))
    as (_ & _ & Hvals).
  fold (languages_by_repo_count repos) in Hvals. fold tally in Hvals.
  assert (Hrest : Z.of_nat (List.length tally - TOP_N) <= sum_values (remainder tally)).
  { replace (List.length tally - TOP_N)%nat with (List.length (remainder tally)).
    - apply sum_values_ge_length. intros kv Hin.
      apply Hvals. now apply remainder_in_data.
    - unfold remainder. now rewrite length_skipn, sorted_desc_length. }
  destruct (top_n_with_other_shape tally) as [[_ Hout] | [Hle _]]; [| lia].
  split; [exact Hout |]. split; [exact Hrest |].
  rewrite Hout, length_app, firstn_length_le
    by (rewrite sorted_desc_length; lia).
  cbn [List.length]. lia.
Qed.

Lemma top_n_of_repo_counts_witness :
  let repo_in (lang : string) :=
    {| name := lang; primaryLanguage := Some (Some lang); languages := [] |} in
  let repos := map repo_in ["Go"; "Rust"; "Go"; "Python"; "TS"; "C"; "Ruby"] in
  (TOP_N < List.length (languages_by_repo_count repos))%nat /\
  top_n_with_other (languages_by_repo_count repos)
  = [("Go", 2); ("Rust", 1); ("Python", 1); ("TS", 1); ("C", 1); ("Other", 1)].
Proof.
  cbv zeta.
  assert (Hlen : (TOP_N < List.length
                    (languages_by_repo_count
                       (map (fun lang => {| name := lang;
                                            primaryLanguage := Some (Some lang);
                                            languages := [] |})
                            ["Go"; "Rust"; "Go"; "Python"; "TS"; "C"; "Ruby"])))%nat)
    by (vm_compute; lia).
  split; [exact Hlen |].
  rewrite (proj1 (top_n_of_repo_counts _ Hlen)). reflexivity.
Defined.

(** ** The layout of the slices *)

Section PieLayout.

Context {F : Type} `{PyFloat F}.

Variables (total cx cy r_outer r_inner : Z) (colors : list string).

Lemma pie_loop_first (data : list (string * Z)) (i : nat) (angle : F)
      (slices : list (slice F)) (s : slice F) :
  pie_loop total cx cy r_outer r_inner colors i angle data = Ret slices ->
  nth_error slices 0 = Some s -> arc_a1 (slice_d s) = angle.
Proof.
  destruct data as [| [label value] rest]; intros Hloop Hs.
  - injection Hloop as <-. discriminate Hs.
  - apply pie_loop_cons in Hloop as (s0 & result & -> & Hs0 & _).
    injection Hs as <-. destruct Hs0 as (frac & _ & _ & Ha1 & _). exact Ha1.
Qed.

Lemma pie_loop_consecutive (data : list (string * Z)) :
  forall i angle slices,
    pie_loop total cx cy r_outer r_inner colors i angle data = Ret slices ->
    forall k s s',
      nth_error slices k = Some s -> nth_error slices (S k) = Some s' ->
      arc_a1 (slice_d s') = arc_a2 (slice_d s).
Proof.
  induction data as [| [label value] rest IH];
    intros i angle slices Hloop k s s' Hs Hs'.
  - injection Hloop as <-. destruct k; discriminate Hs.
  - apply pie_loop_cons in Hloop as (s0 & result & -> & _ & Hrest).
    destruct k as [| k]; cbn [nth_error] in Hs, Hs'.
    + injection Hs as <-. exact (pie_loop_first _ _ _ _ _ Hrest Hs').
    + exact (IH _ _ _ Hrest k s s' Hs Hs').
Qed.

Lemma pie_loop_labels (data : list (string * Z)) :
  forall i angle slices,
    pie_loop total cx cy r_outer r_inner colors i angle data = Ret slices ->
    map slice_label slices = map fst data /\
    Forall (fun s => arc_cx (slice_d s) = cx /\ arc_cy (slice_d s) = cy /\
                     arc_r_outer (slice_d s) = r_outer /\
                     arc_r_inner (slice_d s) = r_inner) slices.
Proof.
  induction data as [| [label value] rest IH]; intros i angle slices Hloop.
  - injection Hloop as <-. split; [reflexivity | constructor].
  - cbn [pie_loop] in Hloop.
    apply bind_ret in Hloop as (frac & _ & Hloop).
    apply bind_ret in Hloop as (color & _ & Hloop).
    apply bind_ret in Hloop as (u & _ & Hloop).
    apply bind_ret in Hloop as (pct & _ & Hloop).
    apply bind_ret in Hloop as (result & Hrest & Hloop).
    injection Hloop as <-. destruct (IH _ _ _ Hrest) as (Hlabels & Hgeom).
    split; [cbn; now f_equal |].
    constructor; [cbn; tauto | exact Hgeom].
Qed.

End PieLayout.

(** X10: the slices go round from twelve o'clock without gap or overlap: the
    first starts at [-math.pi / 2] and each next one starts at the angle
    where the one before it ends. *)
Theorem pie_paths_consecutive {F : Type} `{PyFloat F}
        (data : list (string * Z)) (cx cy r_outer r_inner : Z)
        (colors : list string) (slices : list (slice F)) :
  pie_paths data cx cy r_outer r_inner colors = Ret slices ->
  (forall s, nth_error slices 0 = Some s -> arc_a1 (slice_d s) = start_angle) /\
  (forall k s s',
      nth_error slices k = Some s -> nth_error slices (S k) = Some s' ->
      arc_a1 (slice_d s') = arc_a2 (slice_d s)).
Proof.
  intros Hpaths. split.
  - intros s. exact (pie_loop_first _ _ _ _ _ _ _ _ _ _ _ Hpaths).
  - exact (pie_loop_consecutive _ _ _ _ _ _ _ _ _ _ Hpaths).
Qed.

(** X11: there is one slice per entry, the labels are those of the entries in
    input order, and every arc carries the centre and the radii the call
    was given. *)
Theorem pie_paths_labels {F : Type} `{PyFloat F}
        (data : list (string * Z)) (cx cy r_outer r_inner : Z)
        (colors : list string) (slices : list (slice F)) :
  pie_paths data cx cy r_outer r_inner colors = Ret slices ->
  List.length slices = List.length data /\
  map slice_label slices = map fst data /\
  forall s, In s slices ->
            arc_cx (slice_d s) = cx /\ arc_cy (slice_d s) = cy /\
            arc_r_outer (slice_d s) = r_outer /\
            arc_r_inner (slice_d s) = r_inner.
Proof.
  intros Hpaths.
  destruct (pie_loop_labels _ _ _ _ _ _ _ _ _ _ Hpaths) as (Hlabels & Hgeom).
  split; [exact (pie_loop_length _ _ _ _ _ _ _ _ _ _ Hpaths) |].
  split; [exact Hlabels |]. now apply Forall_forall.
Qed.

(** X12: a slice labelled "Other" has the neutral colour wherever it stands;
    any other slice has the colour of the palette at its index modulo the
    length of the palette. *)
Theorem pie_paths_colors {F : Type} `{PyFloat F}
        (data : list (string * Z)) (cx cy r_outer r_inner : Z)
        (colors : list string) (slices : list (slice F)) :
  pie_paths data cx cy r_outer r_inner colors = Ret slices ->
  forall k s,
    nth_error slices k = Some s ->
    (slice_label s = "Other" -> slice_color s = OTHER_COLOR) /\
    (slice_label s <> "Other" ->
     colors <> [] /\
     slice_color s = nth (k mod List.length colors) colors EmptyString).
Proof.
  intros Hpaths k s Hk.
  destruct (pie_loop_nth _ _ _ _ _ _ _ _ _ _ Hpaths k s Hk)
    as (label & value & _ & frac & _ & Hlabel & _ & _ & _ & Hcolor & _).
  cbn [Nat.add] in Hcolor. rewrite Hlabel. split.
  - intros ->. rewrite String.eqb_refl in Hcolor. now injection Hcolor as <-.
  - intros Hne. apply String.eqb_neq in Hne. rewrite Hne in Hcolor.
    unfold palette_color in Hcolor. destruct colors as [| c cs];
      [discriminate |].
    split; [discriminate |]. now injection Hcolor as <-.
Qed.

Lemma pie_paths_consecutive_witness :
  exists (slices : list (slice float)) (s s' : slice float),
    pie_paths [("Python", 23); ("HTML", 17)] 280 160 88 56 REPO_COLORS = Ret slices /\
    nth_error slices 0 = Some s /\ nth_error slices 1 = Some s' /\
    arc_a1 (slice_d s) = start_angle /\
    arc_a1 (slice_d s') = arc_a2 (slice_d s).
Proof.
  do 3 eexists.
  split; [vm_compute; reflexivity |]. split; [reflexivity |].
  split; [reflexivity |].
  pose proof (@pie_paths_consecutive float binary64
                [("Python", 23); ("HTML", 17)] 280 160 88 56 REPO_COLORS _
                ltac:(vm_compute; reflexivity)) as [Hfirst Hnext].
  split; [exact (Hfirst _ eq_refl) | exact (Hnext 0%nat _ _ eq_refl eq_refl)].
Defined.

Lemma pie_paths_labels_witness :
  exists slices : list (slice float),
    pie_paths [("Python", 23); ("HTML", 17)] 280 160 88 56 REPO_COLORS = Ret slices /\
    List.length slices = 2%nat /\
    map slice_label slices = ["Python"; "HTML"].
Proof.
  eexists. split; [vm_compute; reflexivity |].
  pose proof (@pie_paths_labels float binary64
                [("Python", 23); ("HTML", 17)] 280 160 88 56 REPO_COLORS _
                ltac:(vm_compute; reflexivity)) as (Hlen & Hlabels & _).
  split; [exact Hlen | exact Hlabels].
Defined.

Lemma pie_paths_colors_witness :
  exists (slices : list (slice float)) (s : slice float),
    pie_paths [("a", 6); ("b", 5); ("c", 4); ("d", 3); ("e", 2); ("f", 1); ("Other", 1)]
              280 160 88 56 REPO_COLORS = Ret slices /\
    nth_error slices 5 = Some s /\
    slice_label s <> "Other" /\
    slice_color s = nth (5 mod List.length REPO_COLORS) REPO_COLORS EmptyString.
Proof.
  do 2 eexists.
  split; [vm_compute; reflexivity |]. split; [reflexivity |].
  assert (Hne : "f" <> "Other") by discriminate.
  split; [exact Hne |].
  exact (proj2 (proj2 (@pie_paths_colors float binary64
                         [("a", 6); ("b", 5); ("c", 4); ("d", 3); ("e", 2);
                          ("f", 1); ("Other", 1)]
                         280 160 88 56 REPO_COLORS _
                         ltac:(vm_compute; reflexivity) 5%nat _ eq_refl) Hne)).
Defined.

(** ** Splitting *)

Lemma prefix_nil (s : string) : String.prefix EmptyString s = true.
Proof. now destruct s. Qed.

Lemma prefix_app (sep t : string) : String.prefix sep (sep ++ t)%string = true.
Proof.
  induction sep as [| a sep IH]; cbn [String.append]; [apply prefix_nil |].
  cbn [String.prefix]. destruct (ascii_dec a a); [exact IH | contradiction].
Qed.

Lemma append_nil_r (s : string) : (s ++ EmptyString)%string = s.
Proof. induction s as [| c s IH]; cbn; [reflexivity | now rewrite IH]. Qed.

Lemma append_assoc (a b c : string) :
  ((a ++ b) ++ c)%string = (a ++ (b ++ c))%string.
Proof. induction a as [| x a IH]; cbn; [reflexivity | now rewrite IH]. Qed.

Lemma split_go_nonempty (sep : string) (s : string) :
  forall skip cur, Str.split_go sep skip cur s <> [].
Proof.
  induction s as [| c s IH]; intros skip cur; cbn [Str.split_go]; [discriminate |].
  destruct skip; [| apply IH].
  destruct (String.prefix sep (String c s)); [discriminate | apply IH].
Qed.

Lemma split_go_skip (sep : string) (u t : string) :
  forall cur,
    Str.split_go sep (String.length u) cur (u ++ t)%string
    = Str.split_go sep O cur t.
Proof.
  induction u as [| c u IH]; intros cur; cbn [String.length String.append].
  - now destruct t.
  - cbn [Str.split_go]. apply IH.
Qed.

(** A separator at the head ends the piece being collected. *)
Lemma split_go_match (c : ascii) (sep' cur t : string) :
  Str.split_go (String c sep') O cur (String c sep' ++ t)%string
  = cur :: Str.split_go (String c sep') O EmptyString t.
Proof.
  cbn [String.append Str.split_go].
  change (String c (sep' ++ t)%string) with (String c sep' ++ t)%string.
  rewrite prefix_app.
  replace (String.length (String c sep') - 1)%nat with (String.length sep')
    by (cbn [String.length]; lia).
  now rewrite split_go_skip.
Qed.

(** Without an occurrence of the separator the text is one piece. *)
Lemma split_go_no_match (sep t : string) :
  Str.contains sep t = false ->
  forall cur, Str.split_go sep O cur t = [(cur ++ t)%string].
Proof.
  induction t as [| c t IH]; intros Hnone cur; cbn [Str.split_go].
  - now rewrite append_nil_r.
  - cbn [Str.contains] in Hnone. apply orb_false_iff in Hnone as [Hp Hrest].
    rewrite Hp, (IH Hrest), append_assoc. reflexivity.
Qed.

Lemma prefix_char (c x : ascii) (s : string) :
  String.prefix (String c EmptyString) (String x s) = Ascii.eqb c x.
Proof.
  cbn [String.prefix]. destruct (ascii_dec c x) as [-> | Hne].
  - now rewrite prefix_nil, Ascii.eqb_refl.
  - symmetry. now apply Ascii.eqb_neq.
Qed.

(** Splitting at a character: the first piece is the text before its
    first occurrence. *)
Lemma split_go_char (c : ascii) (a b : string) :
  has_char c a = false ->
  forall cur,
    Str.split_go (String c EmptyString) O cur (a ++ String c b)%string
    = (cur ++ a)%string :: Str.split_go (String c EmptyString) O EmptyString b.
Proof.
  induction a as [| x a IH]; intros Hnone cur.
  - rewrite append_nil_r.
    exact (split_go_match c EmptyString cur b).
  - cbn [has_char] in Hnone. apply orb_false_iff in Hnone as [Hx Hrest].
    cbn [String.append Str.split_go]. rewrite prefix_char, Hx.
    rewrite (IH Hrest), append_assoc. reflexivity.
Qed.

Lemma split_go_char_none (c : ascii) (a : string) :
  has_char c a = false ->
  forall cur, Str.split_go (String c EmptyString) O cur a = [(cur ++ a)%string].
Proof.
  induction a as [| x a IH]; intros Hnone cur; cbn [Str.split_go].
  - now rewrite append_nil_r.
  - cbn [has_char] in Hnone. apply orb_false_iff in Hnone as [Hx Hrest].
    rewrite prefix_char, Hx, (IH Hrest), append_assoc. reflexivity.
Qed.

Lemma last_cons_nonempty {A : Type} (x d : A) (l : list A) :
  l <> [] -> last (x :: l) d = last l d.
Proof. destruct l; [contradiction | reflexivity]. Qed.

(** No occurrence of [page=] begins less than four characters before
    another: none of its later characters is its first. *)
Lemma page_no_straddle (c : ascii) (pre t : string) :
  (String.length pre < 4)%nat ->
  String.prefix "page=" (String c (pre ++ "page=" ++ t)%string) = false.
Proof.
  intros Hlen.
  destruct pre as [| c1 [| c2 [| c3 [| c4 pre]]]];
    cbn [String.length] in Hlen; try lia;
    cbn [String.append String.prefix];
    repeat match goal with
           | |- context [ascii_dec ?x ?y] =>
               destruct (ascii_dec x y); try reflexivity; try congruence
           end.
Qed.

(** The last piece of a split at [page=] is the text after the last
    occurrence. *)
Lemma split_go_last_page (t : string) :
  Str.contains "page=" t = false ->
  forall pre skip cur,
    (skip <= String.length pre)%nat ->
    last (Str.split_go "page=" skip cur (pre ++ "page=" ++ t)%string) EmptyString
    = t.
Proof.
  intros Hnone.
  induction pre as [| c pre IH]; intros skip cur Hskip;
    cbn [String.length] in Hskip.
  - assert (skip = O) by lia. subst skip.
    change (EmptyString ++ "page=" ++ t)%string with ("page=" ++ t)%string.
    rewrite (split_go_match "p" "age=" cur t), (split_go_no_match _ _ Hnone).
    reflexivity.
  - pose proof (page_no_straddle c pre t) as Hstraddle.
    set (tail := ("page=" ++ t)%string) in *.
    cbn [String.append Str.split_go]. destruct skip as [| k].
    + destruct (String.prefix "page=" (String c (pre ++ tail)%string)) eqn:Hp.
      * rewrite last_cons_nonempty by apply split_go_nonempty.
        apply IH. cbn [String.length].
        destruct (Nat.lt_ge_cases (String.length pre) 4) as [Hlt | Hge];
          [| lia].
        specialize (Hstraddle Hlt). congruence.
      * apply IH. lia.
    + apply IH. lia.
Qed.

(** ** Reading the page number *)

Lemma digit_char (c : ascii) (d : Z) :
  Str.digit_of c = Some d ->
  Ascii.eqb c Str.underscore = false /\ Str.is_space c = false /\
  Ascii.eqb "p" c = false /\ Ascii.eqb ">" c = false /\
  c <> "+"%char /\ c <> "-"%char.
Proof.
  destruct c as [[] [] [] [] [] [] [] []]; intros Hd; vm_compute in Hd;
    try discriminate Hd; repeat split; try reflexivity; discriminate.
Qed.

Lemma scan_all_digits (s : string) :
  all_digits s = true ->
  forall acc count,
    Str.scan_digits s false acc count
    = Some (decimal_value acc s, (count + String.length s)%nat, EmptyString).
Proof.
  induction s as [| c s IH]; intros Hall acc count;
    cbn [Str.scan_digits decimal_value String.length].
  - now rewrite Nat.add_0_r.
  - cbn [all_digits] in Hall. destruct (Str.digit_of c) as [d |] eqn:Hd;
      [| discriminate].
    destruct (digit_char c d Hd) as (-> & _).
    rewrite (IH Hall). now rewrite Nat.add_succ_r.
Qed.

Lemma int_of_unsigned (c : ascii) (s : string) :
  Str.is_space c = false -> c <> "+"%char -> c <> "-"%char ->
  Str.int (String c s) = Str.unsigned_int (String c s).
Proof.
  intros Hspace Hplus Hminus. unfold Str.int. cbn [Str.lstrip]. rewrite Hspace.
  destruct c as [[] [] [] [] [] [] [] []]; try reflexivity; congruence.
Qed.

(** [int] of a string of digits, within the limit on their number, is
    the number they write. *)
Lemma int_of_digits (ds : string) :
  all_digits ds = true -> ds <> EmptyString ->
  (String.length ds <= Str.max_str_digits)%nat ->
  Str.int ds = Ret (decimal_value 0 ds).
Proof.
  intros Hall Hne Hmax. destruct ds as [| c s]; [contradiction |].
  assert (Hd : exists d, Str.digit_of c = Some d).
  { cbn [all_digits] in Hall. destruct (Str.digit_of c) as [d |];
      [now exists d | discriminate]. }
  destruct Hd as [d Hd].
  destruct (digit_char c d Hd) as (Hus & Hspace & _ & _ & Hplus & Hminus).
  rewrite (int_of_unsigned c s Hspace Hplus Hminus).
  unfold Str.unsigned_int. rewrite Hus, (scan_all_digits _ Hall).
  cbn [Nat.add String.length Str.lstrip] in *.
  apply Nat.ltb_ge in Hmax. now rewrite Hmax.
Qed.

Lemma contains_page_skip (c : ascii) (s : string) :
  Ascii.eqb "p" c = false ->
  Str.contains "page=" (String c s) = Str.contains "page=" s.
Proof.
  intros Hc. cbn [Str.contains String.prefix].
  destruct (ascii_dec "p" c) as [<- | _]; [discriminate Hc | reflexivity].
Qed.

Lemma digits_then_mark (ds post : string) :
  all_digits ds = true ->
  Str.contains "page=" (ds ++ String ">" post)%string = Str.contains "page=" post /\
  has_char ">" ds = false.
Proof.
  induction ds as [| c ds IH]; intros Hall; cbn [String.append has_char].
  - split; [now apply contains_page_skip | reflexivity].
  - cbn [all_digits] in Hall. destruct (Str.digit_of c) as [d |] eqn:Hd;
      [| discriminate].
    destruct (digit_char c d Hd) as (_ & _ & Hp & Hgt & _).
    destruct (IH Hall) as [Hcontains Hnone].
    rewrite (contains_page_skip c _ Hp), Hgt. now split.
Qed.

Lemma page_number_digits (pre ds post : string) :
  all_digits ds = true -> ds <> EmptyString ->
  (String.length ds <= Str.max_str_digits)%nat ->
  Str.contains "page=" post = false ->
  page_number (pre ++ "page=" ++ ds ++ String ">" post)%string
  = Ret (decimal_value 0 ds).
Proof.
  intros Hall Hne Hmax Hpost. unfold page_number, Str.split.
  destruct (digits_then_mark ds post Hall) as [Hcontains Hnone].
  rewrite split_go_last_page by (now rewrite Hcontains) || lia.
  rewrite (split_go_char ">" ds post Hnone). cbn [hd String.append].
  now apply int_of_digits.
Qed.



(** X13: the count read from a last-page link is the number written after the
    last [page=] of the part, up to the next [>], whatever comes before,
    a [per_page=] included. *)
Theorem page_number_of_link (pre ds post : string) :
  all_digits ds = true -> ds <> EmptyString ->
  (String.length ds <= Str.max_str_digits)%nat ->
  Str.contains "page=" post = false ->
  page_number (pre ++ "page=" ++ ds ++ String ">" post)%string
  = Ret (decimal_value 0 ds).
Proof.
  intros Hall Hne Hmax Hpost. unfold page_number, Str.split.
  destruct (digits_then_mark ds post Hall) as [Hcontains Hnone].
  rewrite split_go_last_page by (now rewrite Hcontains) || lia.
  rewrite (split_go_char ">" ds post Hnone). cbn [hd String.append].
  now apply int_of_digits.
Qed.

Lemma page_number_of_link_witness :
  let pre := "<https://api.github.com/repositories/1300192/commits?per_page=1&" in
  let post := ("; rel=" ++ quoted "last")%string in
  all_digits "37" = true /\ "37" <> EmptyString /\
  (String.length "37" <= Str.max_str_digits)%nat /\
  Str.contains "page=" post = false /\
  page_number (pre ++ "page=" ++ "37" ++ String ">" post)%string = Ret 37.
Proof.
  cbv zeta.
  assert (Hne : "37" <> EmptyString) by discriminate.
  assert (Hmax : (String.length "37" <= Str.max_str_digits)%nat)
    by (unfold Str.max_str_digits; cbn [String.length]; lia).
  split; [reflexivity |]. split; [exact Hne |]. split; [exact Hmax |].
  split; [reflexivity |].
  exact (page_number_of_link
           "<https://api.github.com/repositories/1300192/commits?per_page=1&"
           "37" ("; rel=" ++ quoted "last")%string eq_refl Hne Hmax eq_refl).
Defined.

(** A link whose URL names the page before the page size: the number
    read is the page size. *)
Example page_number_reads_last_parameter :
  page_number
    ("<https://api.github.com/repositories/1300192/commits?page=37&per_page=1>; rel="
     ++ quoted "last")%string
  = Ret 1.
Proof. reflexivity. Qed.

(** X14: a successful response whose [Link] header has two parts, the second
    one the last-page link: the count is the number that link writes
    after its last [page=]. *)
Theorem commit_count_of_two_links (r : response) (first pre ds post : string) :
  let part := (" " ++ pre ++ "page=" ++ ds ++ String ">" post)%string in
  status_code r = 200 ->
  link_header r = Some (first ++ String "," part)%string ->
  has_char "," first = false -> Str.contains rel_last first = false ->
  has_char "," part = false -> Str.contains rel_last part = true ->
  all_digits ds = true -> ds <> EmptyString ->
  (String.length ds <= Str.max_str_digits)%nat ->
  Str.contains "page=" post = false ->
  commit_count_of_response r = Ret (decimal_value 0 ds).
Proof.
  intros part Hs Hl Hfirst Hnolast Hpart Hlast Hall Hne Hmax Hpost.
  rewrite (commit_count_of_link r _ Hs Hl). unfold Str.split.
  rewrite (split_go_char "," first part Hfirst).
  rewrite (split_go_char_none "," part Hpart).
  cbn [String.append last_page]. rewrite Hnolast.
  change (String " " (pre ++ "page=" ++ ds ++ String ">" post)%string) with part.
  rewrite Hlast. subst part.
  change (" " ++ pre ++ "page=" ++ ds ++ String ">" post)%string
    with ((" " ++ pre) ++ "page=" ++ ds ++ String ">" post)%string.
  now rewrite page_number_digits.
Qed.

Lemma commit_count_of_two_links_witness :
  commit_count_of_response
    {| status_code := 200; link_header := Some github_link;
       json_body := Some (JArray [JObject []]) |} = Ret 37.
Proof.
  refine (commit_count_of_two_links
            {| status_code := 200; link_header := Some github_link;
               json_body := Some (JArray [JObject []]) |}
            ("<https://api.github.com/repositories/1300192/commits?per_page=1&page=2>; rel="
             ++ quoted "next")%string
            "<https://api.github.com/repositories/1300192/commits?per_page=1&"
            "37" ("; rel=" ++ quoted "last")%string
            eq_refl eq_refl eq_refl eq_refl eq_refl eq_refl eq_refl _ _ eq_refl).
  - discriminate.
  - unfold Str.max_str_digits. cbn [String.length]. lia.
Defined.

(** ** The script *)

Section ScriptFacts.

Variable World : Type.
Variable getenv : string -> option string.
Variable http_post : option string -> World -> post_result * World.
Variable http_get : string -> World -> get_result * World.
Variable file_write : string -> svg -> World -> outcome unit * World.

(** X15: the account is [GH_USERNAME] when that variable is set, whatever it
    holds; otherwise the text of [GITHUB_REPOSITORY] before its first
    slash, all of it when there is no slash, and the empty string when
    neither variable is set. *)
Theorem username_resolution :
  (forall u, getenv "GH_USERNAME" = Some u -> USERNAME getenv = u) /\
  (forall owner repo_name,
      getenv "GH_USERNAME" = None ->
      getenv "GITHUB_REPOSITORY" = Some (owner ++ String "/" repo_name)%string ->
      has_char "/" owner = false ->
      USERNAME getenv = owner) /\
  (forall slug,
      getenv "GH_USERNAME" = None ->
      getenv "GITHUB_REPOSITORY" = Some slug ->
      has_char "/" slug = false ->
      USERNAME getenv = slug) /\
  (getenv "GH_USERNAME" = None -> getenv "GITHUB_REPOSITORY" = None ->
   USERNAME getenv = EmptyString).
Proof.
  unfold USERNAME. repeat split.
  - now intros u ->.
  - intros owner repo_name -> -> Hnone. unfold Str.split.
    now rewrite (split_go_char "/" owner repo_name Hnone).
  - intros slug -> -> Hnone. unfold Str.split.
    now rewrite (split_go_char_none "/" slug Hnone).
  - now intros -> ->.
Qed.

(** X16: without a token or without an account the script ends with exit
    status 1 before any request; and when the listing ends in an exception
    or an exit, that is the result of the script: no commit request is
    made and no file is written after it. *)
Theorem script_fatal (fuel : nat) (w : World) :
  (TOKEN getenv = None \/ TOKEN getenv = Some EmptyString
   \/ USERNAME getenv = EmptyString ->
   script World getenv http_post http_get file_write fuel w
   = Some (Raise (SystemExit 1), w)) /\
  (forall token e w1,
      TOKEN getenv = Some token -> token <> EmptyString ->
      USERNAME getenv <> EmptyString ->
      fetch_repositories World http_post fuel w = Some (Raise e, w1) ->
      script World getenv http_post http_get file_write fuel w
      = Some (Raise e, w1)).
Proof.
  unfold script, is_empty. split.
  - intros [-> | [-> | Huser]]; try reflexivity.
    destruct (TOKEN getenv) as [token |]; [| reflexivity].
    destruct (String.eqb token EmptyString); [reflexivity |].
    now rewrite Huser.
  - intros token e w1 -> Htoken Huser Hlist.
    apply String.eqb_neq in Htoken, Huser. rewrite Htoken, Huser.
    unfold main. now rewrite Hlist.
Qed.

(** X17: a script that returns normally has had a token and an account, a
    listing that succeeded, a commit-weighted tally computed to the end,
    and has written to the output file the charts of the two tallies cut
    to their top entries. *)
Theorem script_success (fuel : nat) (w w' : World) :
  script World getenv http_post http_get file_write fuel w = Some (Ret tt, w') ->
  exists token repos w1 activity w2 repo_paths act_paths,
    TOKEN getenv = Some token /\ token <> EmptyString /\
    USERNAME getenv <> EmptyString /\
    fetch_repositories World http_post fuel w = Some (Ret repos, w1) /\
    commit_weighted_languages World http_get repos w1 = (Ret activity, w2) /\
    pie_paths (top_n_with_other (languages_by_repo_count repos))
              280 160 88 56 REPO_COLORS = Ret repo_paths /\
    pie_paths (top_n_with_other activity) 680 160 88 56 ACTIVITY_COLORS
    = Ret act_paths /\
    file_write OUTPUT_FILE
               {| svg_repo_paths := repo_paths; svg_act_paths := act_paths |} w2
    = (Ret tt, w').
Proof.
  unfold script, is_empty, main, render_combined.
  destruct (TOKEN getenv) as [token |]; [| discriminate].
  destruct (String.eqb token EmptyString) eqn:Htoken; [discriminate |].
  destruct (String.eqb (USERNAME getenv) EmptyString) eqn:Huser; [discriminate |].
  destruct (fetch_repositories World http_post fuel w) as [[[repos | e] w1] |];
    try discriminate.
  destruct (commit_weighted_languages World http_get repos w1)
    as [[activity | e] w2] eqn:Hact; [| discriminate].
  destruct (pie_paths (top_n_with_other (languages_by_repo_count repos))
                      280 160 88 56 REPO_COLORS) as [repo_paths | e] eqn:Hrepo;
    [| discriminate].
  destruct (pie_paths (top_n_with_other activity) 680 160 88 56 ACTIVITY_COLORS)
    as [act_paths | e] eqn:Hchart; [| discriminate].
  intros [= Hwrite].
  exists token, repos, w1, activity, w2, repo_paths, act_paths.
  apply String.eqb_neq in Htoken, Huser.
  repeat split; try assumption; reflexivity.
Qed.

(** X18: each chart has at most N+1 slices, labelled in order with the
    entries of its tally cut to the top; when a chart cannot be computed,
    nothing is written. *)
Theorem render_combined_charts (repo_data activity_data : Dict.t) (w : World) :
  (exists e,
      render_combined World file_write repo_data activity_data w = (Raise e, w)) \/
  exists content,
    render_combined World file_write repo_data activity_data w
    = file_write OUTPUT_FILE content w /\
    (List.length (svg_repo_paths content) <= TOP_N + 1)%nat /\
    (List.length (svg_act_paths content) <= TOP_N + 1)%nat /\
    map slice_label (svg_repo_paths content)
    = map fst (top_n_with_other repo_data) /\
    map slice_label (svg_act_paths content)
    = map fst (top_n_with_other activity_data).
Proof.
  assert (Hbound : forall data, (List.length (top_n_with_other data) <= TOP_N + 1)%nat).
  { intros data. pose proof (top_length data).
    destruct (top_n_with_other_shape data) as [[_ ->] | [_ ->]];
      [rewrite length_app; cbn [List.length] |]; lia. }
  unfold render_combined.
  destruct (pie_paths (top_n_with_other repo_data) 280 160 88 56 REPO_COLORS)
    as [repo_paths | e] eqn:Hrepo; [| left; now exists e].
  destruct (pie_paths (top_n_with_other activity_data) 680 160 88 56
                      ACTIVITY_COLORS) as [act_paths | e] eqn:Hact;
    [| left; now exists e].
  right. eexists. split; [reflexivity |]. cbn [svg_repo_paths svg_act_paths].
  destruct (pie_loop_labels _ _ _ _ _ _ _ _ _ _ Hrepo) as [Hlr _].
  destruct (pie_loop_labels _ _ _ _ _ _ _ _ _ _ Hact) as [Hla _].
  rewrite (pie_loop_length _ _ _ _ _ _ _ _ _ _ Hrepo).
  rewrite (pie_loop_length _ _ _ _ _ _ _ _ _ _ Hact).
  repeat split; try apply Hbound; assumption.
Qed.

End ScriptFacts.

Lemma username_resolution_witness :
  let getenv (var : string) :=
    if String.eqb var "GITHUB_REPOSITORY" then Some "iuliavisan/iuliavisan"
    else None in
  getenv "GH_USERNAME" = None /\
  getenv "GITHUB_REPOSITORY" = Some ("iuliavisan" ++ String "/" "iuliavisan")%string /\
  has_char "/" "iuliavisan" = false /\
  USERNAME getenv = "iuliavisan".
Proof.
  cbv zeta. split; [reflexivity |]. split; [reflexivity |]. split; [reflexivity |].
  exact (proj1 (proj2 (username_resolution
                         (fun var => if String.eqb var "GITHUB_REPOSITORY"
                                     then Some "iuliavisan/iuliavisan" else None)))
               "iuliavisan" "iuliavisan" eq_refl eq_refl eq_refl).
Defined.

Lemma script_fatal_witness :
  let no_env (var : string) : option string := None in
  TOKEN no_env = None /\
  script Scripted.World no_env Scripted.http_post Scripted.failing_get
         Scripted.file_write 1 O = Some (Raise (SystemExit 1), O) /\
  exit_status (@Raise unit (SystemExit 1)) = 1.
Proof.
  cbv zeta. split; [reflexivity |]. split; [| reflexivity].
  exact (proj1 (script_fatal Scripted.World (fun _ => None) Scripted.http_post
                             Scripted.failing_get Scripted.file_write 1 O)
               (or_introl eq_refl)).
Defined.

Lemma script_success_witness :
  script Scripted.World Scripted.getenv Scripted.http_post Scripted.failing_get
         Scripted.file_write 1 O = Some (Ret tt, 4%nat) /\
  exists token repos w1 activity w2 repo_paths act_paths,
    TOKEN Scripted.getenv = Some token /\ token <> EmptyString /\
    USERNAME Scripted.getenv <> EmptyString /\
    fetch_repositories Scripted.World Scripted.http_post 1 O
    = Some (Ret repos, w1) /\
    commit_weighted_languages Scripted.World Scripted.failing_get repos w1
    = (Ret activity, w2) /\
    pie_paths (top_n_with_other (languages_by_repo_count repos))
              280 160 88 56 REPO_COLORS = Ret repo_paths /\
    pie_paths (top_n_with_other activity) 680 160 88 56 ACTIVITY_COLORS
    = Ret act_paths /\
    Scripted.file_write OUTPUT_FILE
      {| svg_repo_paths := repo_paths; svg_act_paths := act_paths |} w2
    = (Ret tt, 4%nat).
Proof.
  assert (Hrun : script Scripted.World Scripted.getenv Scripted.http_post
                        Scripted.failing_get Scripted.file_write 1 O
                 = Some (Ret tt, 4%nat)) by (vm_compute; reflexivity).
  split; [exact Hrun |].
  exact (script_success Scripted.World Scripted.getenv Scripted.http_post
                        Scripted.failing_get Scripted.file_write 1 O 4%nat Hrun).
Defined.

(** ** The listing *)

Lemma fetch_pages_from (pages : list repositories_page) :
  forall (last : repositories_page) (more : list post_result) fuel repos cursor log,
    (forall p, In p pages -> hasNextPage (pageInfo p) = true) ->
    hasNextPage (pageInfo last) = false ->
    (List.length pages < fuel)%nat ->
    fetch_repositories_from Paged.state Paged.http_post fuel repos cursor
      {| Paged.pending := map Paged.page (pages ++ [last]) ++ more;
         Paged.cursors := log |}
    = Some (Ret (repos ++ List.concat (map nodes (pages ++ [last]))),
            {| Paged.pending := more;
               Paged.cursors :=
                 log ++ cursor :: map (fun p => endCursor (pageInfo p)) pages |}).
Proof.
  induction pages as [| p pages IH];
    intros last more fuel repos cursor log Hnext Hlast Hfuel;
    (destruct fuel as [| fuel]; [cbn [List.length] in Hfuel; lia |]).
  - cbn. rewrite Hlast. cbn. now rewrite app_nil_r.
  - cbn [app map fetch_repositories_from].
    unfold Paged.http_post at 1. cbn [Paged.pending Paged.cursors Paged.page].
    cbn [post_status_code post_json errors repositories Z.eqb Pos.eqb negb].
    rewrite (Hnext p (or_introl eq_refl)). cbn [negb].
    rewrite (IH last more fuel _ _ _ (fun q Hq => Hnext q (or_intror Hq)) Hlast)
      by (cbn [List.length] in Hfuel; lia).
    cbn [List.concat map]. now rewrite <- !app_assoc.
Qed.

(** X19: against a server that answers page after page, the listing asks
    first without a cursor and then with the end cursor of the page
    before, stops at the first page that announces no next page, and
    returns the repositories of all pages in the order received. *)
Theorem fetch_repositories_pages (pages : list repositories_page)
        (last : repositories_page) (more : list post_result) (fuel : nat) :
  (forall p, In p pages -> hasNextPage (pageInfo p) = true) ->
  hasNextPage (pageInfo last) = false ->
  (List.length pages < fuel)%nat ->
  fetch_repositories Paged.state Paged.http_post fuel
    {| Paged.pending := map Paged.page (pages ++ [last]) ++ more;
       Paged.cursors := [] |}
  = Some (Ret (List.concat (map nodes (pages ++ [last]))),
          {| Paged.pending := more;
             Paged.cursors :=
               None :: map (fun p => endCursor (pageInfo p)) pages |}).
Proof.
  intros Hnext Hlast Hfuel. unfold fetch_repositories.
  now rewrite (fetch_pages_from pages last more fuel [] None [] Hnext Hlast Hfuel).
Qed.

Lemma fetch_fatal_from (pages : list repositories_page) :
  forall (bad : post_result) (more : list post_result) fuel repos cursor log,
    (forall p, In p pages -> hasNextPage (pageInfo p) = true) ->
    Paged.fatal bad ->
    (List.length pages < fuel)%nat ->
    fetch_repositories_from Paged.state Paged.http_post fuel repos cursor
      {| Paged.pending := map Paged.page pages ++ bad :: more;
         Paged.cursors := log |}
    = Some (Raise (SystemExit 1),
            {| Paged.pending := more;
               Paged.cursors :=
                 log ++ cursor :: map (fun p => endCursor (pageInfo p)) pages |}).
Proof.
  induction pages as [| p pages IH];
    intros bad more fuel repos cursor log Hnext Hbad Hfuel;
    (destruct fuel as [| fuel]; [cbn [List.length] in Hfuel; lia |]).
  - destruct Hbad as (resp & -> & [Hstatus | (data & Hstatus & Hjson & Herr)]).
    + cbn. apply Z.eqb_neq in Hstatus. now rewrite Hstatus.
    + cbn. rewrite Hstatus, Hjson, Herr. reflexivity.
  - cbn [app map fetch_repositories_from].
    unfold Paged.http_post at 1. cbn [Paged.pending Paged.cursors Paged.page].
    cbn [post_status_code post_json errors repositories Z.eqb Pos.eqb negb].
    rewrite (Hnext p (or_introl eq_refl)). cbn [negb].
    rewrite (IH bad more fuel _ _ _ (fun q Hq => Hnext q (or_intror Hq)) Hbad)
      by (cbn [List.length] in Hfuel; lia).
    cbn [map]. now rewrite <- !app_assoc.
Qed.

(** X20: an answer with a status other than 200, or with protocol errors,
    ends the listing with [sys.exit(1)] on whatever page it comes: the
    repositories of the pages before it are not returned, and no further
    request is made. *)
Theorem fetch_repositories_fatal (pages : list repositories_page)
        (bad : post_result) (more : list post_result) (fuel : nat) :
  (forall p, In p pages -> hasNextPage (pageInfo p) = true) ->
  Paged.fatal bad ->
  (List.length pages < fuel)%nat ->
  fetch_repositories Paged.state Paged.http_post fuel
    {| Paged.pending := map Paged.page pages ++ bad :: more;
       Paged.cursors := [] |}
  = Some (Raise (SystemExit 1),
          {| Paged.pending := more;
             Paged.cursors :=
               None :: map (fun p => endCursor (pageInfo p)) pages |}).
Proof.
  intros Hnext Hbad Hfuel. unfold fetch_repositories.
  now rewrite (fetch_fatal_from pages bad more fuel [] None [] Hnext Hbad Hfuel).
Qed.

Lemma fetch_repositories_pages_witness :
  let first := {| pageInfo := {| hasNextPage := true; endCursor := Some "Y3Vyc29yOjEwMA" |};
                  nodes := firstn 2 Scripted.repos |} in
  let last := {| pageInfo := {| hasNextPage := false; endCursor := None |};
                 nodes := skipn 2 Scripted.repos |} in
  (forall p, In p [first] -> hasNextPage (pageInfo p) = true) /\
  hasNextPage (pageInfo last) = false /\
  fetch_repositories Paged.state Paged.http_post 2
    {| Paged.pending := map Paged.page ([first] ++ [last]) ++ [];
       Paged.cursors := [] |}
  = Some (Ret Scripted.repos,
          {| Paged.pending := [];
             Paged.cursors := [None; Some "Y3Vyc29yOjEwMA"] |}).
Proof.
  cbv zeta.
  assert (Hnext : forall p,
             In p [{| pageInfo := {| hasNextPage := true;
                                     endCursor := Some "Y3Vyc29yOjEwMA" |};
                      nodes := firstn 2 Scripted.repos |}] ->
             hasNextPage (pageInfo p) = true)
    by (intros p [<- | []]; reflexivity).
  split; [exact Hnext |]. split; [reflexivity |].
  exact (fetch_repositories_pages
           [{| pageInfo := {| hasNextPage := true;
                              endCursor := Some "Y3Vyc29yOjEwMA" |};
               nodes := firstn 2 Scripted.repos |}]
           {| pageInfo := {| hasNextPage := false; endCursor := None |};
              nodes := skipn 2 Scripted.repos |}
           [] 2 Hnext eq_refl ltac:(cbn [List.length]; lia)).
Defined.

Lemma fetch_repositories_fatal_witness :
  let first := {| pageInfo := {| hasNextPage := true; endCursor := Some "Y3Vyc29yOjEwMA" |};
                  nodes := Scripted.repos |} in
  let bad := PostResponse {| post_status_code := 502; post_json := Raise ValueError |} in
  (forall p, In p [first] -> hasNextPage (pageInfo p) = true) /\
  Paged.fatal bad /\
  fetch_repositories Paged.state Paged.http_post 5
    {| Paged.pending := map Paged.page [first] ++ bad :: [];
       Paged.cursors := [] |}
  = Some (Raise (SystemExit 1),
          {| Paged.pending := [];
             Paged.cursors := [None; Some "Y3Vyc29yOjEwMA"] |}).
Proof.
  cbv zeta.
  assert (Hnext : forall p,
             In p [{| pageInfo := {| hasNextPage := true;
                                     endCursor := Some "Y3Vyc29yOjEwMA" |};
                      nodes := Scripted.repos |}] ->
             hasNextPage (pageInfo p) = true)
    by (intros p [<- | []]; reflexivity).
  assert (Hbad : Paged.fatal
                   (PostResponse {| post_status_code := 502;
                                    post_json := Raise ValueError |})).
  { eexists. split; [reflexivity |]. left. discriminate. }
  split; [exact Hnext |]. split; [exact Hbad |].
  exact (fetch_repositories_fatal
           [{| pageInfo := {| hasNextPage := true;
                              endCursor := Some "Y3Vyc29yOjEwMA" |};
               nodes := Scripted.repos |}]
           _ [] 5 Hnext Hbad ltac:(cbn [List.length]; lia)).
Defined.

(** ** The legend *)

Lemma legend_loop_out {F : Type} (x y : Z) (items : list (slice F)) :
  forall i out,
    legend_loop x y i out items
    = (out ++ legend_loop x y i EmptyString items)%string.
Proof.
  induction items as [| item items IH]; intros i out; cbn [legend_loop].
  - now rewrite append_nil_r.
  - set (r := legend_rect x (y + Z.of_nat i * 20) (slice_color item)).
    set (t := legend_text x (y + Z.of_nat i * 20) (slice_label item)
                          (slice_pct item)).
    rewrite (IH (S i) ((out ++ r) ++ t)%string).
    rewrite (IH (S i) ((EmptyString ++ r) ++ t)%string).
    cbn [String.append]. now rewrite !append_assoc.
Qed.

Lemma legend_loop_shift {F : Type} (x y : Z) (items : list (slice F)) :
  forall i n,
    legend_loop x y (n + i) EmptyString items
    = legend_loop x (y + 20 * Z.of_nat n) i EmptyString items.
Proof.
  induction items as [| item items IH]; intros i n; cbn [legend_loop];
    [reflexivity |].
  replace (y + Z.of_nat (n + i) * 20) with (y + 20 * Z.of_nat n + Z.of_nat i * 20)
    by lia.
  rewrite legend_loop_out. rewrite (legend_loop_out _ (y + 20 * Z.of_nat n)).
  f_equal. replace (S (n + i)) with (n + S i)%nat by lia. apply IH.
Qed.

(** X21: the legend is the rows of the slices one after the other, a
    rectangle and a text each, the first at height [y] and each next one
    20 lower; so the legend of two lists put together is the legend of
    the first followed by the legend of the second begun lower by 20 for
    each slice of the first. *)
Theorem legend_svg_rows {F : Type} (x y : Z) :
  legend_svg x y (@nil (slice F)) = EmptyString /\
  (forall (item : slice F) rest,
      legend_svg x y (item :: rest)
      = (legend_rect x y (slice_color item)
         ++ legend_text x y (slice_label item) (slice_pct item)
         ++ legend_svg x (y + 20) rest)%string) /\
  (forall items more : list (slice F),
      legend_svg x y (items ++ more)
      = (legend_svg x y items
         ++ legend_svg x (y + 20 * Z.of_nat (List.length items)) more)%string).
Proof.
  assert (Hcons : forall (yy : Z) (item : slice F) rest,
             legend_svg x yy (item :: rest)
             = (legend_rect x yy (slice_color item)
                ++ legend_text x yy (slice_label item) (slice_pct item)
                ++ legend_svg x (yy + 20) rest)%string).
  { intros yy item rest. unfold legend_svg. cbn [legend_loop].
    rewrite legend_loop_out.
    pose proof (legend_loop_shift x yy rest 0 1) as Hshift.
    cbn [Nat.add] in Hshift. rewrite Hshift.
    replace (yy + 20 * Z.of_nat 1) with (yy + 20) by lia.
    replace (yy + Z.of_nat 0 * 20) with yy by lia.
    cbn [String.append]. now rewrite append_assoc. }
  split; [reflexivity |]. split; [apply Hcons |].
  intros items. revert y.
  induction items as [| item items IH]; intros y more.
  - cbn [app List.length Z.of_nat]. replace (y + 20 * 0) with y by lia.
    reflexivity.
  - cbn [app]. rewrite !Hcons, IH, !append_assoc. do 4 f_equal.
    cbn [List.length]. lia.
Qed.

(** * Binary64 arithmetic *)

(** The operations of the primitive floats are specified by the functions
    of [SpecFloat] on mantissas and exponents ([mul_spec], [add_spec]).
    This part derives from that specification what the analysis of
    [pie_paths] needs: the result of a multiplication, of an addition and
    of the division of two [int]s is the real result up to a relative
    error of [2^-53] ([2^-52] for the division) and an absolute one of
    [2^-1075], as long as the real result is below [2^1023]. *)

(** ** Shifting and rounding a mantissa *)

Lemma iter_pos_nat {A : Type} (f : A -> A) (p : positive) (x : A) :
  SpecFloat.iter_pos f p x = Nat.iter (Pos.to_nat p) f x.
Proof.
  revert x. induction p as [p IH | p IH |]; intros x; cbn [SpecFloat.iter_pos].
  - rewrite !IH. rewrite Pos2Nat.inj_xI.
    replace (S (2 * Pos.to_nat p))%nat with (Pos.to_nat p + (Pos.to_nat p + 1))%nat by lia.
    rewrite !Nat.iter_add. reflexivity.
  - rewrite !IH. rewrite Pos2Nat.inj_xO.
    replace (2 * Pos.to_nat p)%nat with (Pos.to_nat p + Pos.to_nat p)%nat by lia.
    now rewrite Nat.iter_add.
  - reflexivity.
Qed.

Lemma shr_1_spec (m : Z) (r s : bool) :
  0 <= m ->
  shr_1 {| shr_m := m; shr_r := r; shr_s := s |}
  = {| shr_m := m / 2; shr_r := Z.odd m; shr_s := r || s |}.
Proof.
  intros Hm. destruct m as [| p | p]; [reflexivity | | lia].
  destruct p as [p | p |]; cbn [shr_1].
  - assert (H : Z.pos p~1 / 2 = Z.pos p)
      by (rewrite Pos2Z.inj_xI; symmetry; apply (Z.div_unique _ 2 _ 1); lia).
    now rewrite H.
  - assert (H : Z.pos p~0 / 2 = Z.pos p)
      by (rewrite Pos2Z.inj_xO; symmetry; apply (Z.div_unique _ 2 _ 0); lia).
    now rewrite H.
  - reflexivity.
Qed.

Lemma odd_mod2 (a : Z) : Z.odd a = (a mod 2 =? 1).
Proof. rewrite (Zmod_odd a). now destruct (Z.odd a). Qed.

(** The mantissa, the round bit and the sticky bit after [k + 1] shifts. *)
Lemma shr_iter (m0 : Z) (k : nat) :
  0 <= m0 ->
  Nat.iter (S k) shr_1 {| shr_m := m0; shr_r := false; shr_s := false |}
  = {| shr_m := m0 / 2 ^ Z.of_nat (S k);
       shr_r := Z.odd (m0 / 2 ^ Z.of_nat k);
       shr_s := negb (m0 mod 2 ^ Z.of_nat k =? 0) |}.
Proof.
  intros Hm. induction k as [| k IH].
  - cbn [Nat.iter]. rewrite shr_1_spec by exact Hm.
    change (Z.of_nat 0) with 0. change (Z.of_nat 1) with 1.
    rewrite Z.pow_0_r, Z.pow_1_r, Z.div_1_r, Z.mod_1_r. reflexivity.
  - change (Nat.iter (S (S k)) shr_1 ?x) with (shr_1 (Nat.iter (S k) shr_1 x)).
    rewrite IH.
    assert (Hp : 0 < 2 ^ Z.of_nat k) by (apply Z.pow_pos_nonneg; lia).
    assert (Hp1 : 2 ^ Z.of_nat (S k) = 2 ^ Z.of_nat k * 2)
      by (rewrite Nat2Z.inj_succ, Z.pow_succ_r; lia).
    assert (Hp2 : 2 ^ Z.of_nat (S (S k)) = 2 ^ Z.of_nat (S k) * 2)
      by (rewrite (Nat2Z.inj_succ (S k)), Z.pow_succ_r; lia).
    rewrite shr_1_spec by (apply Z.div_pos; lia).
    assert (Hd : m0 / 2 ^ Z.of_nat (S k) / 2 = m0 / 2 ^ Z.of_nat (S (S k)))
      by (rewrite Hp2, Z.div_div by lia; reflexivity).
    assert (Hs : Z.odd (m0 / 2 ^ Z.of_nat k) || negb (m0 mod 2 ^ Z.of_nat k =? 0)
                 = negb (m0 mod 2 ^ Z.of_nat (S k) =? 0)).
    { rewrite Hp1, Z.rem_mul_r by lia. rewrite odd_mod2.
      pose proof (Z.mod_pos_bound m0 (2 ^ Z.of_nat k) Hp).
      pose proof (Z.mod_pos_bound (m0 / 2 ^ Z.of_nat k) 2 ltac:(lia)).
      destruct (Z.eqb_spec (m0 mod 2 ^ Z.of_nat k) 0) as [E1 | E1];
        destruct (Z.eqb_spec ((m0 / 2 ^ Z.of_nat k) mod 2) 1) as [E2 | E2];
        cbn [negb orb]; symmetry.
      - apply negb_true_iff, Z.eqb_neq. rewrite E1, E2. lia.
      - apply negb_false_iff, Z.eqb_eq.
        replace ((m0 / 2 ^ Z.of_nat k) mod 2) with 0 by lia. lia.
      - apply negb_true_iff, Z.eqb_neq. nia.
      - apply negb_true_iff, Z.eqb_neq. nia. }
    now rewrite Hd, Hs.
Qed.

Lemma pow2_succ (d : Z) : 0 < d -> 2 ^ d = 2 * 2 ^ (d - 1).
Proof.
  intros Hd. replace d with (Z.succ (d - 1)) at 1 by lia.
  apply Z.pow_succ_r. lia.
Qed.

(** The number of binary digits of a mantissa. *)
Lemma digits2_pos_bounds (p : positive) :
  2 ^ (Z.pos (digits2_pos p) - 1) <= Z.pos p < 2 ^ Z.pos (digits2_pos p).
Proof.
  induction p as [p IH | p IH |]; cbn [digits2_pos].
  - rewrite Pos2Z.inj_succ, Pos2Z.inj_xI.
    set (d := Z.pos (digits2_pos p)) in *.
    rewrite (pow2_succ (Z.succ d)) by lia.
    replace (Z.succ d - 1) with d by lia.
    rewrite (pow2_succ d) in * by lia. lia.
  - rewrite Pos2Z.inj_succ. change (Z.pos p~0) with (2 * Z.pos p).
    set (d := Z.pos (digits2_pos p)) in *.
    rewrite (pow2_succ (Z.succ d)) by lia.
    replace (Z.succ d - 1) with d by lia.
    rewrite (pow2_succ d) in * by lia. lia.
  - cbn. lia.
Qed.

Lemma Zdigits2_bounds (m : Z) :
  0 < m -> 0 < Zdigits2 m /\ 2 ^ (Zdigits2 m - 1) <= m < 2 ^ Zdigits2 m.
Proof.
  destruct m as [| p | p]; try lia. intros _. cbn [Zdigits2].
  split; [lia | apply digits2_pos_bounds].
Qed.

Lemma Zdigits2_unique (m d : Z) :
  0 < d -> 2 ^ (d - 1) <= m < 2 ^ d -> Zdigits2 m = d.
Proof.
  intros Hd [Hlo Hhi].
  assert (Hm : 0 < m) by (pose proof (Z.pow_pos_nonneg 2 (d - 1)); lia).
  destruct (Zdigits2_bounds m Hm) as (Hpos & Hlo' & Hhi').
  destruct (Z.lt_trichotomy (Zdigits2 m) d) as [Hlt | [Heq | Hgt]]; [| exact Heq |].
  - assert (2 ^ Zdigits2 m <= 2 ^ (d - 1)) by (apply Z.pow_le_mono_r; lia). lia.
  - assert (2 ^ d <= 2 ^ (Zdigits2 m - 1)) by (apply Z.pow_le_mono_r; lia). lia.
Qed.

Lemma Zdigits2_0 : Zdigits2 0 = 0.
Proof. reflexivity. Qed.

Lemma rne_bounds (m k : Z) :
  0 <= m -> 0 <= k ->
  m / 2 ^ k <= rne m k <= m / 2 ^ k + 1 /\
  2 * Z.abs (rne m k * 2 ^ k - m) <= 2 ^ k.
Proof.
  intros Hm Hk. unfold rne. destruct (Z.eqb_spec k 0) as [-> | Hne].
  - rewrite Z.pow_0_r, Z.div_1_r. lia.
  - split.
    + unfold Binary64.round_half_even.
      destruct (0 <=? - k) eqn:E; [apply Z.leb_le in E; lia |].
      rewrite Z.opp_involutive.
      destruct (2 * (m mod 2 ^ k) ?= 2 ^ k); [destruct (Z.even _) | |]; lia.
    + pose proof (round_half_even_nearest m (- k) Hm ltac:(lia)) as H.
      now rewrite Z.opp_involutive in H.
Qed.

(** The first shift of [binary_round_aux], followed by rounding to
    nearest even: the mantissa that comes out is [rne]. *)
Lemma shr_fexp_exact (m e : Z) :
  0 <= m ->
  exists mrs,
    shr_fexp prec emax m e loc_Exact = (mrs, e + shift_of m e) /\
    shr_m mrs = m / 2 ^ shift_of m e /\
    round_nearest_even (shr_m mrs) (loc_of_shr_record mrs) = rne m (shift_of m e).
Proof.
  intros Hm. unfold shr_fexp, shift_of, shr. cbn [shr_record_of_loc].
  destruct (fexp prec emax (Zdigits2 m + e) - e) as [| p | p] eqn:En.
  - eexists. split; [f_equal; lia |]. cbn. rewrite Z.div_1_r. now split.
  - rewrite iter_pos_nat.
    destruct (Pos.to_nat p) as [| k] eqn:Ek; [lia |].
    rewrite (shr_iter m k Hm).
    assert (HkZ : Z.pos p = Z.of_nat (S k)) by lia.
    rewrite Z.max_r by lia. rewrite HkZ.
    eexists. split; [reflexivity |]. cbn [shr_m]. split; [reflexivity |].
    unfold rne. destruct (Z.eqb_spec (Z.of_nat (S k)) 0) as [E0 | _]; [lia |].
    unfold Binary64.round_half_even.
    destruct (0 <=? - Z.of_nat (S k)) eqn:E; [apply Z.leb_le in E; lia |].
    rewrite Z.opp_involutive.
    assert (Hp : 0 < 2 ^ Z.of_nat k) by (apply Z.pow_pos_nonneg; lia).
    assert (Hp1 : 2 ^ Z.of_nat (S k) = 2 ^ Z.of_nat k * 2)
      by (rewrite Nat2Z.inj_succ, Z.pow_succ_r; lia).
    assert (Hr2 : m mod 2 ^ Z.of_nat (S k)
                  = m mod 2 ^ Z.of_nat k
                    + 2 ^ Z.of_nat k * ((m / 2 ^ Z.of_nat k) mod 2))
      by (rewrite Hp1; apply Z.rem_mul_r; lia).
    pose proof (Z.mod_pos_bound m (2 ^ Z.of_nat k) Hp) as Hr.
    pose proof (Z.mod_pos_bound (m / 2 ^ Z.of_nat k) 2 ltac:(lia)) as Hb.
    rewrite odd_mod2. cbn [loc_of_shr_record shr_r shr_s].
    destruct (Z.eqb_spec ((m / 2 ^ Z.of_nat k) mod 2) 1) as [E2 | E2];
      destruct (Z.eqb_spec (m mod 2 ^ Z.of_nat k) 0) as [E1 | E1];
      cbn [negb round_nearest_even].
    + assert (Hc : (2 * (m mod 2 ^ Z.of_nat (S k)) ?= 2 ^ Z.of_nat (S k)) = Eq)
        by (apply Z.compare_eq_iff; lia).
      now rewrite Hc.
    + assert (Hc : (2 * (m mod 2 ^ Z.of_nat (S k)) ?= 2 ^ Z.of_nat (S k)) = Gt)
        by (apply Z.compare_gt_iff; lia).
      now rewrite Hc.
    + assert (Hc : (2 * (m mod 2 ^ Z.of_nat (S k)) ?= 2 ^ Z.of_nat (S k)) = Lt)
        by (apply Z.compare_lt_iff; lia).
      now rewrite Hc.
    + assert (Hc : (2 * (m mod 2 ^ Z.of_nat (S k)) ?= 2 ^ Z.of_nat (S k)) = Lt)
        by (apply Z.compare_lt_iff; lia).
      now rewrite Hc.
  - eexists. split; [f_equal; lia |]. rewrite Z.max_l by lia.
    cbn. rewrite Z.div_1_r. now split.
Qed.

Lemma fexp_eq (x : Z) : fexp prec emax x = Z.max (x - 53) (-1074).
Proof. reflexivity. Qed.

Lemma pow2_pos (k : Z) : 0 <= k -> 0 < 2 ^ k.
Proof. intros Hk. apply Z.pow_pos_nonneg; lia. Qed.

Lemma pow2_add (a b : Z) : 0 <= a -> 0 <= b -> 2 ^ (a + b) = 2 ^ a * 2 ^ b.
Proof. intros Ha Hb. now apply Z.pow_add_r. Qed.

Lemma pow2_le (a b : Z) : 0 <= a <= b -> 2 ^ a <= 2 ^ b.
Proof. intros H. apply Z.pow_le_mono_r; lia. Qed.

(** The quotient of a [d]-digit number by [2^k]. *)
Lemma div_pow2_bounds (m d k : Z) :
  0 <= k < d -> 2 ^ (d - 1) <= m < 2 ^ d ->
  2 ^ (d - k - 1) <= m / 2 ^ k < 2 ^ (d - k).
Proof.
  intros Hk [Hlo Hhi].
  pose proof (pow2_pos k ltac:(lia)) as Hp.
  split.
  - apply Z.div_le_lower_bound; [exact Hp |].
    rewrite <- pow2_add by lia. replace (k + (d - k - 1)) with (d - 1) by lia.
    exact Hlo.
  - apply Z.div_lt_upper_bound; [exact Hp |].
    rewrite <- pow2_add by lia. replace (k + (d - k)) with d by lia.
    exact Hhi.
Qed.

Lemma div_pow2_small (m d k : Z) :
  0 <= m < 2 ^ d -> 0 <= d <= k -> m / 2 ^ k = 0.
Proof.
  intros Hm Hk. apply Z.div_small.
  pose proof (pow2_le d k ltac:(lia)). lia.
Qed.

Lemma shift_of_eq (m e : Z) :
  shift_of m e = Z.max 0 (Z.max (Zdigits2 m + e - 53) (-1074) - e).
Proof. reflexivity. Qed.

(** The second shift of [binary_round_aux]: after rounding [m1] at the
    exponent [fe] of a [d]-digit number, at most one more digit is
    shifted out, exactly, and the result is canonical. *)
Lemma second_shift (m d e m1 : Z) :
  0 < d -> 2 ^ (d - 1) <= m < 2 ^ d ->
  let fe := Z.max (d + e - 53) (-1074) in
  e <= fe ->
  m / 2 ^ (fe - e) <= m1 <= m / 2 ^ (fe - e) + 1 ->
  exists k2,
    shift_of m1 fe = k2 /\ 0 <= k2 <= 1 /\
    m1 / 2 ^ k2 * 2 ^ k2 = m1 /\ 0 <= m1 / 2 ^ k2 /\
    (0 < m1 / 2 ^ k2 ->
     Z.max (Zdigits2 (m1 / 2 ^ k2) + (fe + k2) - 53) (-1074) = fe + k2).
Proof.
  intros Hd Hm fe Hpre Hm1.
  set (k1 := fe - e) in *.
  assert (Hk1 : 0 <= k1) by (unfold k1; lia).
  rewrite shift_of_eq.
  destruct (Z_lt_le_dec k1 d) as [Hlt | Hge].
  - (* some digits are kept *)
    destruct (div_pow2_bounds m d k1 ltac:(lia) Hm) as [Hq1 Hq2].
    pose proof (pow2_pos (d - k1 - 1) ltac:(lia)) as Hp.
    assert (Hpow : 2 ^ (d - k1) = 2 * 2 ^ (d - k1 - 1))
      by (apply pow2_succ; lia).
    destruct (Z_lt_le_dec m1 (2 ^ (d - k1))) as [Hsmall | Hbig].
    + assert (Hdig : Zdigits2 m1 = d - k1)
        by (apply Zdigits2_unique; lia).
      exists 0. rewrite Hdig. change (2 ^ 0) with 1.
      rewrite Z.div_1_r, Hdig.
      repeat split; try (unfold k1 in *; lia).
    + assert (Em1 : m1 = 2 ^ (d - k1)) by lia.
      assert (Hdig : Zdigits2 m1 = d - k1 + 1).
      { apply Zdigits2_unique; [lia |].
        replace (d - k1 + 1 - 1) with (d - k1) by lia.
        rewrite (pow2_succ (d - k1 + 1)) by lia.
        replace (d - k1 + 1 - 1) with (d - k1) by lia. lia. }
      destruct (Z_le_gt_dec (-1074) (d + e - 53)) as [Hnormal | Hsub].
      * exists 1. rewrite Hdig. change (2 ^ 1) with 2.
        assert (Ediv : m1 / 2 = 2 ^ (d - k1 - 1))
          by (rewrite Em1, Hpow, Z.mul_comm; apply Z.div_mul; lia).
        rewrite Ediv.
        assert (Hdig2 : Zdigits2 (2 ^ (d - k1 - 1)) = d - k1).
        { apply Zdigits2_unique; [lia |]. lia. }
        rewrite Hdig2.
        repeat split; try (unfold k1 in *; lia).
      * exists 0. rewrite Hdig. change (2 ^ 0) with 1.
        rewrite Z.div_1_r, Hdig.
        repeat split; try (unfold k1 in *; lia).
  - (* every digit is shifted out *)
    assert (Hq : m / 2 ^ k1 = 0)
      by (apply (div_pow2_small m d k1); lia).
    assert (Hfe : fe = -1074) by (unfold k1 in *; lia).
    assert (Hcases : m1 = 0 \/ m1 = 1) by lia.
    destruct Hcases as [-> | ->].
    + exists 0. rewrite Zdigits2_0. change (2 ^ 0) with 1.
      rewrite Z.div_1_r, Zdigits2_0.
      repeat split; try lia.
    + assert (Hdig : Zdigits2 1 = 1) by reflexivity.
      exists 0. rewrite Hdig. change (2 ^ 0) with 1.
      rewrite Z.div_1_r, Hdig.
      repeat split; try lia.
Qed.

(** [binary_round_aux] on a mantissa with no digit to spare: the result
    is a canonical mantissa [m2] at an exponent [e2], within half a unit
    of the format's exponent [fe] of the number rounded. *)
Lemma round_aux_spec (s : bool) (m e : Z) :
  0 < m -> e <= fexp prec emax (Zdigits2 m + e) ->
  let fe := fexp prec emax (Zdigits2 m + e) in
  exists m2 e2,
    0 <= m2 /\ fe <= e2 <= fe + 1 /\
    2 * Z.abs (m2 * 2 ^ (e2 - e) - m) <= 2 ^ (fe - e) /\
    (0 < m2 -> fexp prec emax (Zdigits2 m2 + e2) = e2) /\
    binary_round_aux prec emax s m e loc_Exact = result_of s m2 e2.
Proof.
  intros Hm Hpre fe.
  destruct (Zdigits2_bounds m Hm) as (Hd & Hbounds).
  unfold binary_round_aux.
  destruct (shr_fexp_exact m e ltac:(lia)) as (mrs1 & H1 & Hm1 & Hr1).
  rewrite H1, Hr1.
  assert (Hk1 : shift_of m e = fe - e) by (unfold shift_of; fold fe; lia).
  rewrite Hk1.
  assert (Hk1pos : 0 <= fe - e) by lia.
  replace (e + (fe - e)) with fe by lia.
  destruct (rne_bounds m (fe - e) ltac:(lia) Hk1pos) as [Hq Herr].
  set (m1 := rne m (fe - e)) in *.
  assert (Hm1nn : 0 <= m1).
  { pose proof (Z.div_pos m (2 ^ (fe - e)) ltac:(lia) (pow2_pos _ Hk1pos)). lia. }
  destruct (shr_fexp_exact m1 fe Hm1nn) as (mrs2 & H2 & Hm2 & _).
  rewrite H2, Hm2. clear H1 Hm1 Hr1 H2 Hm2 mrs1 mrs2.
  destruct (second_shift m (Zdigits2 m) e m1 Hd Hbounds Hpre Hq)
    as (k2 & Hk2 & Hk2b & Hexact & Hnn & Hcanon).
  change (Z.max (Zdigits2 m + e - 53) (-1074)) with fe in Hk2, Hcanon.
  rewrite Hk2.
  exists (m1 / 2 ^ k2), (fe + k2).
  split; [exact Hnn |]. split; [lia |]. split; [| split; [| reflexivity]].
  - replace (fe + k2 - e) with (k2 + (fe - e)) by lia.
    rewrite pow2_add by lia.
    replace (m1 / 2 ^ k2 * (2 ^ k2 * 2 ^ (fe - e))) with (m1 * 2 ^ (fe - e))
      by (rewrite <- Hexact at 1; ring).
    exact Herr.
  - intros Hpos. rewrite fexp_eq. apply Hcanon, Hpos.
Qed.

(** ** Real values *)

Lemma bpow_pos (e : Z) : (0 < bpow e)%R.
Proof. apply powerRZ_lt. lra. Qed.

Lemma bpow_add (a b : Z) : bpow (a + b) = (bpow a * bpow b)%R.
Proof. apply powerRZ_add. lra. Qed.

Lemma bpow_IZR (k : Z) : 0 <= k -> bpow k = IZR (2 ^ k).
Proof.
  intros Hk. unfold bpow. rewrite <- (Z2Nat.id k Hk).
  rewrite <- pow_powerRZ. now rewrite pow_IZR.
Qed.

Lemma bpow_ge_1 (k : Z) : 0 <= k -> (1 <= bpow k)%R.
Proof.
  intros Hk. rewrite (bpow_IZR k Hk). apply IZR_le.
  pose proof (pow2_pos k Hk). lia.
Qed.

Lemma bpow_le (a b : Z) : a <= b -> (bpow a <= bpow b)%R.
Proof.
  intros Hab. replace b with (a + (b - a)) by lia. rewrite bpow_add.
  pose proof (bpow_pos a). pose proof (bpow_ge_1 (b - a) ltac:(lia)). nra.
Qed.

Lemma bpow_lt_inv (a b : Z) : (bpow a < bpow b)%R -> a < b.
Proof.
  intros Hlt. destruct (Z_lt_le_dec a b) as [H | H]; [exact H |].
  pose proof (bpow_le b a H). lra.
Qed.

Lemma bpow_succ (a : Z) : bpow (a + 1) = (2 * bpow a)%R.
Proof. rewrite bpow_add. unfold bpow at 2. simpl. lra. Qed.

Lemma bpow_0 : bpow 0 = 1%R.
Proof. reflexivity. Qed.

Lemma pow2_lt_inv (a b : Z) : 0 <= b -> 2 ^ a < 2 ^ b -> a < b.
Proof.
  intros Hb Hlt. destruct (Z_lt_le_dec a b) as [H | H]; [exact H |].
  pose proof (pow2_le b a ltac:(lia)). lia.
Qed.

Lemma IZR_digits_lower (m : Z) :
  0 < m -> (bpow (Zdigits2 m - 1) <= IZR m)%R.
Proof.
  intros Hm. destruct (Zdigits2_bounds m Hm) as (Hd & Hlo & _).
  rewrite bpow_IZR by lia. now apply IZR_le.
Qed.

Lemma IZR_digits_upper (m : Z) :
  0 < m -> (IZR m < bpow (Zdigits2 m))%R.
Proof.
  intros Hm. destruct (Zdigits2_bounds m Hm) as (Hd & _ & Hhi).
  rewrite bpow_IZR by lia. now apply IZR_lt.
Qed.

(** From a bound on the value to a bound on the exponent. *)
Lemma digits_of_bound (m e b : Z) :
  0 < m -> (IZR m * bpow e < bpow b)%R -> Zdigits2 m + e <= b.
Proof.
  intros Hm Hlt.
  pose proof (IZR_digits_lower m Hm) as Hlo.
  pose proof (bpow_pos e) as He.
  assert (H : (bpow (Zdigits2 m - 1 + e) < bpow b)%R).
  { rewrite bpow_add. nra. }
  apply bpow_lt_inv in H. lia.
Qed.

(** Rounding to nearest, in the reals: the result is a float within half
    a unit in the last place of the number rounded. *)
Lemma round_aux_real (s : bool) (m e : Z) :
  0 < m -> e <= fexp prec emax (Zdigits2 m + e) -> Zdigits2 m + e <= 1023 ->
  let r := binary_round_aux prec emax s m e loc_Exact in
  let z := (IZR m * bpow e)%R in
  exists a : R,
    (0 <= a)%R /\
    (Rabs (a - z) <= bpow (-53) * z + bpow (-1075))%R /\
    valid_binary r = true /\ SF_finite r = true /\
    SF2R r = signed s a.
Proof.
  intros Hm Hpre Hmag r z.
  destruct (round_aux_spec s m e Hm Hpre) as (m2 & e2 & Hm2 & He2 & Herr & Hcanon & Hr).
  set (fe := fexp prec emax (Zdigits2 m + e)) in *.
  assert (Hfe : fe = Z.max (Zdigits2 m + e - 53) (-1074)) by apply fexp_eq.
  exists (IZR m2 * bpow e2)%R.
  pose proof (bpow_pos e2) as Hpe2. pose proof (bpow_pos e) as Hpe.
  split; [apply Rmult_le_pos; [now apply IZR_le | lra] |].
  split; [| unfold r; rewrite Hr; clear Hr r].
  - (* the error *)
    assert (Hz : (Rabs (IZR m2 * bpow e2 - z) <= bpow (fe - 1))%R).
    { apply IZR_le in Herr.
      rewrite mult_IZR, abs_IZR, minus_IZR, mult_IZR in Herr.
      rewrite <- !bpow_IZR in Herr by lia.
      replace (IZR m2 * bpow e2 - z)%R
        with ((IZR m2 * bpow (e2 - e) - IZR m) * bpow e)%R.
      2:{ unfold z. replace e2 with ((e2 - e) + e) at 2 by lia.
          rewrite bpow_add. ring. }
      rewrite Rabs_mult, (Rabs_pos_eq (bpow e)) by lra.
      replace (fe - 1) with ((fe - e - 1) + e) by lia. rewrite bpow_add.
      apply Rmult_le_compat_r; [lra |].
      replace (fe - e) with ((fe - e - 1) + 1) in Herr by lia.
      rewrite bpow_succ in Herr. lra. }
    eapply Rle_trans; [exact Hz |].
    pose proof (bpow_pos (-1075)).
    assert (Hzpos : (0 < z)%R)
      by (apply Rmult_lt_0_compat; [now apply IZR_lt | lra]).
    destruct (Z_le_gt_dec (-1074) (Zdigits2 m + e - 53)) as [Hn | Hs].
    + replace (fe - 1) with (-53 + (Zdigits2 m - 1 + e)) by lia.
      rewrite 2 bpow_add.
      pose proof (IZR_digits_lower m Hm).
      pose proof (bpow_pos (-53)). unfold z.
      assert ((bpow (-53) * (bpow (Zdigits2 m - 1) * bpow e)
               <= bpow (-53) * (IZR m * bpow e))%R).
      { apply Rmult_le_compat_l; [lra |].
        apply Rmult_le_compat_r; lra. }
      lra.
    + replace (fe - 1) with (-1075) by lia.
      pose proof (bpow_pos (-53)). nra.
  - assert (He971 : e2 <= 971) by lia.
    unfold result_of. destruct m2 as [| p | p]; [| | lia].
    + repeat split. cbn. destruct s; cbn; lra.
    + change (emax - prec) with 971.
      destruct (Z.leb_spec e2 971) as [_ | Hgt]; [| lia].
      split; [| split; [reflexivity |]].
      * unfold valid_binary. cbn [SpecFloat.valid_binary].
        unfold SpecFloat.bounded, canonical_mantissa.
        change (emax - prec) with 971.
        apply andb_true_intro. split; [| now apply Z.leb_le].
        apply Z.eqb_eq. apply (Hcanon ltac:(lia)).
      * cbn [SF2R]. destruct s; cbn [cond_Zopp signed].
        -- change (- Z.pos p) with (Z.opp (Z.pos p)). rewrite opp_IZR. ring.
        -- reflexivity.
Qed.

Lemma Zdigits2_mul_ge (a b : Z) :
  0 < a -> 0 < b -> Zdigits2 a + Zdigits2 b - 1 <= Zdigits2 (a * b).
Proof.
  intros Ha Hb.
  destruct (Zdigits2_bounds a Ha) as (Hda & Hla & _).
  destruct (Zdigits2_bounds b Hb) as (Hdb & Hlb & _).
  destruct (Zdigits2_bounds (a * b) ltac:(nia)) as (Hdab & _ & Hab).
  assert (Hprod : 2 ^ (Zdigits2 a - 1 + (Zdigits2 b - 1)) <= a * b).
  { rewrite pow2_add by lia.
    pose proof (pow2_pos (Zdigits2 a - 1) ltac:(lia)).
    pose proof (pow2_pos (Zdigits2 b - 1) ltac:(lia)). nia. }
  assert (Hlt : Zdigits2 a - 1 + (Zdigits2 b - 1) < Zdigits2 (a * b))
    by (apply pow2_lt_inv; lia).
  lia.
Qed.

Lemma bounded_spec (m : positive) (e : Z) :
  SpecFloat.bounded prec emax m e = true ->
  e = Z.max (Zdigits2 (Z.pos m) + e - 53) (-1074) /\ e <= 971.
Proof.
  unfold SpecFloat.bounded, canonical_mantissa. intros H.
  apply andb_prop in H. destruct H as [Hc He].
  apply Z.eqb_eq in Hc. apply Z.leb_le in He.
  rewrite fexp_eq in Hc. change (emax - prec) with 971 in He.
  cbn [Zdigits2]. lia.
Qed.

Lemma signed_sub (s : bool) (a z : R) :
  Rabs (signed s a - signed s z) = Rabs (a - z).
Proof.
  destruct s; cbn [signed]; [| reflexivity].
  replace (- a - - z)%R with (- (a - z))%R by ring. apply Rabs_Ropp.
Qed.

Lemma signed_abs (s : bool) (a : R) : (0 <= a)%R -> Rabs (signed s a) = a.
Proof.
  intros Ha. destruct s; cbn [signed].
  - rewrite Rabs_Ropp. now apply Rabs_pos_eq.
  - now apply Rabs_pos_eq.
Qed.

Lemma SF2R_finite (s : bool) (m : positive) (e : Z) :
  SF2R (S754_finite s m e) = signed s (IZR (Z.pos m) * bpow e).
Proof.
  cbn [SF2R]. destruct s; cbn [cond_Zopp signed]; [| reflexivity].
  change (- Z.pos m) with (Z.opp (Z.pos m)). rewrite opp_IZR. ring.
Qed.

Lemma signed_mul (s1 s2 : bool) (a b : R) :
  (signed s1 a * signed s2 b)%R = signed (xorb s1 s2) (a * b).
Proof. destruct s1, s2; cbn [signed xorb]; ring. Qed.

(** The product of two floats is the nearest float to the product of
    their values, as long as that is in range. *)
Lemma SFmul_real (x y : spec_float) :
  valid_binary x = true -> valid_binary y = true ->
  SF_finite x = true -> SF_finite y = true ->
  (Rabs (SF2R x * SF2R y) < bpow 1023)%R ->
  let r := SFmul prec emax x y in
  valid_binary r = true /\ SF_finite r = true /\
  (Rabs (SF2R r - SF2R x * SF2R y)
   <= bpow (-53) * Rabs (SF2R x * SF2R y) + bpow (-1075))%R.
Proof.
  intros Hvx Hvy Hfx Hfy Hlt r.
  pose proof (bpow_pos (-53)) as H53. pose proof (bpow_pos (-1075)) as H1075.
  assert (Hzero : forall a b : R, (a * b = 0 ->
            Rabs (0 - a * b) <= bpow (-53) * Rabs (a * b) + bpow (-1075))%R).
  { intros a b ->. rewrite Rminus_0_r, Rabs_R0. lra. }
  destruct x as [sx | sx | | sx mx ex]; try discriminate Hfx;
    destruct y as [sy | sy | | sy my ey]; try discriminate Hfy;
    try (subst r; cbn [SFmul SF2R]; repeat split; apply Hzero; ring).
  unfold valid_binary in Hvx, Hvy. cbn [SpecFloat.valid_binary] in Hvx, Hvy.
  destruct (bounded_spec mx ex Hvx) as [Hcx Hex].
  destruct (bounded_spec my ey Hvy) as [Hcy Hey].
  rewrite !SF2R_finite, signed_mul in *.
  set (z := (IZR (Z.pos mx) * bpow ex * (IZR (Z.pos my) * bpow ey))%R) in *.
  assert (Hz : z = (IZR (Z.pos (mx * my)) * bpow (ex + ey))%R).
  { unfold z. rewrite Pos2Z.inj_mul, mult_IZR, bpow_add. ring. }
  assert (Hznn : (0 <= z)%R).
  { unfold z. pose proof (bpow_pos ex). pose proof (bpow_pos ey).
    assert (0 < IZR (Z.pos mx))%R by (apply IZR_lt; lia).
    assert (0 < IZR (Z.pos my))%R by (apply IZR_lt; lia).
    apply Rmult_le_pos; apply Rmult_le_pos; lra. }
  rewrite (signed_abs _ z Hznn) in *.
  assert (Hmag : Zdigits2 (Z.pos (mx * my)) + (ex + ey) <= 1023).
  { apply digits_of_bound; [lia |]. now rewrite <- Hz. }
  assert (Hpre : ex + ey <= fexp prec emax (Zdigits2 (Z.pos (mx * my)) + (ex + ey))).
  { rewrite fexp_eq, Pos2Z.inj_mul.
    pose proof (Zdigits2_mul_ge (Z.pos mx) (Z.pos my) ltac:(lia) ltac:(lia)).
    destruct (Zdigits2_bounds (Z.pos mx) ltac:(lia)) as (? & _).
    destruct (Zdigits2_bounds (Z.pos my) ltac:(lia)) as (? & _).
    lia. }
  destruct (round_aux_real (xorb sx sy) (Z.pos (mx * my)) (ex + ey)
                           ltac:(lia) Hpre Hmag)
    as (a & Ha & Herr & Hvalid & Hfin & Hval).
  subst r. cbn [SFmul].
  split; [exact Hvalid |]. split; [exact Hfin |].
  rewrite Hval, signed_sub, Hz. exact Herr.
Qed.

Lemma shl_align_spec (mx : positive) (ex ex' : Z) :
  exists mz ez,
    shl_align mx ex ex' = (mz, ez) /\ ez = Z.min ex ex' /\
    Z.pos mz = Z.pos mx * 2 ^ (ex - ez) /\
    Zdigits2 (Z.pos mz) + ez = Zdigits2 (Z.pos mx) + ex.
Proof.
  unfold shl_align.
  destruct (ex' - ex) as [| d | d] eqn:Ed.
  - exists mx, ex. replace (ex - ex) with 0 by lia.
    repeat split; lia.
  - exists mx, ex. replace (ex - ex) with 0 by lia.
    repeat split; lia.
  - exists (Pos.iter xO mx d), ex'.
    assert (Hsh : Z.pos (Pos.iter xO mx d) = Z.pos mx * 2 ^ (ex - ex')).
    { change (Pos.iter xO mx d) with (shift_pos d mx).
      rewrite shift_pos_correct. replace (ex - ex') with (Z.pos d) by lia.
      change (2 ^ Z.pos d) with (Z.pow_pos 2 d). ring. }
    split; [reflexivity |]. split; [lia |]. split; [exact Hsh |].
    destruct (Zdigits2_bounds (Z.pos mx) ltac:(lia)) as (Hd & Hlo & Hhi).
    pose proof (pow2_pos (ex - ex') ltac:(lia)) as Hp.
    rewrite (Zdigits2_unique (Z.pos (Pos.iter xO mx d))
                             (Zdigits2 (Z.pos mx) + (ex - ex'))); [lia | lia |].
    rewrite Hsh.
    replace (Zdigits2 (Z.pos mx) + (ex - ex') - 1)
      with ((Zdigits2 (Z.pos mx) - 1) + (ex - ex')) by lia.
    rewrite !pow2_add by lia. nia.
Qed.

Lemma binary_round_real (s : bool) (mx : positive) (ex : Z) :
  Zdigits2 (Z.pos mx) + ex <= 1023 ->
  let r := binary_round prec emax s mx ex in
  let z := (IZR (Z.pos mx) * bpow ex)%R in
  exists a : R,
    (0 <= a)%R /\
    (Rabs (a - z) <= bpow (-53) * z + bpow (-1075))%R /\
    valid_binary r = true /\ SF_finite r = true /\
    SF2R r = signed s a.
Proof.
  intros Hmag r z. subst r. unfold binary_round.
  destruct (shl_align_spec mx ex (fexp prec emax (Z.pos (digits2_pos mx) + ex)))
    as (mz & ez & -> & Hez & Hmz & Hdig).
  change (Z.pos (digits2_pos mx)) with (Zdigits2 (Z.pos mx)) in Hez.
  assert (Hz : z = (IZR (Z.pos mz) * bpow ez)%R).
  { unfold z. rewrite Hmz, mult_IZR, <- bpow_IZR by lia.
    replace ex with ((ex - ez) + ez) at 1 by lia. rewrite bpow_add. ring. }
  rewrite Hz. apply round_aux_real; [lia | rewrite Hdig; lia | lia].
Qed.

Lemma binary_normalize_real (m e : Z) :
  (Rabs (IZR m * bpow e) < bpow 1023)%R ->
  let r := binary_normalize prec emax m e false in
  let z := (IZR m * bpow e)%R in
  valid_binary r = true /\ SF_finite r = true /\
  (Rabs (SF2R r - z) <= bpow (-53) * Rabs z + bpow (-1075))%R.
Proof.
  intros Hlt r z. pose proof (bpow_pos e) as He.
  pose proof (bpow_pos (-53)) as H53. pose proof (bpow_pos (-1075)) as H1075.
  destruct m as [| p | p]; subst r; cbn [binary_normalize].
  - repeat split. cbn [SF2R]. unfold z. rewrite Rmult_0_l, Rminus_0_r, Rabs_R0. lra.
  - assert (Hpos : (0 < IZR (Z.pos p))%R) by (apply IZR_lt; lia).
    assert (Hznn : (0 <= z)%R) by (unfold z; nra).
    fold z in Hlt. rewrite (Rabs_pos_eq _ Hznn) in *.
    destruct (binary_round_real false p e) as (a & Ha & Herr & Hv & Hf & Hval).
    { apply digits_of_bound; [lia | exact Hlt]. }
    split; [exact Hv |]. split; [exact Hf |].
    rewrite Hval. cbn [signed]. exact Herr.
  - assert (Hpos : (0 < IZR (Z.pos p))%R) by (apply IZR_lt; lia).
    assert (Hz : z = (- (IZR (Z.pos p) * bpow e))%R).
    { unfold z. change (Z.neg p) with (Z.opp (Z.pos p)). rewrite opp_IZR. ring. }
    fold z in Hlt. rewrite Hz, Rabs_Ropp in *.
    assert (Hznn : (0 <= IZR (Z.pos p) * bpow e)%R) by nra.
    rewrite (Rabs_pos_eq _ Hznn) in *.
    destruct (binary_round_real true p e) as (a & Ha & Herr & Hv & Hf & Hval).
    { apply digits_of_bound; [lia | exact Hlt]. }
    split; [exact Hv |]. split; [exact Hf |].
    rewrite Hval. cbn [signed].
    replace (- a - - (IZR (Z.pos p) * bpow e))%R
      with (- (a - IZR (Z.pos p) * bpow e))%R by ring.
    rewrite Rabs_Ropp. exact Herr.
Qed.

Lemma IZR_cond_Zopp (s : bool) (m : Z) : IZR (cond_Zopp s m) = signed s (IZR m).
Proof. destruct s; cbn [cond_Zopp signed]; [apply opp_IZR | reflexivity]. Qed.

Lemma signed_scale (s : bool) (a b : R) : (signed s a * b)%R = signed s (a * b).
Proof. destruct s; cbn [signed]; ring. Qed.

Lemma aligned_value (mx : positive) (ex ez : Z) :
  ez <= ex ->
  (IZR (Z.pos (fst (shl_align mx ex ez))) * bpow ez)%R = (IZR (Z.pos mx) * bpow ex)%R.
Proof.
  intros Hle.
  destruct (shl_align_spec mx ex ez) as (mz & ez' & -> & Hez & Hmz & _).
  cbn [fst]. subst ez'. rewrite (Z.min_r ex ez Hle) in *.
  rewrite Hmz, mult_IZR, <- bpow_IZR by lia.
  assert (E : bpow ex = (bpow (ex - ez) * bpow ez)%R)
    by (rewrite <- bpow_add; f_equal; lia).
  rewrite E. ring.
Qed.

(** The sum of two floats is the nearest float to the sum of their
    values, as long as that is in range. *)
Lemma SFadd_real (x y : spec_float) :
  valid_binary x = true -> valid_binary y = true ->
  SF_finite x = true -> SF_finite y = true ->
  (Rabs (SF2R x + SF2R y) < bpow 1023)%R ->
  let r := SFadd prec emax x y in
  valid_binary r = true /\ SF_finite r = true /\
  (Rabs (SF2R r - (SF2R x + SF2R y))
   <= bpow (-53) * Rabs (SF2R x + SF2R y) + bpow (-1075))%R.
Proof.
  intros Hvx Hvy Hfx Hfy Hlt r.
  pose proof (bpow_pos (-53)) as H53. pose proof (bpow_pos (-1075)) as H1075.
  assert (Hexact : forall a b : R, (a = b ->
            Rabs (a - b) <= bpow (-53) * Rabs b + bpow (-1075))%R).
  { intros a b ->. rewrite Rminus_diag, Rabs_R0.
    pose proof (Rabs_pos b). nra. }
  destruct x as [sx | sx | | sx mx ex]; try discriminate Hfx;
    destruct y as [sy | sy | | sy my ey]; try discriminate Hfy; subst r.
  - cbn [SFadd]. destruct sx, sy; cbn [SF2R]; repeat split; apply Hexact; ring.
  - cbn [SFadd]. split; [exact Hvy |]. split; [reflexivity |].
    apply Hexact. cbn [SF2R]. ring.
  - cbn [SFadd]. split; [exact Hvx |]. split; [reflexivity |].
    apply Hexact. cbn [SF2R]. ring.
  - cbn [SFadd].
    set (ez := Z.min ex ey).
    set (M := cond_Zopp sx (Z.pos (fst (shl_align mx ex ez)))
              + cond_Zopp sy (Z.pos (fst (shl_align my ey ez)))).
    assert (HM : (IZR M * bpow ez)%R
                 = (SF2R (S754_finite sx mx ex) + SF2R (S754_finite sy my ey))%R).
    { unfold M. rewrite plus_IZR, !IZR_cond_Zopp, !SF2R_finite.
      rewrite Rmult_plus_distr_r, !signed_scale.
      rewrite !aligned_value by (unfold ez; lia). reflexivity. }
    rewrite <- HM in *.
    apply binary_normalize_real. exact Hlt.
Qed.

Lemma fmul_real (x y : float) :
  finite x = true -> finite y = true ->
  (Rabs (val x * val y) < bpow 1023)%R ->
  finite (x * y)%float = true /\
  (Rabs (val (x * y)%float - val x * val y)
   <= bpow (-53) * Rabs (val x * val y) + bpow (-1075))%R.
Proof.
  intros Hx Hy Hlt. unfold finite, val in *. rewrite mul_spec.
  destruct (SFmul_real (Prim2SF x) (Prim2SF y) (Prim2SF_valid x) (Prim2SF_valid y)
                       Hx Hy Hlt) as (_ & Hf & Herr).
  now split.
Qed.

Lemma fadd_real (x y : float) :
  finite x = true -> finite y = true ->
  (Rabs (val x + val y) < bpow 1023)%R ->
  finite (x + y)%float = true /\
  (Rabs (val (x + y)%float - (val x + val y))
   <= bpow (-53) * Rabs (val x + val y) + bpow (-1075))%R.
Proof.
  intros Hx Hy Hlt. unfold finite, val in *. rewrite add_spec.
  destruct (SFadd_real (Prim2SF x) (Prim2SF y) (Prim2SF_valid x) (Prim2SF_valid y)
                       Hx Hy Hlt) as (_ & Hf & Herr).
  now split.
Qed.

(** ** Integer division *)

Lemma Rabs_bounds (x y : R) : (Rabs x <= y)%R -> (- y <= x <= y)%R.
Proof. unfold Rabs. destruct (Rcase_abs x); lra. Qed.

Lemma bpow_neg (k : Z) : bpow (- k) = (/ bpow k)%R.
Proof. apply powerRZ_neg'. Qed.

Lemma bpow_m53 : bpow (-53) = (/ 9007199254740992)%R.
Proof. change (-53) with (- (53)). now rewrite bpow_neg, bpow_IZR by lia. Qed.

Lemma bpow_m52 : bpow (-52) = (/ 4503599627370496)%R.
Proof. change (-52) with (- (52)). now rewrite bpow_neg, bpow_IZR by lia. Qed.

Lemma bpow_m50 : bpow (-50) = (/ 1125899906842624)%R.
Proof. change (-50) with (- (50)). now rewrite bpow_neg, bpow_IZR by lia. Qed.

Lemma bpow_m1070 : bpow (-1070) = (32 * bpow (-1075))%R.
Proof.
  change (-1070) with (5 + -1075). rewrite bpow_add, (bpow_IZR 5) by lia.
  reflexivity.
Qed.

Lemma bpow_m1075_small : (bpow (-1075) <= / 1024)%R.
Proof.
  pose proof (bpow_le (-1075) (-10) ltac:(lia)) as H.
  change (-10) with (- (10)) in H. rewrite bpow_neg, (bpow_IZR 10) in H by lia.
  exact H.
Qed.

Lemma bpow_1023_large : (1125899906842624 <= bpow 1023)%R.
Proof.
  pose proof (bpow_le 50 1023 ltac:(lia)) as H.
  now rewrite (bpow_IZR 50) in H by lia.
Qed.

Lemma truediv_quotient (a b : Z) :
  0 < a -> 0 < b ->
  2 ^ 54 <= a * 2 ^ Z.max 0 (55 + Z.log2 b - Z.log2 a) / b.
Proof.
  intros Ha Hb. set (k := Z.max 0 (55 + Z.log2 b - Z.log2 a)).
  destruct (Z.log2_spec a Ha) as [Hla _].
  destruct (Z.log2_spec b Hb) as [_ Hlb].
  pose proof (Z.log2_nonneg a) as Hna. pose proof (Z.log2_nonneg b) as Hnb.
  apply Z.div_le_lower_bound; [exact Hb |].
  assert (H1 : 2 ^ (55 + Z.log2 b) <= 2 ^ (Z.log2 a + k))
    by (apply pow2_le; unfold k; lia).
  assert (H1' : 2 ^ (Z.log2 a + k) = 2 ^ Z.log2 a * 2 ^ k)
    by (apply pow2_add; unfold k; lia).
  assert (H2 : 2 ^ (55 + Z.log2 b) = 2 ^ Z.succ (Z.log2 b) * 2 ^ 54).
  { rewrite <- pow2_add by lia. f_equal. lia. }
  pose proof (pow2_pos k ltac:(unfold k; lia)) as Hpk.
  assert (H3 : b * 2 ^ 54 <= 2 ^ Z.succ (Z.log2 b) * 2 ^ 54)
    by (apply Z.mul_le_mono_nonneg_r; lia).
  assert (H4 : 2 ^ Z.log2 a * 2 ^ k <= a * 2 ^ k)
    by (apply Z.mul_le_mono_nonneg_r; lia).
  lia.
Qed.

Lemma finite_zero : finite zero = true /\ val zero = 0%R.
Proof. split; reflexivity. Qed.

Lemma val_SF2Prim (sf : spec_float) :
  valid_binary sf = true ->
  val (SF2Prim sf) = SF2R sf /\ finite (SF2Prim sf) = SF_finite sf.
Proof. intros Hv. unfold val, finite. now rewrite (Prim2SF_SF2Prim sf Hv). Qed.

(** [a / b] on integers [0 <= a <= b]: no exception, and the quotient
    with a relative error of at most [2^-52]. *)
Lemma truediv_real (a b : Z) :
  0 <= a <= b -> 0 < b ->
  exists f,
    Binary64.truediv a b = Ret f /\ finite f = true /\
    (Rabs (val f - IZR a / IZR b)
     <= bpow (-52) * (IZR a / IZR b) + bpow (-1075))%R.
Proof.
  intros Hab Hb. unfold Binary64.truediv.
  destruct (Z.eqb_spec b 0) as [E | _]; [lia |].
  assert (Ea : (a <? 0) = false) by (apply Z.ltb_ge; lia).
  assert (Eb : (b <? 0) = false) by (apply Z.ltb_ge; lia).
  rewrite Ea, Eb, (Z.abs_eq a), (Z.abs_eq b) by lia. cbn [xorb].
  pose proof (bpow_pos (-1075)) as Hu.
  assert (HB : (0 < IZR b)%R) by (apply IZR_lt; lia).
  destruct (Z.eqb_spec a 0) as [E0 | Hne].
  - exists zero. split; [reflexivity |]. split; [reflexivity |].
    subst a. change (val zero) with 0%R.
    unfold Rdiv. rewrite Rmult_0_l, Rminus_0_r, Rabs_R0. lra.
  - assert (Ha : 0 < a) by lia.
    pose proof (truediv_quotient a b Ha Hb) as Hq.
    set (k := Z.max 0 (55 + Z.log2 b - Z.log2 a)) in *.
    assert (Hk : 0 <= k) by (unfold k; lia).
    set (N := a * 2 ^ k) in *.
    set (q := N / b) in *.
    pose proof (Z.div_mod N b ltac:(lia)) as HN. fold q in HN.
    pose proof (Z.mod_pos_bound N b Hb) as Hr.
    set (sticky := if N mod b =? 0 then 0 else 1).
    set (m := 2 * q + sticky).
    assert (Hsticky : 0 <= sticky <= 1 /\ Z.abs (b * m - 2 * N) <= b).
    { unfold m, sticky. destruct (Z.eqb_spec (N mod b) 0) as [Er | Er]; nia. }
    destruct Hsticky as [Hst Hbm].
    assert (Hm : 2 ^ 55 <= m) by (unfold m; change (2 ^ 55) with (2 * 2 ^ 54); lia).
    (* the reals *)
    set (h := bpow (- k - 1)).
    set (P := bpow k). set (X := (IZR a / IZR b)%R).
    assert (Hh : (0 < h)%R) by apply bpow_pos.
    assert (HP : (0 < P)%R) by apply bpow_pos.
    assert (HPh : (2 * P * h = 1)%R).
    { unfold P, h. replace (2 * bpow k)%R with (bpow (k + 1)) by apply bpow_succ.
      rewrite <- bpow_add. replace (k + 1 + (- k - 1)) with 0 by lia. reflexivity. }
    assert (HX : (IZR a = X * IZR b)%R) by (unfold X; field; lra).
    assert (HX1 : (0 <= X <= 1)%R).
    { assert (0 <= IZR a <= IZR b)%R by (split; apply IZR_le; lia).
      split.
      - apply Rmult_le_reg_r with (IZR b); [exact HB |]. lra.
      - apply Rmult_le_reg_r with (IZR b); [exact HB |]. lra. }
    assert (HNr : IZR N = (IZR a * P)%R)
      by (unfold N, P; rewrite mult_IZR, bpow_IZR by lia; reflexivity).
    assert (Hdiff : (-1 <= IZR m - 2 * P * X <= 1)%R).
    { apply IZR_le in Hbm. rewrite abs_IZR, minus_IZR, !mult_IZR, HNr, HX in Hbm.
      apply Rabs_bounds in Hbm.
      split; apply Rmult_le_reg_l with (IZR b); try exact HB; lra. }
    assert (HPX : (18014398509481984 <= P * X)%R).
    { assert (Hbq : b * 2 ^ 54 <= N) by nia.
      apply IZR_le in Hbq. rewrite mult_IZR, HNr, HX in Hbq.
      change (IZR (2 ^ 54)) with 18014398509481984%R in Hbq.
      apply Rmult_le_reg_l with (IZR b); [exact HB |]. lra. }
    set (z := (IZR m * h)%R).
    assert (Hzx : (- h <= z - X <= h)%R).
    { replace (z - X)%R with (h * (IZR m - 2 * P * X))%R
        by (unfold z; replace X with (2 * P * h * X)%R at 2 by (rewrite HPh; ring);
            ring).
      split; nra. }
    assert (Hhx : (36028797018963968 * h <= X)%R) by nra.
    assert (Hz0 : (0 <= z)%R).
    { unfold z. apply Rmult_le_pos; [apply IZR_le; lia | lra]. }
    destruct (binary_normalize_real m (- k - 1)) as (Hv & Hf & Herr).
    { fold h. fold z. rewrite Rabs_pos_eq by exact Hz0.
      pose proof bpow_1023_large. lra. }
    fold h in Herr. fold z in Herr. rewrite (Rabs_pos_eq z Hz0) in Herr.
    unfold Binary64.nearest.
    set (r := binary_normalize prec emax m (- k - 1) false) in *.
    destruct (val_SF2Prim r Hv) as [Hval Hfin].
    exists (SF2Prim r).
    split; [destruct r; try discriminate Hf; reflexivity |].
    split; [now rewrite Hfin |].
    rewrite Hval. apply Rabs_bounds in Herr. rewrite bpow_m53 in Herr.
    rewrite bpow_m52. apply Rabs_le. lra.
Qed.

(** ** The angles of the loop *)

Lemma val_of_SF (x : float) (s : bool) (m : positive) (e : Z) :
  Prim2SF x = S754_finite s m e ->
  val x = signed s (IZR (Z.pos m) * bpow e) /\ finite x = true.
Proof. intros E. unfold val, finite. rewrite E. split; [apply SF2R_finite | reflexivity]. Qed.

Lemma bpow_m51 : bpow (-51) = (/ 2251799813685248)%R.
Proof. change (-51) with (- (51)). now rewrite bpow_neg, bpow_IZR by lia. Qed.

Lemma bpow_m46 : bpow (-46) = (/ 70368744177664)%R.
Proof. change (-46) with (- (46)). now rewrite bpow_neg, bpow_IZR by lia. Qed.

Lemma val_pi :
  val Binary64.math_pi = (7074237752028440 / 2251799813685248)%R /\
  finite Binary64.math_pi = true.
Proof.
  destruct (val_of_SF Binary64.math_pi false 7074237752028440 (-51) eq_refl)
    as [Hv Hf].
  split; [| exact Hf]. rewrite Hv, bpow_m51. reflexivity.
Qed.

Lemma val_two :
  val (@of_int float binary64 2) = 2%R /\ finite (@of_int float binary64 2) = true.
Proof.
  destruct (val_of_SF (@of_int float binary64 2) false 4503599627370496 (-51))
    as [Hv Hf]; [vm_compute; reflexivity |].
  split; [| exact Hf]. rewrite Hv, bpow_m51. cbn [signed]. lra.
Qed.

Lemma val_hundred :
  val (@of_int float binary64 100) = 100%R /\
  finite (@of_int float binary64 100) = true.
Proof.
  destruct (val_of_SF (@of_int float binary64 100) false 7036874417766400 (-46))
    as [Hv Hf]; [vm_compute; reflexivity |].
  split; [| exact Hf]. rewrite Hv, bpow_m46. cbn [signed]. lra.
Qed.

Lemma val_start_angle :
  (Rabs (val (@start_angle float binary64)) <= 2)%R /\
  finite (@start_angle float binary64) = true.
Proof.
  destruct (val_of_SF (@start_angle float binary64) true 7074237752028440 (-52))
    as [Hv Hf]; [vm_compute; reflexivity |].
  split; [| exact Hf]. rewrite Hv, bpow_m52. cbn [signed].
  apply Rabs_le. lra.
Qed.

Lemma in_range (x : R) : (Rabs x <= 1099511627776000)%R -> (Rabs x < bpow 1023)%R.
Proof. intros H. pose proof bpow_1023_large. lra. Qed.

(** [delta = frac * 2 * math.pi] for a fraction [frac] that is [r] up to
    a relative error of [2^-52]. *)
Lemma span_real (frac : float) (r : R) :
  finite frac = true -> (0 <= r <= 1)%R ->
  (Rabs (val frac - r) <= bpow (-52) * r + bpow (-1075))%R ->
  finite (@span float binary64 frac) = true /\
  (Rabs (val (@span float binary64 frac) - 2 * val Binary64.math_pi * r)
   <= bpow (-50) * (2 * val Binary64.math_pi * r) + bpow (-1070))%R /\
  (Rabs (val (@span float binary64 frac)) <= 7)%R.
Proof.
  intros Hfin Hr Hfrac.
  destruct val_pi as [Hpi Hpif]. destruct val_two as [H2 H2f].
  pose proof (bpow_pos (-1075)) as Hu. pose proof bpow_m1075_small as Hu'.
  rewrite bpow_m1070, bpow_m50, Hpi. rewrite bpow_m52 in Hfrac.
  apply Rabs_bounds in Hfrac.
  unfold span. cbn [fmul pi binary64].
  set (f := val frac) in *. set (u := bpow (-1075)) in *.
  (* frac * 2 *)
  assert (Hb1 : (Rabs (f * 2) <= 2 * r * (1 + / 4503599627370496) + 2 * u)%R)
    by (apply Rabs_le; lra).
  destruct (fmul_real frac (@of_int float binary64 2) Hfin H2f) as [Hf1 He1].
  { fold f. rewrite H2. apply in_range. lra. }
  fold f in He1. rewrite H2, bpow_m53 in He1. fold u in He1.
  apply Rabs_bounds in He1.
  set (p1 := val (frac * @of_int float binary64 2)%float) in *.
  (* ... * math.pi *)
  assert (Hb2 : (Rabs (p1 * (7074237752028440 / 2251799813685248))
                 <= (7074237752028440 / 2251799813685248)
                    * ((2 * r * (1 + / 4503599627370496) + 2 * u)
                       * (1 + / 9007199254740992) + u))%R)
    by (apply Rabs_le; lra).
  destruct (fmul_real (frac * @of_int float binary64 2)%float Binary64.math_pi
                      Hf1 Hpif) as [Hf2 He2].
  { fold p1. rewrite Hpi. apply in_range. lra. }
  fold p1 in He2. rewrite Hpi, bpow_m53 in He2. fold u in He2.
  apply Rabs_bounds in He2.
  split; [exact Hf2 |].
  set (p2 := val (frac * @of_int float binary64 2 * Binary64.math_pi)%float) in *.
  split; apply Rabs_le; lra.
Qed.

Lemma round_returns (x : float) :
  finite x = true -> exists n, Binary64.round x = Ret n.
Proof.
  unfold finite, Binary64.round.
  destruct (Prim2SF x); try discriminate; intros _; eexists; reflexivity.
Qed.

Lemma finite_trig_defined (x : float) :
  finite x = true -> Binary64.finite_or_nan x = true.
Proof.
  unfold finite, Binary64.finite_or_nan. now destruct (Prim2SF x).
Qed.

Lemma percent_returns (frac : float) (r : R) :
  finite frac = true -> (0 <= r <= 1)%R ->
  (Rabs (val frac - r) <= bpow (-52) * r + bpow (-1075))%R ->
  exists pct, Binary64.round (frac * @of_int float binary64 100)%float = Ret pct.
Proof.
  intros Hfin Hr Hfrac. destruct val_hundred as [H100 H100f].
  pose proof (bpow_pos (-1075)) as Hu. pose proof bpow_m1075_small as Hu'.
  rewrite bpow_m52 in Hfrac. apply Rabs_bounds in Hfrac.
  apply round_returns.
  apply (fmul_real frac (@of_int float binary64 100) Hfin H100f).
  rewrite H100. apply in_range. apply Rabs_le. lra.
Qed.

Lemma spans_sum_cons (d : float) (deltas : list float) :
  spans_sum (d :: deltas) = (val d + spans_sum deltas)%R.
Proof. reflexivity. Qed.

Lemma fraction_in_unit (value total : Z) :
  0 <= value <= total -> 0 < total -> (0 <= IZR value / IZR total <= 1)%R.
Proof.
  intros Hv Ht.
  assert (HT : (0 < IZR total)%R) by (apply IZR_lt; lia).
  assert (HV : (0 <= IZR value <= IZR total)%R) by (split; apply IZR_le; lia).
  split.
  - apply Rmult_le_reg_r with (IZR total); [exact HT |].
    unfold Rdiv. rewrite Rmult_assoc, Rinv_l by lra. lra.
  - apply Rmult_le_reg_r with (IZR total); [exact HT |].
    unfold Rdiv. rewrite Rmult_assoc, Rinv_l by lra. lra.
Qed.

(** The loop of [pie_paths] on non-negative values, none above the
    total: every step returns, every angle stays finite, and the delta
    values add up to the share of the values in the total, times
    [2 * math.pi], up to rounding. *)
Lemma pie_loop_real (total cx cy r_outer r_inner : Z) (colors : list string) :
  0 < total -> colors <> [] ->
  forall (data : list (string * Z)) (i : nat) (angle : float),
    (forall kv, In kv data -> 0 <= snd kv <= total) ->
    Z.of_nat i + Z.of_nat (List.length data) <= 2 ^ 40 ->
    finite angle = true ->
    (Rabs (val angle) <= 2 + 8 * IZR (Z.of_nat i))%R ->
    exists (slices : list (slice float)) (deltas : list float),
      pie_loop total cx cy r_outer r_inner colors i angle data = Ret slices /\
      pie_deltas total data = Ret deltas /\
      Forall2 spans slices deltas /\
      (Rabs (spans_sum deltas
             - 2 * val Binary64.math_pi * (IZR (sum_values data) / IZR total))
       <= bpow (-50)
          * (2 * val Binary64.math_pi * (IZR (sum_values data) / IZR total))
          + IZR (Z.of_nat (List.length data)) * bpow (-1070))%R.
Proof.
  intros Ht Hc data.
  assert (HT : (0 < IZR total)%R) by (apply IZR_lt; lia).
  induction data as [| [label value] rest IH]; intros i angle Hdata Hlen Hfin Hangle.
  - exists [], []. repeat split; [constructor |].
    cbn [spans_sum fold_right sum_values List.length].
    unfold Rdiv. rewrite !Rmult_0_l, !Rmult_0_r, Rminus_0_r, Rabs_R0. lra.
  - assert (Hv : 0 <= value <= total) by (apply (Hdata (label, value)); now left).
    destruct (truediv_real value total Hv Ht) as (frac & Hdiv & Hff & Hfrac).
    pose proof (fraction_in_unit value total Hv Ht) as Hr.
    destruct (span_real frac _ Hff Hr Hfrac) as (Hdf & Hderr & Hdabs).
    destruct (percent_returns frac _ Hff Hr Hfrac) as (pct & Hpct).
    destruct (color_returns colors i label Hc) as (color & Hcolor).
    set (delta := @span float binary64 frac) in *.
    assert (HI : (0 <= IZR (Z.of_nat i) <= 1099511627776)%R).
    { split; [apply IZR_le; lia |].
      change 1099511627776%R with (IZR (2 ^ 40)). apply IZR_le. cbn [List.length] in Hlen. lia. }
    apply Rabs_bounds in Hangle. pose proof (Rabs_bounds _ _ Hdabs) as Hdb.
    destruct (fadd_real angle delta Hfin Hdf) as [Haf Haerr].
    { apply in_range. apply Rabs_le. lra. }
    assert (Hsum : (Rabs (val angle + val delta) <= 9 + 8 * IZR (Z.of_nat i))%R)
      by (apply Rabs_le; lra).
    rewrite bpow_m53 in Haerr. apply Rabs_bounds in Haerr.
    pose proof (bpow_pos (-1075)) as Hu. pose proof bpow_m1075_small as Hu'.
    destruct (IH (S i) (angle + delta)%float) as (slices & deltas & Hloop & Hdeltas & Hspans & Herr).
    { intros kv Hin. apply Hdata. now right. }
    { cbn [List.length] in Hlen. lia. }
    { exact Haf. }
    { rewrite Nat2Z.inj_succ, succ_IZR. apply Rabs_le. lra. }
    eexists. exists (delta :: deltas).
    split; [| split; [| split]].
    + cbn [pie_loop]. cbn [truediv binary64]. rewrite Hdiv. cbn [bind].
      rewrite Hcolor. cbn [bind].
      unfold points. cbn [trig_defined fadd binary64].
      rewrite (finite_trig_defined angle Hfin).
      fold delta. rewrite (finite_trig_defined (angle + delta)%float Haf).
      cbn [andb bind]. cbn [pyround fmul binary64]. rewrite Hpct. cbn [bind].
      cbn [fadd binary64] in Hloop. rewrite Hloop. cbn [bind]. reflexivity.
    + cbn [pie_deltas]. cbn [truediv binary64]. rewrite Hdiv. cbn [bind].
      rewrite Hdeltas. cbn [bind]. reflexivity.
    + constructor; [| exact Hspans]. split; reflexivity.
    + rewrite spans_sum_cons, sum_values_cons. cbn [snd List.length].
      rewrite Nat2Z.inj_succ, succ_IZR, plus_IZR.
      replace ((IZR value + IZR (sum_values rest)) / IZR total)%R
        with (IZR value / IZR total + IZR (sum_values rest) / IZR total)%R
        by (field; lra).
      destruct val_pi as [Hpi _]. rewrite Hpi, bpow_m50 in *.
      pose proof (bpow_pos (-1070)) as H1070.
      apply Rabs_bounds in Hderr. apply Rabs_bounds in Herr.
      set (X1 := (IZR value / IZR total)%R) in *.
      set (X2 := (IZR (sum_values rest) / IZR total)%R) in *.
      set (n := IZR (Z.of_nat (List.length rest))) in *.
      apply Rabs_le. lra.
Qed.

(** ** The sum of the spans *)

Lemma value_le_sum (l : list (string * Z)) :
  (forall kv, In kv l -> 0 <= snd kv) ->
  forall kv, In kv l -> snd kv <= sum_values l.
Proof.
  induction l as [| x l IH]; intros Hl kv Hin; [destruct Hin |].
  rewrite sum_values_cons.
  assert (0 <= snd x) by (apply Hl; now left).
  assert (Hrest : forall kv, In kv l -> 0 <= snd kv) by (intros; apply Hl; now right).
  pose proof (sum_values_nonneg l Hrest).
  destruct Hin as [<- | Hin]; [lia |].
  pose proof (IH Hrest kv Hin). lia.
Qed.

Lemma nonneg_below_total (data : list (string * Z)) :
  (forall kv, In kv data -> 0 <= snd kv) ->
  0 < pie_total data /\ forall kv, In kv data -> 0 <= snd kv <= pie_total data.
Proof.
  intros Hdata. pose proof (sum_values_nonneg data Hdata) as Hsum.
  destruct (Z.eq_dec (sum_values data) 0) as [Hz | Hnz].
  - rewrite (pie_total_of_zero data Hz). split; [lia |].
    intros kv Hin. rewrite (nonneg_sum_zero data Hdata Hz kv Hin). lia.
  - rewrite (pie_total_of_nonzero data Hnz). split; [lia |].
    intros kv Hin. split; [now apply Hdata | now apply value_le_sum].
Qed.

(** [pie_paths] on non-negative values: it returns, and the delta values
    add up to the share of the values in the divisor, times
    [2 * math.pi], up to rounding. *)
Lemma pie_paths_real (data : list (string * Z)) (cx cy r_outer r_inner : Z)
      (colors : list string) :
  (forall kv, In kv data -> 0 <= snd kv) -> colors <> [] ->
  Z.of_nat (List.length data) <= 2 ^ 40 ->
  exists (slices : list (slice float)) (deltas : list float),
    pie_paths data cx cy r_outer r_inner colors = Ret slices /\
    pie_deltas (pie_total data) data = Ret deltas /\
    Forall2 spans slices deltas /\
    (Rabs (spans_sum deltas
           - 2 * val pi * (IZR (sum_values data) / IZR (pie_total data)))
     <= bpow (-50) * (2 * val pi * (IZR (sum_values data) / IZR (pie_total data)))
        + IZR (Z.of_nat (List.length data)) * bpow (-1070))%R.
Proof.
  intros Hdata Hc Hlen.
  destruct (nonneg_below_total data Hdata) as [Ht Hbelow].
  destruct val_start_angle as [Hstart Hfin].
  apply (pie_loop_real (pie_total data) cx cy r_outer r_inner colors Ht Hc
                       data O start_angle Hbelow).
  - cbn [Z.of_nat]. lia.
  - exact Hfin.
  - cbn [Z.of_nat]. lra.
Qed.

(** C4, as the code has it: for non-negative values with a non-zero sum
    (a centre and radii that convert to floats, a palette that is not
    empty), [pie_paths] returns one slice per entry, each going from its
    start angle by its own [delta], and the real values of the [delta]s
    add up to twice [math.pi] up to a relative error of [2^-50], and an
    absolute one of [2^-1070] per slice for values so small that they
    underflow.  The displayed percentages play no part. *)
Theorem pie_spans_sum (data : list (string * Z)) (cx cy r_outer r_inner : Z)
        (colors : list string) :
  (forall kv, In kv data -> 0 <= snd kv) -> sum_values data <> 0 ->
  colors <> [] -> Z.of_nat (List.length data) <= 2 ^ 40 ->
  Binary64.fits cx = true -> Binary64.fits cy = true ->
  Binary64.fits r_outer = true -> Binary64.fits r_inner = true ->
  exists (slices : list (slice float)) (deltas : list float),
    pie_paths data cx cy r_outer r_inner colors = Ret slices /\
    pie_deltas (pie_total data) data = Ret deltas /\
    Forall2 spans slices deltas /\
    (Rabs (spans_sum deltas - 2 * val pi)
     <= bpow (-50) * (2 * val pi)
        + IZR (Z.of_nat (List.length data)) * bpow (-1070))%R.
Proof.
  intros Hdata Hsum Hc Hlen _ _ _ _.
  destruct (pie_paths_real data cx cy r_outer r_inner colors Hdata Hc Hlen)
    as (slices & deltas & Hpaths & Hdeltas & Hspans & Herr).
  exists slices, deltas. repeat split; try assumption.
  rewrite (pie_total_of_nonzero data Hsum) in Herr.
  replace (IZR (sum_values data) / IZR (sum_values data))%R with 1%R in Herr
    by (field; now apply not_0_IZR).
  now rewrite !Rmult_1_r in Herr.
Qed.

Lemma pie_spans_sum_witness :
  let data := [("Python", 23); ("HTML", 17)] in
  (forall kv, In kv data -> 0 <= snd kv) /\ sum_values data <> 0 /\
  REPO_COLORS <> [] /\ Z.of_nat (List.length data) <= 2 ^ 40 /\
  exists (slices : list (slice float)) (deltas : list float),
    pie_paths data 280 160 88 56 REPO_COLORS = Ret slices /\
    pie_deltas (pie_total data) data = Ret deltas /\
    Forall2 spans slices deltas /\
    (Rabs (spans_sum deltas - 2 * val pi)
     <= bpow (-50) * (2 * val pi)
        + IZR (Z.of_nat (List.length data)) * bpow (-1070))%R.
Proof.
  cbv zeta.
  assert (Hdata : forall kv, In kv [("Python", 23); ("HTML", 17)] -> 0 <= snd kv).
  { intros kv [<- | [<- | []]]; cbn [snd]; lia. }
  assert (Hsum : sum_values [("Python", 23); ("HTML", 17)] <> 0) by discriminate.
  assert (Hc : REPO_COLORS <> []) by discriminate.
  assert (Hlen : Z.of_nat (List.length [("Python", 23); ("HTML", 17)]) <= 2 ^ 40)
    by (cbn [List.length Z.of_nat]; lia).
  split; [exact Hdata |]. split; [exact Hsum |]. split; [exact Hc |].
  split; [exact Hlen |].
  exact (pie_spans_sum [("Python", 23); ("HTML", 17)] 280 160 88 56 REPO_COLORS
                       Hdata Hsum Hc Hlen eq_refl eq_refl eq_refl eq_refl).
Defined.

Lemma far_from_full_turn (n : R) :
  (0 <= n <= 1)%R ->
  ~ (Rabs (0 - 2 * val pi) <= bpow (-50) * (2 * val pi) + n * bpow (-1070))%R.
Proof.
  intros Hn Hle. destruct val_pi as [Hpi _].
  change (@pi float binary64) with Binary64.math_pi in Hle.
  rewrite Hpi, bpow_m50, bpow_m1070 in Hle.
  pose proof (bpow_pos (-1075)). pose proof bpow_m1075_small.
  apply Rabs_bounds in Hle. nra.
Qed.

(** Lists whose values sum to zero: the divisor is 1, the empty list has
    no slice and the list with one zero value has one slice with [delta]
    zero, so that the [delta]s add up to 0, which is not twice [math.pi]
    within the tolerance. *)
Lemma pie_spans_of_zero_total :
  (@pie_paths float binary64 [] 280 160 88 56 REPO_COLORS = Ret [] /\
   @pie_deltas float binary64 (pie_total []) [] = Ret [] /\
   spans_sum [] = 0%R) /\
  (exists s : slice float,
      pie_paths [("Python", 0)] 280 160 88 56 REPO_COLORS = Ret [s] /\
      pie_deltas (pie_total [("Python", 0)]) [("Python", 0)] = Ret [zero] /\
      Forall2 spans [s] [zero] /\
      spans_sum [zero] = 0%R) /\
  ~ (Rabs (0 - 2 * val pi)
     <= bpow (-50) * (2 * val pi) + IZR (Z.of_nat 1) * bpow (-1070))%R.
Proof.
  split; [| split].
  - repeat split.
  - eexists. split; [vm_compute; reflexivity |].
    split; [vm_compute; reflexivity |].
    split.
    + constructor; [| constructor]. split; vm_compute; reflexivity.
    + cbn [spans_sum fold_right]. change (val zero) with 0%R. lra.
  - apply far_from_full_turn. cbn. lra.
Qed.

(** ** A run with failing commit requests *)

Lemma val_opp (x : float) : val (- x)%float = (- val x)%R.
Proof.
  unfold val. rewrite opp_spec.
  destruct (Prim2SF x) as [s | s | | s m e]; cbn [SFopp SF2R]; try lra.
  rewrite !IZR_cond_Zopp. destruct s; cbn [negb signed]; ring.
Qed.

(** Values of both signs: the sum is 1, each fraction is rounded to
    [1e17] in absolute value, and the two [delta]s cancel. *)
Example pie_spans_of_mixed_signs :
  let data := [("Python", 10 ^ 17); ("HTML", 1 - 10 ^ 17)] in
  sum_values data = 1 /\
  exists (slices : list (slice float)) (delta : float),
    pie_paths data 280 160 88 56 REPO_COLORS = Ret slices /\
    pie_deltas (pie_total data) data = Ret [delta; (- delta)%float] /\
    Forall2 spans slices [delta; (- delta)%float] /\
    spans_sum [delta; (- delta)%float] = 0%R.
Proof.
  cbv zeta. split; [reflexivity |].
  eexists. exists (@span float binary64 (of_int (10 ^ 17))).
  split; [vm_compute; reflexivity |].
  split; [vm_compute; reflexivity |].
  split.
  - repeat constructor; vm_compute; reflexivity.
  - cbn [spans_sum fold_right]. rewrite val_opp. ring.
Qed.






Section RunReal.

Variable World : Type.
Variable getenv : string -> option string.
Variable http_post : option string -> World -> post_result * World.
Variable http_get : string -> World -> get_result * World.
Variable file_write : string -> svg -> World -> outcome unit * World.




End RunReal.


(** A run in which every commit request is answered with status 200, one
    of them with a negative count: the weights are [-(10^310 - 1)] and
    [10^310], their sum is 1, the fraction of the larger one is beyond the
    range of floats, and the run ends with [OverflowError] and exit
    status 1. *)
Example commit_count_negative_is_fatal :
  commit_weighted_languages Scripted.World Scripted.huge_get Scripted.repos 1%nat
  = (Ret [("Python", - (10 ^ 310 - 1)); ("HTML", 10 ^ 310)], 3%nat) /\
  script Scripted.World Scripted.getenv Scripted.http_post Scripted.huge_get
         Scripted.file_write 1 O = Some (Raise OverflowError, 3%nat) /\
  exit_status (@Raise unit OverflowError) = 1.
Proof.
  split; [vm_compute; reflexivity |].
  split; [vm_compute; reflexivity | reflexivity].
Qed.
